(** * syn2mas: the Synapse to MAS migration tool ([tools/syn2mas/src/migrate.mts])

    A shallow embedding of [migrate()] and of the helpers it declares
    ([parseUuidOrUlid], [makeUuid], [stringifyAndRedact], [warn], [fatal],
    [migrateUser]), followed by the properties of the migration that the
    specification states.

    Conventions of the embedding:
    - a JavaScript string is a [string]: each character stands for one code
      unit below 256;
    - a [Date] is its time value in epoch milliseconds, or the invalid date
      (whose time value is [NaN]); an integer column holds an integer, a [Z];
    - a 16-byte identifier ([Uint8Array(16)]) is the big-endian number it
      denotes, an [N] below [2^128];
    - the two database handles, the logger, [process.exit] and exceptions are
      threaded through the state-and-abort monad [M]; what the run cannot
      decide is an input of the run, held by [Env]: the random bits the
      identifier library draws, and whether a store fails a statement;
    - the [id128], [knex] and [JSON] functions the tool calls are modelled in
      the modules [Id128], [Knex] and [Json]. *)

From Stdlib Require Import ZArith NArith List String Ascii Bool Lia DecimalString.
From stdpp Require Import base option list gmap strings.

Local Open Scope string_scope.
Local Open Scope list_scope.
Local Open Scope stdpp_scope.

(** ** JavaScript string primitives used by the tool *)

Module Js.

Fixpoint drop (n : nat) (s : string) : string :=
  match n, s with
  | O, _ => s
  | S _, EmptyString => EmptyString
  | S n', String _ r => drop n' r
  end.

(** [s.substring(n)] *)
Definition substring (n : nat) (s : string) : string := drop n s.

(** [s.slice(-n)]: the last [n] code units (all of [s] when it is shorter). *)
Definition slice_last (n : nat) (s : string) : string :=
  drop (String.length s - n) s.

(** [s.split(sep)] for a one-character separator: never empty. *)
Fixpoint split (sep : ascii) (s : string) : list string :=
  match s with
  | EmptyString => [EmptyString]
  | String c r =>
      if Ascii.eqb c sep then EmptyString :: split sep r
      else match split sep r with
           | p :: ps => String c p :: ps
           | [] => [String c EmptyString]
           end
  end.

(** [arr[i]]: [None] stands for [undefined]. *)
Definition index {A} (l : list A) (i : nat) : option A := nth_error l i.

(** [!x] for [x : string | undefined]: the empty string is falsy. *)
Definition falsy (x : option string) : bool :=
  match x with
  | None => true
  | Some EmptyString => true
  | Some _ => false
  end.

Definition lower_char (c : ascii) : ascii :=
  let n := N_of_ascii c in
  if ((65 <=? n) && (n <=? 90))%N then ascii_of_N (n + 32)
  else if ((192 <=? n) && (n <=? 222) && negb (n =? 215))%N then ascii_of_N (n + 32)
  else c.

(** [s.toLowerCase()] on code units below 256. *)
Fixpoint toLowerCase (s : string) : string :=
  match s with
  | EmptyString => EmptyString
  | String c r => String (lower_char c) (toLowerCase r)
  end.

(** [s.startsWith(p)] *)
Fixpoint startsWith (p s : string) : bool :=
  match p, s with
  | EmptyString, _ => true
  | String a p', String b s' => Ascii.eqb a b && startsWith p' s'
  | String _ _, EmptyString => false
  end.

(** [`${n}`] for an integer. *)
Definition of_Z (z : Z) : string := NilZero.string_of_int (Z.to_int z).
Definition of_nat (n : nat) : string := NilZero.string_of_uint (Nat.to_uint n).

(** [`${b}`] *)
Definition of_bool (b : bool) : string := if b then "true" else "false".

Fixpoint concat (l : list string) : string :=
  match l with
  | [] => EmptyString
  | s :: r => s +:+ concat r
  end.

End Js.

(** ** [Date]

    A date holds a time value: a whole number of milliseconds since the epoch,
    at most 8.64e15 on either side of it, or [NaN] for the invalid date. *)

Inductive Date :=
| At (ms : Z)
| InvalidDate.

Definition MAX_TIME : Z := 8640000000000000.

(** [new Date(ms)] for an integer [ms] *)
Definition new_Date (ms : Z) : Date :=
  if (Z.abs ms <=? MAX_TIME)%Z then At ms else InvalidDate.

(** ** The [id128] identifiers

    [Ulid.generate({time})] lays out 48 bits of epoch milliseconds followed by
    80 random bits and throws [InvalidEpoch] when the time value is below 0 or
    at least 2^48; the time value [NaN] of the invalid date passes both
    comparisons and leaves the 48 bits at zero.  The canonical ULID text is 26
    Crockford base-32 digits; the canonical UUID text is written as the dashed
    8-4-4-4-12 upper-case hexadecimal form and read as eight groups of four
    hexadecimal digits with an optional dash before each but the first; the
    raw form is 32 hexadecimal digits. *)

Module Id128.

Definition MAX_MS : Z := 2 ^ 48.

(** the [k] low digits of [n], least significant first *)
Fixpoint digits_le (base : N) (k : nat) (n : N) : list N :=
  match k with
  | O => []
  | S k' => (n mod base)%N :: digits_le base k' (n / base)%N
  end.

Definition to_digits (base : N) (k : nat) (n : N) : list N :=
  rev (digits_le base k n).

Definition of_digits (base : N) (ds : list N) : N :=
  fold_left (fun acc d => (acc * base + d)%N) ds 0%N.

Definition CROCKFORD : list ascii :=
  list_ascii_of_string "0123456789ABCDEFGHJKMNPQRSTVWXYZ".

Definition HEX : list ascii := list_ascii_of_string "0123456789ABCDEF".

Definition digit_char (alphabet : list ascii) (d : N) : ascii :=
  nth (N.to_nat d) alphabet "0"%char.

Definition in_range (lo hi c : ascii) : bool :=
  ((N_of_ascii lo <=? N_of_ascii c) && (N_of_ascii c <=? N_of_ascii hi))%N.

Definition is_digit (c : ascii) : bool := in_range "0" "9" c.
Definition is_upper (c : ascii) : bool := in_range "A" "Z" c.
Definition is_lower (c : ascii) : bool := in_range "a" "z" c.

(** [[0-9A-Fa-f]] *)
Definition is_hex (c : ascii) : bool :=
  is_digit c || in_range "A" "F" c || in_range "a" "f" c.

(** [[^\W_]] *)
Definition is_alnum (c : ascii) : bool := is_digit c || is_upper c || is_lower c.

Definition hex_val (c : ascii) : N :=
  let n := N_of_ascii c in
  if is_digit c then (n - 48)%N
  else if in_range "A" "F" c then (n - 55)%N
  else if in_range "a" "f" c then (n - 87)%N
  else 0%N.

Fixpoint index_of (c : ascii) (l : list ascii) : option nat :=
  match l with
  | [] => None
  | x :: r => if Ascii.eqb x c then Some O else option_map S (index_of c r)
  end.

Definition upper_char (c : ascii) : ascii :=
  if is_lower c then ascii_of_N (N_of_ascii c - 32) else c.

(** Crockford decoding: case-insensitive, with I, L read as 1, O as 0 and
    U as V. *)
Definition crockford_val (c : ascii) : N :=
  let u := upper_char c in
  if Ascii.eqb u "I" || Ascii.eqb u "L" then 1%N
  else if Ascii.eqb u "O" then 0%N
  else if Ascii.eqb u "U" then 27%N
  else match index_of u CROCKFORD with
       | Some i => N.of_nat i
       | None => 0%N
       end.

(** consume exactly [k] characters satisfying [p] *)
Fixpoint take_class (p : ascii -> bool) (k : nat) (cs : list ascii)
  : option (list ascii) :=
  match k with
  | O => Some cs
  | S k' =>
      match cs with
      | c :: r => if p c then take_class p k' r else None
      | [] => None
      end
  end.

(** [c?]: one [c] is consumed when there is one; what follows in the
    patterns below never begins with [c], so that the choice is forced *)
Definition opt (c : ascii) (cs : list ascii) : option (list ascii) :=
  match cs with
  | x :: r => if Ascii.eqb x c then Some r else Some cs
  | [] => Some cs
  end.

(** a regular expression [^ step1 step2 ... $] without alternatives: each
    step consumes a prefix of what is left *)
Definition matches (steps : list (list ascii -> option (list ascii)))
  (s : string) : bool :=
  match fold_left (fun acc step => match acc with
                                   | Some r => step r
                                   | None => None
                                   end)
          steps (Some (list_ascii_of_string s)) with
  | Some [] => true
  | _ => false
  end.

Module Ulid.

(** [/^[0-7][^\W_]{25}$/] *)
Definition isCanonical (s : string) : bool :=
  matches [take_class (in_range "0" "7") 1; take_class is_alnum 25] s.

(** [fromCanonicalTrusted(s).bytes] *)
Definition fromCanonicalTrusted (s : string) : N :=
  of_digits 32 (map crockford_val (list_ascii_of_string s)).

(** [construct(bytes).toCanonical()] *)
Definition toCanonical (bytes : N) : string :=
  string_of_list_ascii (map (digit_char CROCKFORD) (to_digits 32 26 bytes)).

(** [generate({time}).bytes], given the 80 random bits drawn; [None] when
    [InvalidEpoch] is thrown *)
Definition generate (time : Date) (random : N) : option N :=
  match time with
  | At ms =>
      if ((0 <=? ms) && (ms <? MAX_MS))%Z
      then Some (Z.to_N ms * 2 ^ 80 + random mod 2 ^ 80)%N
      else None
  | InvalidDate => Some (random mod 2 ^ 80)%N
  end.

(** the timestamp an identifier carries *)
Definition time_of (bytes : N) : Z := Z.of_N (bytes / 2 ^ 80).

End Ulid.

(** the 32 hexadecimal digits of an identifier *)
Definition hex_digits (bytes : N) : list ascii :=
  map (digit_char HEX) (to_digits 16 32 bytes).

Module Uuid.

(** [/^[0-9A-Fa-f]{4}(?:-?[0-9A-Fa-f]{4}){7}$/] *)
Definition isCanonical (s : string) : bool :=
  matches [take_class is_hex 4;
           opt "-"; take_class is_hex 4; opt "-"; take_class is_hex 4;
           opt "-"; take_class is_hex 4; opt "-"; take_class is_hex 4;
           opt "-"; take_class is_hex 4; opt "-"; take_class is_hex 4;
           opt "-"; take_class is_hex 4] s.

(** [/^[0-9A-Fa-f]{32}$/] *)
Definition isRaw (s : string) : bool :=
  matches [take_class is_hex 32] s.

Definition not_dash (c : ascii) : bool := negb (Ascii.eqb c "-").

Definition fromCanonicalTrusted (s : string) : N :=
  of_digits 16 (map hex_val (filter (fun c => not_dash c = true)
                               (list_ascii_of_string s))).

(** [fromRaw(s).bytes]: throws [InvalidEncoding] on anything but 32 hex
    digits *)
Definition fromRaw (s : string) : option N :=
  if isRaw s then Some (of_digits 16 (map hex_val (list_ascii_of_string s)))
  else None.

Definition toCanonical (bytes : N) : string :=
  let ds := hex_digits bytes in
  string_of_list_ascii
    (take 8 ds ++ "-"%char :: take 4 (drop 8 ds)
       ++ "-"%char :: take 4 (drop 12 ds)
       ++ "-"%char :: take 4 (drop 16 ds)
       ++ "-"%char :: drop 20 ds).

Definition toRaw (bytes : N) : string :=
  string_of_list_ascii (hex_digits bytes).

End Uuid.

End Id128.

(** ** [parseUuidOrUlid]: lines 45-59 *)

(** the 16 bytes the input denotes; [None] when [Uuid.fromRaw] throws *)
Definition parseBytes (input : string) : option N :=
  if Id128.Ulid.isCanonical input then
    Some (Id128.Ulid.fromCanonicalTrusted input)
  else if Id128.Uuid.isCanonical input then
    Some (Id128.Uuid.fromCanonicalTrusted input)
  else Id128.Uuid.fromRaw input.

Definition parseUuidOrUlid (input : string) : option (string * string) :=
  bytes ← parseBytes input;
  Some (Id128.Uuid.toCanonical bytes, Id128.Ulid.toCanonical bytes).

(** ** Rows of the source store (Synapse) and of the target store (MAS)

    A column that may be [NULL] is an [option]; the 0/1 flags and the
    timestamps are integers. *)

Record SUser := {
  su_name : string;
  su_password_hash : option string;
  su_admin : Z;
  su_is_guest : Z;
  su_deactivated : Z;
  su_creation_ts : Z;
  su_appservice_id : option string }.

Record SUserThreePid := {
  tp_user_id : string;
  tp_medium : string;
  tp_address : string;
  tp_validated_at : option Z;
  tp_added_at : Z }.

Record SUserExternalId := {
  ex_auth_provider : string;
  ex_external_id : string;
  ex_user_id : string }.

Record SAccessToken := {
  at_id : Z;
  at_user_id : string;
  at_device_id : option string;
  at_token : string;
  at_last_validated : option Z;
  at_refresh_token_id : option Z }.

Record SRefreshToken := {
  rt_id : Z;
  rt_user_id : string;
  rt_token : string }.

Record SynapseDb := {
  syn_users : list SUser;
  syn_user_threepids : list SUserThreePid;
  syn_user_external_ids : list SUserExternalId;
  syn_access_tokens : list SAccessToken;
  syn_refresh_tokens : list SRefreshToken }.

Record MUser := {
  mu_user_id : string;
  mu_username : string;
  mu_created_at : Date;
  mu_locked_at : option Date;
  mu_can_request_admin : bool }.

Record MUserPassword := {
  mp_user_password_id : string;
  mp_user_id : string;
  mp_hashed_password : string;
  mp_created_at : Date;
  mp_version : Z }.

Record MUserEmail := {
  me_user_email_id : string;
  me_user_id : string;
  me_email : string;
  me_created_at : Date;
  me_confirmed_at : option Date }.

Record MUpstreamOauthLink := {
  ml_upstream_oauth_link_id : string;
  ml_user_id : string;
  ml_upstream_oauth_provider_id : string;
  ml_subject : string;
  ml_created_at : Date }.

Record MCompatSession := {
  ms_compat_session_id : string;
  ms_user_id : string;
  ms_device_id : option string;
  ms_created_at : Date;
  ms_is_synapse_admin : bool }.

Record MCompatAccessToken := {
  ma_compat_access_token_id : string;
  ma_compat_session_id : string;
  ma_access_token : string;
  ma_created_at : Date }.

Record MCompatRefreshToken := {
  mr_compat_refresh_token_id : string;
  mr_compat_session_id : string;
  mr_compat_access_token_id : string;
  mr_refresh_token : string;
  mr_created_at : Date }.

Record MUpstreamOauthProvider := {
  mo_upstream_oauth_provider_id : string;
  mo_issuer : string }.

(** a row together with the table it goes [.into(...)] *)
Inductive MRow :=
| RUser (r : MUser)
| RUserPassword (r : MUserPassword)
| RUserEmail (r : MUserEmail)
| RUpstreamOauthLink (r : MUpstreamOauthLink)
| RCompatSession (r : MCompatSession)
| RCompatAccessToken (r : MCompatAccessToken)
| RCompatRefreshToken (r : MCompatRefreshToken).

Definition table_of (r : MRow) : string :=
  match r with
  | RUser _ => "users"
  | RUserPassword _ => "user_passwords"
  | RUserEmail _ => "user_emails"
  | RUpstreamOauthLink _ => "upstream_oauth_links"
  | RCompatSession _ => "compat_sessions"
  | RCompatAccessToken _ => "compat_access_tokens"
  | RCompatRefreshToken _ => "compat_refresh_tokens"
  end.

Definition is_user_row (r : MRow) : bool :=
  match r with RUser _ => true | _ => false end.


(** JavaScript truthiness of the nullable columns the tool tests *)
Definition truthy_string (x : option string) : option string :=
  match x with
  | Some EmptyString => None
  | _ => x
  end.

Definition truthy_num (x : option Z) : option Z :=
  match x with
  | Some 0%Z => None
  | _ => x
  end.

(** ** [JSON.stringify], [Date.prototype.toISOString] and the redacting
       [String.prototype.replace] *)

Module Json.

#[warnings="-register-all"] Inductive value :=
| Null
| Bool (b : bool)
| Num (z : Z)
| Str (s : string)
| Arr (items : list value)
| Obj (fields : list (string * value)).

(** the double quote, the backslash *)
Definition dquote : ascii := Ascii false true false false false true false false.
Definition backslash : ascii := Ascii false false true true true false true false.

Definition hex_lower (d : N) : ascii :=
  nth (N.to_nat d) (list_ascii_of_string "0123456789abcdef") "0"%char.

(** QuoteJSONString, one code unit *)
Definition escape_char (c : ascii) : string :=
  let n := N_of_ascii c in
  if Ascii.eqb c dquote then String backslash (String dquote "")
  else if Ascii.eqb c backslash then String backslash (String backslash "")
  else if (n =? 8)%N then String backslash "b"
  else if (n =? 9)%N then String backslash "t"
  else if (n =? 10)%N then String backslash "n"
  else if (n =? 12)%N then String backslash "f"
  else if (n =? 13)%N then String backslash "r"
  else if (n <? 32)%N then
    String backslash
      ("u00" +:+ String (hex_lower (n / 16)) (String (hex_lower (n mod 16)) ""))
  else String c "".

Fixpoint escape (s : string) : string :=
  match s with
  | EmptyString => EmptyString
  | String c r => escape_char c +:+ escape r
  end.

Definition quoted (s : string) : string :=
  String dquote (escape s +:+ String dquote "").

Fixpoint join (sep : string) (l : list string) : string :=
  match l with
  | [] => EmptyString
  | [x] => x
  | x :: r => x +:+ sep +:+ join sep r
  end.

Definition member (key rendered : string) : string :=
  quoted key +:+ ":" +:+ rendered.

Fixpoint stringify (v : value) : string :=
  match v with
  | Null => "null"
  | Bool b => Js.of_bool b
  | Num z => Js.of_Z z
  | Str s => quoted s
  | Arr items => "[" +:+ join "," (map stringify items) +:+ "]"
  | Obj fields =>
      "{" +:+ join "," (map (fun kv => member (fst kv) (stringify (snd kv))) fields)
          +:+ "}"
  end.

(** zero-padded decimal of a non-negative number *)
Definition pad (width : nat) (z : Z) : string :=
  let s := Js.of_Z z in
  Js.concat (repeat "0" (width - String.length s)) +:+ s.

(** [new Date(ms).toISOString()] *)
Definition toISOString (ms : Z) : string :=
  let days := (ms / 86400000)%Z in
  let rest := (ms mod 86400000)%Z in
  let z := (days + 719468)%Z in
  let era := (z / 146097)%Z in
  let doe := (z - era * 146097)%Z in
  let yoe := ((doe - doe / 1460 + doe / 36524 - doe / 146096) / 365)%Z in
  let doy := (doe - (365 * yoe + yoe / 4 - yoe / 100))%Z in
  let mp := ((5 * doy + 2) / 153)%Z in
  let d := (doy - (153 * mp + 2) / 5 + 1)%Z in
  let m := (if mp <? 10 then mp + 3 else mp - 9)%Z in
  let y := (yoe + era * 400 + (if m <=? 2 then 1 else 0))%Z in
  let year :=
    if ((0 <=? y) && (y <=? 9999))%Z then pad 4 y
    else (if (y <? 0)%Z then "-" else "+") +:+ pad 6 (Z.abs y) in
  year +:+ "-" +:+ pad 2 m +:+ "-" +:+ pad 2 d +:+ "T"
    +:+ pad 2 (rest / 3600000) +:+ ":" +:+ pad 2 (rest / 60000 mod 60) +:+ ":"
    +:+ pad 2 (rest / 1000 mod 60) +:+ "." +:+ pad 3 (rest mod 1000) +:+ "Z".

(** a [Date] member: [toJSON] gives the ISO text, [null] for the invalid
    date *)
Definition date (d : Date) : value :=
  match d with
  | At ms => Str (toISOString ms)
  | InvalidDate => Null
  end.

Definition nullable {A} (f : A -> value) (x : option A) : value :=
  match x with
  | Some a => f a
  | None => Null
  end.

(** *** The replacement of line 177

    The pattern is: a double quote, one of the four names, a double quote,
    a colon, a double quote (this much is group 1), then any run of
    characters other than a double quote, then a double quote.  The
    replacement is group 1 followed by [redacted] and a double quote. *)

Definition SENSITIVE : list string :=
  ["password_hash"; "hashed_password"; "access_token"; "token"].

Fixpoint strip_prefix (p s : string) : option string :=
  match p, s with
  | EmptyString, _ => Some s
  | String a p', String b s' => if Ascii.eqb a b then strip_prefix p' s' else None
  | String _ _, EmptyString => None
  end.

(** the tail of the pattern at the head of [s]: what follows the first
    double quote *)
Fixpoint until_quote (s : string) : option string :=
  match s with
  | EmptyString => None
  | String c r => if Ascii.eqb c dquote then Some r else until_quote r
  end.

(** the text of group 1 for one alternative *)
Definition group1 (name : string) : string :=
  String dquote (name +:+ String dquote (String ":" (String dquote ""))).

(** the regular expression at the head of [s], one alternative: the text
    after replacement *)
Definition match_alt (s name : string) : option string :=
  r ← strip_prefix (group1 name) s;
  rest ← until_quote r;
  Some (group1 name +:+ "redacted" +:+ String dquote rest).

Fixpoint match_here (s : string) (names : list string) : option string :=
  match names with
  | [] => None
  | n :: ns =>
      match match_alt s n with
      | Some out => Some out
      | None => match_here s ns
      end
  end.

(** no [g] flag: the leftmost match only *)
Fixpoint replace_first (s : string) : string :=
  match match_here s SENSITIVE with
  | Some out => out
  | None =>
      match s with
      | EmptyString => EmptyString
      | String c r => String c (replace_first r)
      end
  end.


(** *** Shapes of texts and of values, for the proofs about the replacement *)

(** no double quote in [s] *)
Fixpoint quoteless (s : string) : bool :=
  match s with
  | EmptyString => true
  | String c r => negb (Ascii.eqb c dquote) && quoteless r
  end.

(** neither a double quote nor a backslash nor a control character: such
    a text is its own escaped form *)
Fixpoint plain (s : string) : bool :=
  match s with
  | EmptyString => true
  | String c r =>
      negb (Ascii.eqb c dquote) && negb (Ascii.eqb c backslash)
      && (32 <=? N_of_ascii c)%N && plain r
  end.

(** every double quote of [s] comes right after a backslash; [after_bs]
    tells whether [s] itself comes right after one *)
Fixpoint guarded (after_bs : bool) (s : string) : bool :=
  match s with
  | EmptyString => true
  | String c r =>
      if Ascii.eqb c dquote then after_bs && guarded false r
      else guarded (Ascii.eqb c backslash) r
  end.

(** a name made of characters that are neither a double quote nor a
    backslash *)
Fixpoint wordy (s : string) : bool :=
  match s with
  | EmptyString => true
  | String c r => negb (Ascii.eqb c dquote) && negb (Ascii.eqb c backslash) && wordy r
  end.

(** [tail] does not begin with a colon and a double quote *)
Definition no_value_ahead (tail : string) : bool :=
  match tail with
  | String c (String d _) => negb (Ascii.eqb c ":" && Ascii.eqb d dquote)
  | _ => true
  end.

(** the replacement passes over [a] when the pattern matches nowhere in it *)
Fixpoint skips (a b : string) : Prop :=
  match a with
  | EmptyString => True
  | String c a' => match_here (String c a' +:+ b) SENSITIVE = None /\ skips a' b
  end.

(** [tail] begins with the comma or the brace that follows a member *)
Definition closes (tail : string) : bool :=
  match tail with
  | String c _ => Ascii.eqb c "," || Ascii.eqb c "}"
  | EmptyString => false
  end.

Definition scalar (v : value) : bool :=
  match v with
  | Null | Bool _ | Num _ | Str _ => true
  | Arr _ | Obj _ => false
  end.

Definition is_str (v : value) : bool :=
  match v with Str _ => true | _ => false end.

(** a member that the replacement leaves alone: a plain key, a scalar value
    and, under one of the four names, no text *)
Definition passed (kv : string * value) : bool :=
  plain kv.1 && scalar kv.2
  && negb (bool_decide (kv.1 ∈ SENSITIVE) && is_str kv.2).

Definition members (fields : list (string * value)) : list string :=
  map (fun kv => member kv.1 (stringify kv.2)) fields.

(** what follows a member in the text of an object *)
Definition closing (rest : list string) : string :=
  match rest with
  | [] => "}"
  | _ => "," +:+ join "," rest +:+ "}"
  end.

End Json.

(** [stringifyAndRedact]: lines 174-181 *)
Definition stringifyAndRedact (input : Json.value) : string :=
  Json.replace_first (Json.stringify input).

(** ** The target store behind [knex]

    A statement built from the connection handle ([mas.insert(...)]) runs on a
    pooled connection and is committed on its own; only a statement built from
    a transaction object ([tx.insert(...)]) belongs to that transaction. *)

Module Knex.

Inductive Handle := Pool | Trx.

Record Db := {
  committed : list MRow;
  providers : list MUpstreamOauthProvider;
  pending : option (list MRow) }.

(** the rows a statement issued through [h] sees *)
Definition visible (h : Handle) (db : Db) : list MRow :=
  match h, pending db with
  | Trx, Some p => committed db ++ p
  | _, _ => committed db
  end.

(** [h.insert(row).into(table_of row)]; [None] when the store rejects the
    statement (the oracle [rejects] stands for its constraints) *)
Definition insert (rejects : list MRow -> MRow -> bool) (h : Handle) (row : MRow)
  (db : Db) : option Db :=
  if rejects (visible h db) row then None
  else match h, pending db with
       | Pool, _ =>
           Some {| committed := committed db ++ [row];
                   providers := providers db; pending := pending db |}
       | Trx, Some p =>
           Some {| committed := committed db;
                   providers := providers db; pending := Some (p ++ [row]) |}
       | Trx, None => None
       end.

(** [mas.transaction()] *)
Definition begin (db : Db) : Db :=
  {| committed := committed db; providers := providers db; pending := Some [] |}.

(** [tx.commit()] *)
Definition commit (db : Db) : Db :=
  {| committed := committed db ++ default [] (pending db);
     providers := providers db; pending := None |}.

(** [tx.rollback()] *)
Definition rollback (db : Db) : Db :=
  {| committed := committed db; providers := providers db; pending := None |}.

(** the row count of the table [users] *)
Definition count_users (db : Db) : nat :=
  length (filter (fun r => is_user_row r = true) (committed db)).

(** equality of two values of a [uuid] column *)
Definition uuid_eqb (a b : string) : bool :=
  N.eqb (Id128.Uuid.fromCanonicalTrusted a) (Id128.Uuid.fromCanonicalTrusted b).

(** [.where({ upstream_oauth_provider_id: uuid }).first()] *)
Definition find_provider (uuid : string) (db : Db) : option MUpstreamOauthProvider :=
  List.find (fun p => uuid_eqb (mo_upstream_oauth_provider_id p) uuid) (providers db).

End Knex.

(** ** Effects: the logger, the two stores, [process.exit] and exceptions *)

Inductive Level := FATAL | ERROR | WARN | INFO | DEBUG.

(** the statements issued, in order *)
Inductive Op :=
| SynSelect (table : string)
| MasSelect (table : string)
| MasInsert (h : Knex.Handle) (row : MRow)
| MasBegin
| MasCommit
| MasRollback.

(** what is thrown: the errors of the tool, those of [id128], the rejection
    of an insertion into a table by the target store ([QueryError]) and the
    failure of any other statement [o] on its store ([Unavailable]) *)
Inductive Exn :=
| Error (message : string)
| InvalidEpoch
| InvalidEncoding
| QueryError (table : string)
| Unavailable (o : Op).

Definition op_text (o : Op) : string :=
  match o with
  | SynSelect t | MasSelect t => "select from " +:+ t
  | MasInsert _ row => "insert into " +:+ table_of row
  | MasBegin => "begin"
  | MasCommit => "commit"
  | MasRollback => "rollback"
  end.

(** [`${e}`] *)
Definition exn_text (e : Exn) : string :=
  match e with
  | Error m => "Error: " +:+ m
  | InvalidEpoch => "InvalidEpoch"
  | InvalidEncoding => "InvalidEncoding"
  | QueryError t => "error: insert into " +:+ t
  | Unavailable o => "error: " +:+ op_text o
  end.

Inductive Abort :=
| Exit (code : Z)
| Throw (e : Exn).

Inductive Result (A : Type) :=
| Ok (a : A)
| Stop (x : Abort).

Arguments Ok {A} a.
Arguments Stop {A} x.

Definition is_extraction (o : Op) : bool :=
  match o with SynSelect _ => true | _ => false end.

Definition is_write (o : Op) : bool :=
  match o with MasInsert _ _ => true | _ => false end.

Record State := {
  warnings : list string;
  fatals : nat;
  log : list (Level * string);
  trace : list Op;
  mas : Knex.Db;
  drawn : nat }.

(** the arguments of a run, the source store, and what the run cannot
    decide: [entropy i] is the random number that the [i]-th call of
    [Ulid.generate] draws in this run; [fails issued o] tells whether the
    store fails the statement [o] that is awaited once the statements [issued]
    have been sent; [rejects rows row] tells whether the target store, holding
    [rows], rejects the insertion of [row] *)
Record Env := {
  dryRun : bool;
  upstreamProviderMapping : list string;
  sqlite3 : bool;
  synapse : SynapseDb;
  entropy : nat -> N;
  fails : list Op -> Op -> bool;
  rejects : list MRow -> MRow -> bool;
  rollback_fails : bool }.

Definition M (A : Type) : Type := State -> State * Result A.

#[global] Instance M_ret : MRet M := fun A a st => (st, Ok a).

#[global] Instance M_bind : MBind M := fun A B k m st =>
  match m st with
  | (st', Ok a) => k a st'
  | (st', Stop x) => (st', Stop x)
  end.

Definition throw {A} (e : Exn) : M A := fun st => (st, Stop (Throw e)).

Definition exit {A} (code : Z) : M A := fun st => (st, Stop (Exit code)).

(** [try { body } catch (e) { handler }]: [process.exit] is not caught *)
Definition try_catch {A} (body : M A) (handler : Exn -> M A) : M A := fun st =>
  match body st with
  | (st', Stop (Throw e)) => handler e st'
  | r => r
  end.

(** [for (const x of l) { acc = f(acc, x) }] *)
Fixpoint foldM {A X} (f : A -> X -> M A) (l : list X) (a : A) : M A :=
  match l with
  | [] => mret a
  | x :: r => a' ← f a x; foldM f r a'
  end.

Definition get_state : M State := fun st => (st, Ok st).

Definition emit (level : Level) (message : string) : M unit := fun st =>
  ({| warnings := warnings st; fatals := fatals st;
      log := log st ++ [(level, message)];
      trace := trace st; mas := mas st; drawn := drawn st |}, Ok tt).

Definition issue (o : Op) : M unit := fun st =>
  ({| warnings := warnings st; fatals := fatals st; log := log st;
      trace := trace st ++ [o]; mas := mas st; drawn := drawn st |}, Ok tt).

Definition set_mas (db : Knex.Db) : M unit := fun st =>
  ({| warnings := warnings st; fatals := fatals st; log := log st;
      trace := trace st; mas := db; drawn := drawn st |}, Ok tt).

(** [warn]: lines 100-103 *)
Definition warn (message : string) : M unit := fun st =>
  ({| warnings := warnings st ++ [message]; fatals := fatals st; log := log st;
      trace := trace st; mas := mas st; drawn := drawn st |}, Ok tt).

Definition count_fatal : M unit := fun st =>
  ({| warnings := warnings st; fatals := S (fatals st); log := log st;
      trace := trace st; mas := mas st; drawn := drawn st |}, Ok tt).

Definition draw : M nat := fun st =>
  ({| warnings := warnings st; fatals := fatals st; log := log st;
      trace := trace st; mas := mas st; drawn := S (drawn st) |}, Ok (drawn st)).

(** [for (const w of warnings) log.warn(w)] *)
Definition replay_warnings : M unit :=
  st ← get_state; foldM (fun _ w => emit WARN w) (warnings st) tt.

(** ** The records as [JSON.stringify] sees them: own keys in creation order *)

Definition json_SUser (u : SUser) : Json.value :=
  Json.Obj [("name", Json.Str (su_name u));
            ("password_hash", Json.nullable Json.Str (su_password_hash u));
            ("admin", Json.Num (su_admin u));
            ("is_guest", Json.Num (su_is_guest u));
            ("deactivated", Json.Num (su_deactivated u));
            ("creation_ts", Json.Num (su_creation_ts u));
            ("appservice_id", Json.nullable Json.Str (su_appservice_id u))].

Definition json_SUserThreePid (t : SUserThreePid) : Json.value :=
  Json.Obj [("user_id", Json.Str (tp_user_id t));
            ("medium", Json.Str (tp_medium t));
            ("address", Json.Str (tp_address t));
            ("validated_at", Json.nullable Json.Num (tp_validated_at t));
            ("added_at", Json.Num (tp_added_at t))].

Definition json_SUserExternalId (e : SUserExternalId) : Json.value :=
  Json.Obj [("auth_provider", Json.Str (ex_auth_provider e));
            ("external_id", Json.Str (ex_external_id e));
            ("user_id", Json.Str (ex_user_id e))].

Definition json_SAccessToken (a : SAccessToken) : Json.value :=
  Json.Obj [("id", Json.Num (at_id a));
            ("user_id", Json.Str (at_user_id a));
            ("device_id", Json.nullable Json.Str (at_device_id a));
            ("token", Json.Str (at_token a));
            ("last_validated", Json.nullable Json.Num (at_last_validated a));
            ("refresh_token_id", Json.nullable Json.Num (at_refresh_token_id a))].

Definition json_MUser (m : MUser) : Json.value :=
  Json.Obj [("user_id", Json.Str (mu_user_id m));
            ("username", Json.Str (mu_username m));
            ("created_at", Json.date (mu_created_at m));
            ("locked_at", Json.nullable Json.date (mu_locked_at m));
            ("can_request_admin", Json.Bool (mu_can_request_admin m))].

Definition json_MUserPassword (m : MUserPassword) : Json.value :=
  Json.Obj [("user_password_id", Json.Str (mp_user_password_id m));
            ("user_id", Json.Str (mp_user_id m));
            ("hashed_password", Json.Str (mp_hashed_password m));
            ("created_at", Json.date (mp_created_at m));
            ("version", Json.Num (mp_version m))].

(** [confirmed_at] is an own key only once it has been assigned *)
Definition json_MUserEmail (m : MUserEmail) : Json.value :=
  Json.Obj ([("user_email_id", Json.Str (me_user_email_id m));
             ("user_id", Json.Str (me_user_id m));
             ("email", Json.Str (me_email m));
             ("created_at", Json.date (me_created_at m))]
            ++ match me_confirmed_at m with
               | Some t => [("confirmed_at", Json.date t)]
               | None => []
               end).

Definition json_MUpstreamOauthLink (m : MUpstreamOauthLink) : Json.value :=
  Json.Obj [("upstream_oauth_link_id", Json.Str (ml_upstream_oauth_link_id m));
            ("user_id", Json.Str (ml_user_id m));
            ("upstream_oauth_provider_id", Json.Str (ml_upstream_oauth_provider_id m));
            ("subject", Json.Str (ml_subject m));
            ("created_at", Json.date (ml_created_at m))].

Definition json_MCompatSession (m : MCompatSession) : Json.value :=
  Json.Obj [("compat_session_id", Json.Str (ms_compat_session_id m));
            ("user_id", Json.Str (ms_user_id m));
            ("device_id", Json.nullable Json.Str (ms_device_id m));
            ("created_at", Json.date (ms_created_at m));
            ("is_synapse_admin", Json.Bool (ms_is_synapse_admin m))].

Definition json_MCompatAccessToken (m : MCompatAccessToken) : Json.value :=
  Json.Obj [("compat_access_token_id", Json.Str (ma_compat_access_token_id m));
            ("compat_session_id", Json.Str (ma_compat_session_id m));
            ("access_token", Json.Str (ma_access_token m));
            ("created_at", Json.date (ma_created_at m))].

Definition json_MCompatRefreshToken (m : MCompatRefreshToken) : Json.value :=
  Json.Obj [("compat_refresh_token_id", Json.Str (mr_compat_refresh_token_id m));
            ("compat_session_id", Json.Str (mr_compat_session_id m));
            ("compat_access_token_id", Json.Str (mr_compat_access_token_id m));
            ("refresh_token", Json.Str (mr_refresh_token m));
            ("created_at", Json.date (mr_created_at m))].

(** ** The texts of the messages *)

Definition msg_bad_mapping (mapping : string) : string :=
  "Upstream provider mapping is not in correct format. It should be <upstream_provider_id>:<mas_provider_id>: "
    +:+ mapping.

Definition msg_bad_identifier (masProviderId : string) : string :=
  "Upstream provider mapping is not in correct format. It should be a UUID or a ULID: "
    +:+ masProviderId.

Definition msg_unknown_provider (masProviderUlid : string) : string :=
  "Could not find upstream provider " +:+ masProviderUlid +:+ " in MAS database".

Definition msg_existing_users (count : nat) : string :=
  "Found " +:+ Js.of_nat count
    +:+ " existing users in MAS. Refusing to continue. Please clean MAS and try again.".

Definition msg_guest (name : string) : string :=
  "Migration of guest users is not supported: " +:+ name.

Definition msg_non_email (medium name : string) : string :=
  "Skipping non-email 3pid " +:+ medium +:+ " for user " +:+ name.

Definition msg_no_refresh_token (id : Z) (name : string) : string :=
  "Unable to locate refresh token " +:+ Js.of_Z id +:+ " for user " +:+ name.

Definition msg_user_warnings (name : string) (n : nat) : string :=
  "User " +:+ name +:+ " had " +:+ Js.of_nat n +:+ " warnings".

Definition msg_external_id (e : SUserExternalId) (name : string) (err : Exn) : string :=
  "Failed to import external id " +:+ ex_external_id e +:+ " with "
    +:+ ex_auth_provider e +:+ " for user " +:+ name +:+ ": " +:+ exn_text err.

Definition msg_summary (dry : bool) (users nfatals nwarnings : nat) : string :=
  "Completed migration " +:+ (if dry then "dry-run " else "") +:+ "of "
    +:+ Js.of_nat users +:+ " users with " +:+ Js.of_nat nfatals +:+ " fatals and "
    +:+ Js.of_nat nwarnings +:+ " warnings:".

Definition msg_failed (nfatals : nat) : string :=
  "Migration failed with " +:+ Js.of_nat nfatals +:+ " fatals".

Definition msg_password (hash : string) (m : MUserPassword) : string :=
  "Password " +:+ Js.slice_last 4 hash +:+ " => "
    +:+ stringifyAndRedact (json_MUserPassword m).

Definition arrow (a b : Json.value) : string :=
  stringifyAndRedact a +:+ " => " +:+ stringifyAndRedact b.

(** an insertion closure [() => h.insert(row).into(table)]: the handle it
    captured and the row *)
Definition Execution : Type := Knex.Handle * MRow.

(** ** [migrate()]: lines 61-461

    Reading the two configuration files and connecting to the two stores
    (lines 62-135) is the job of collaborators; the run starts from the parsed
    arguments and the connected stores held by [env] and by the initial
    [State]. *)

Section Migration.

Variable env : Env.

(** [fatal]: lines 105-113 *)
Definition fatal (message : string) : M unit :=
  emit FATAL message;;
  replay_warnings;;
  if negb (dryRun env) then exit 1 else count_fatal.

(** [await] of the answer to the statement [o]: the store may fail it *)
Definition await (o : Op) : M unit :=
  st ← get_state;
  if fails env (trace st) o then throw (Unavailable o) else mret tt.

(** [await] of a statement that is issued there and then *)
Definition query (o : Op) : M unit := issue o;; await o.

(** [makeUuid]: lines 115-119 *)
Definition makeUuid (time : Date) : M string :=
  i ← draw;
  match Id128.Ulid.generate time (entropy env i) with
  | Some bytes => mret (Id128.Uuid.toCanonical bytes)
  | None => throw InvalidEpoch
  end.

(** one turn of the loop over [args.upstreamProviderMapping]: lines 139-172 *)
Definition loadProvider (upstreamProviders : gmap string MUpstreamOauthProvider)
  (mapping : string) : M (gmap string MUpstreamOauthProvider) :=
  let parts := Js.split ":" mapping in
  match truthy_string (Js.index parts 0), truthy_string (Js.index parts 1) with
  | Some providerId, Some masProviderId =>
      if negb (Id128.Uuid.isRaw masProviderId)
         && negb (Id128.Uuid.isCanonical masProviderId)
         && negb (Id128.Ulid.isCanonical masProviderId)
      then throw (Error (msg_bad_identifier masProviderId))
      else
        match parseUuidOrUlid masProviderId with
        | None => throw InvalidEncoding
        | Some (masProviderUuid, masProviderUlid) =>
            emit INFO ("Loading existing upstream provider " +:+ masProviderUlid
                         +:+ " from MAS database as " +:+ providerId);;
            query (MasSelect "upstream_oauth_providers");;
            st ← get_state;
            match Knex.find_provider masProviderUuid (mas st) with
            | None => throw (Error (msg_unknown_provider masProviderUlid))
            | Some existingProvider =>
                mret (<[providerId := existingProvider]> upstreamProviders)
            end
        end
  | _, _ => throw (Error (msg_bad_mapping mapping))
  end.

(** one turn of the loop over the three-pids: lines 243-273 *)
Definition importThreePid (user : SUser) (masUser : MUser)
  (acc : nat * list Execution) (threePid : SUserThreePid)
  : M (nat * list Execution) :=
  let '(warningsForUser, executions) := acc in
  if negb (String.eqb (tp_medium threePid) "email") then
    warn (msg_non_email (tp_medium threePid) (su_name user));;
    mret (S warningsForUser, executions)
  else
    let threePidCreatedAt := new_Date (tp_added_at threePid) in
    user_email_id ← makeUuid threePidCreatedAt;
    let masUserEmail :=
      {| me_user_email_id := user_email_id;
         me_user_id := mu_user_id masUser;
         me_email := Js.toLowerCase (tp_address threePid);
         me_created_at := threePidCreatedAt;
         me_confirmed_at := option_map new_Date (truthy_num (tp_validated_at threePid)) |} in
    emit DEBUG (arrow (json_SUserThreePid threePid) (json_MUserEmail masUserEmail));;
    mret (warningsForUser, executions ++ [(Knex.Pool, RUserEmail masUserEmail)]).

(** one turn of the loop over the external ids: lines 280-310 *)
Definition importExternalId (upstreamProviders : gmap string MUpstreamOauthProvider)
  (user : SUser) (masUser : MUser) (userCreatedAt : Date)
  (synapseExternalIds : list SUserExternalId)
  (executions : list Execution) (externalId : SUserExternalId)
  : M (list Execution) :=
  try_catch
    (match upstreamProviders !! ex_auth_provider externalId with
     | None =>
         throw (Error ("Unknown upstream provider " +:+ ex_auth_provider externalId))
     | Some provider =>
         upstream_oauth_link_id ← makeUuid userCreatedAt;
         let masUpstreamOauthLink :=
           {| ml_upstream_oauth_link_id := upstream_oauth_link_id;
              ml_user_id := mu_user_id masUser;
              ml_upstream_oauth_provider_id := mo_upstream_oauth_provider_id provider;
              ml_subject := ex_external_id externalId;
              ml_created_at := mu_created_at masUser |} in
         emit DEBUG (arrow (Json.Arr (map json_SUserExternalId synapseExternalIds))
                       (json_MUpstreamOauthLink masUpstreamOauthLink));;
         mret (executions ++ [(Knex.Pool, RUpstreamOauthLink masUpstreamOauthLink)])
     end)
    (fun e =>
       fatal (msg_external_id externalId (su_name user) e);;
       mret executions).

(** one turn of the loop over the access tokens: lines 326-391 *)
Definition importAccessToken (user : SUser) (masUser : MUser)
  (acc : nat * list Execution) (accessToken : SAccessToken)
  : M (nat * list Execution) :=
  let '(warningsForUser, executions) := acc in
  let tokenCreatedAt :=
    match truthy_num (at_last_validated accessToken) with
    | Some t => new_Date t
    | None => mu_created_at masUser
    end in
  compat_session_id ← makeUuid tokenCreatedAt;
  let masCompatSession :=
    {| ms_compat_session_id := compat_session_id;
       ms_user_id := mu_user_id masUser;
       ms_device_id := at_device_id accessToken;
       ms_created_at := tokenCreatedAt;
       ms_is_synapse_admin := Z.eqb (su_admin user) 1 |} in
  emit DEBUG (arrow (json_SAccessToken accessToken) (json_MCompatSession masCompatSession));;
  let executions := executions ++ [(Knex.Pool, RCompatSession masCompatSession)] in
  compat_access_token_id ← makeUuid tokenCreatedAt;
  let masCompatAccessToken :=
    {| ma_compat_access_token_id := compat_access_token_id;
       ma_compat_session_id := compat_session_id;
       ma_access_token := at_token accessToken;
       ma_created_at := tokenCreatedAt |} in
  emit DEBUG ("Access token " +:+ Js.of_Z (at_id accessToken) +:+ " => "
                +:+ stringifyAndRedact (json_MCompatAccessToken masCompatAccessToken));;
  let executions := executions ++ [(Knex.Pool, RCompatAccessToken masCompatAccessToken)] in
  match truthy_num (at_refresh_token_id accessToken) with
  | None => mret (warningsForUser, executions)
  | Some refresh_token_id =>
      query (SynSelect "refresh_tokens");;
      match List.find (fun r => Z.eqb (rt_id r) refresh_token_id)
              (syn_refresh_tokens (synapse env)) with
      | Some synapseRefreshToken =>
          compat_refresh_token_id ← makeUuid tokenCreatedAt;
          let masCompatRefreshToken :=
            {| mr_compat_refresh_token_id := compat_refresh_token_id;
               mr_compat_session_id := compat_session_id;
               mr_compat_access_token_id := compat_access_token_id;
               mr_refresh_token := rt_token synapseRefreshToken;
               mr_created_at := tokenCreatedAt |} in
          emit DEBUG ("Refresh token " +:+ Js.of_Z (rt_id synapseRefreshToken) +:+ " => "
                        +:+ stringifyAndRedact (json_MCompatRefreshToken masCompatRefreshToken));;
          mret (warningsForUser,
                executions ++ [(Knex.Pool, RCompatRefreshToken masCompatRefreshToken)])
      | None =>
          warn (msg_no_refresh_token refresh_token_id (su_name user));;
          mret (S warningsForUser, executions)
      end
  end.

(** the user name before the first colon, without its first code unit:
    line 197 *)
Definition localpart (name : string) : string :=
  Js.substring 1 (default EmptyString (Js.index (Js.split ":" name) 0)).

(** [migrateUser], lines 197-392: the rows derived for one user, as the pair
    of the locals [warningsForUser] and [executions] *)
Definition deriveUser (upstreamProviders : gmap string MUpstreamOauthProvider)
  (user : SUser) : M (nat * list Execution) :=
  emit INFO ("Processing user " +:+ su_name user +:+ " as " +:+ localpart (su_name user));;
  (if Z.eqb (su_is_guest user) 1 then fatal (msg_guest (su_name user)) else mret tt);;
  let userCreatedAt := new_Date (su_creation_ts user * 1000) in
  user_id ← makeUuid userCreatedAt;
  let masUser :=
    {| mu_user_id := user_id;
       mu_username := localpart (su_name user);
       mu_created_at := userCreatedAt;
       mu_locked_at := if Z.eqb (su_deactivated user) 1 then Some userCreatedAt else None;
       mu_can_request_admin := Z.eqb (su_admin user) 1 |} in
  let executions := [(Knex.Pool, RUser masUser)] in
  emit DEBUG (arrow (json_SUser user) (json_MUser masUser));;
  executions ←
    match truthy_string (su_password_hash user) with
    | Some password_hash =>
        user_password_id ← makeUuid userCreatedAt;
        let masUserPassword :=
          {| mp_user_password_id := user_password_id;
             mp_user_id := user_id;
             mp_hashed_password := password_hash;
             mp_created_at := userCreatedAt;
             mp_version := 1 |} in
        emit DEBUG (msg_password password_hash masUserPassword);;
        mret (executions ++ [(Knex.Pool, RUserPassword masUserPassword)])
    | None => mret executions
    end;
  query (SynSelect "user_threepids");;
  let synapseThreePids :=
    filter (fun t => tp_user_id t = su_name user) (syn_user_threepids (synapse env)) in
  acc ← foldM (importThreePid user masUser) synapseThreePids (O, executions);
  query (SynSelect "user_external_ids");;
  let synapseExternalIds :=
    filter (fun e => ex_user_id e = su_name user) (syn_user_external_ids (synapse env)) in
  executions ← foldM (importExternalId upstreamProviders user masUser userCreatedAt
                        synapseExternalIds) synapseExternalIds acc.2;
  if Z.eqb (su_deactivated user) 1 then
    emit INFO ("Skipping access tokens import for deactivated user " +:+ su_name user);;
    mret (acc.1, executions)
  else
    query (SynSelect "access_tokens");;
    let synapseAccessTokens :=
      filter (fun a => at_user_id a = su_name user ∧ is_Some (at_device_id a))
        (syn_access_tokens (synapse env)) in
    foldM (importAccessToken user masUser) synapseAccessTokens (acc.1, executions).

(** [await execution()] *)
Definition run_execution (e : Execution) : M unit :=
  issue (MasInsert e.1 e.2);;
  st ← get_state;
  match Knex.insert (rejects env) e.1 e.2 (mas st) with
  | Some db => set_mas db
  | None => throw (QueryError (table_of e.2))
  end.

(** [await mas.transaction()] *)
Definition transaction : M unit :=
  query MasBegin;; st ← get_state; set_mas (Knex.begin (mas st)).

(** [await tx.commit()] *)
Definition commit : M unit :=
  query MasCommit;; st ← get_state; set_mas (Knex.commit (mas st)).

(** [await tx.rollback()] *)
Definition rollback : M unit :=
  issue MasRollback;;
  if rollback_fails env then throw (Unavailable MasRollback)
  else st ← get_state; set_mas (Knex.rollback (mas st)).

(** [migrateUser], lines 394-417: what becomes of the derived rows *)
Definition commitUser (user : SUser) (warningsForUser : nat)
  (executions : list Execution) : M unit :=
  if (0 <? warningsForUser)%nat then
    if negb (dryRun env) then fatal (msg_user_warnings (su_name user) warningsForUser)
    else emit WARN (msg_user_warnings (su_name user) warningsForUser)
  else if negb (dryRun env) then
    emit INFO ("Running " +:+ Js.of_nat (length executions) +:+ " updates for user "
                 +:+ su_name user);;
    transaction;;
    try_catch
      (foldM (fun _ execution => run_execution execution) executions tt;;
       commit;;
       emit INFO ("Migrated user " +:+ su_name user))
      (fun e =>
         try_catch rollback
           (fun e2 => emit ERROR ("Failed to rollback transaction: " +:+ exn_text e2));;
         throw e)
  else mret tt.

(** [migrateUser]: lines 196-418 *)
Definition migrateUser (upstreamProviders : gmap string MUpstreamOauthProvider)
  (user : SUser) : M unit :=
  acc ← deriveUser upstreamProviders user;
  commitUser user acc.1 acc.2.

(** the loop over the users, lines 441-444 and 448-451; [next] stands for
    what is awaited before each turn and before the loop is left: nothing for
    the rows of an array, the stream for the rows of a stream *)
Definition migrateUsers (next : M unit)
  (upstreamProviders : gmap string MUpstreamOauthProvider)
  (rows : list SUser) : M nat :=
  synapseUsers ←
    foldM (fun synapseUsers user =>
             next;; migrateUser upstreamProviders user;; mret (S synapseUsers)) rows O;
  next;;
  mret synapseUsers.

(** lines 437-452: the rows of the users come as an array from an SQLite
    store, which is awaited once, and as a stream from any other store *)
Definition processUsers (upstreamProviders : gmap string MUpstreamOauthProvider)
  (synapseUserRows : list SUser) : M nat :=
  if sqlite3 env then
    query (SynSelect "users");;
    migrateUsers (mret tt) upstreamProviders synapseUserRows
  else
    issue (SynSelect "users");;
    migrateUsers (await (SynSelect "users")) upstreamProviders synapseUserRows.

(** lines 454-460 *)
Definition summary (synapseUsers : nat) : M unit :=
  st ← get_state;
  emit INFO (msg_summary (dryRun env) synapseUsers (fatals st) (length (warnings st)));;
  replay_warnings;;
  if (0 <? fatals st)%nat then throw (Error (msg_failed (fatals st))) else mret tt.

(** lines 137-460 *)
Definition migrate : M unit :=
  upstreamProviders ← foldM loadProvider (upstreamProviderMapping env) ∅;
  query (MasSelect "users");;
  st ← get_state;
  let count := Knex.count_users (mas st) in
  (if (0 <? count)%nat then fatal (msg_existing_users count) else mret tt);;
  let synapseUserRows :=
    filter (fun u => su_appservice_id u = None) (syn_users (synapse env)) in
  synapseUsers ← processUsers upstreamProviders synapseUserRows;
  summary synapseUsers.

End Migration.

(** the state the run starts from: nothing logged, nothing issued, no open
    transaction *)
Definition initial (rows : list MRow) (providers : list MUpstreamOauthProvider) : State :=
  {| warnings := []; fatals := O; log := []; trace := [];
     mas := {| Knex.committed := rows; Knex.providers := providers; Knex.pending := None |};
     drawn := O |}.

(** ** Postconditions of a run

    [wp m Q E st]: started in [st], [m] either returns [a] in a state with
    [Q a] or stops with [x] in a state with [E x]. *)

Definition wp {A} (m : M A) (Q : A -> State -> Prop) (E : Abort -> State -> Prop)
  (st : State) : Prop :=
  match m st with
  | (st', Ok a) => Q a st'
  | (st', Stop x) => E x st'
  end.

(** [m] keeps the state property [R], however it ends *)
Definition keeps {A} (R : State -> Prop) (m : M A) : Prop :=
  forall st, R st -> R (m st).1.

(** the statements of the kind [p] issued so far *)
Definition issued (p : Op -> bool) (st : State) : list Op :=
  filter (fun o => p o = true) (trace st).

(** since [st0] the target store has not changed and no statement of the
    kind [p] has been issued *)
Definition quiet (p : Op -> bool) (st0 st : State) : Prop :=
  mas st = mas st0 /\ issued p st = issued p st0.

Definition is_write_or_extraction (o : Op) : bool := is_write o || is_extraction o.

(** [st] after the logger has written [entries] *)
Definition logged (st : State) (entries : list (Level * string)) : State :=
  {| warnings := warnings st; fatals := fatals st; log := log st ++ entries;
     trace := trace st; mas := mas st; drawn := drawn st |}.

(** the lines that replay the warnings *)
Definition replay (ws : list string) : list (Level * string) := map (pair WARN) ws.

(** ** The rows a user gives rise to *)

(** [id] is what [makeUuid time] returns for some draw of the random bits *)
Definition seeded (time : Date) (id : string) : Prop :=
  exists random bytes,
    Id128.Ulid.generate time random = Some bytes /\ id = Id128.Uuid.toCanonical bytes.

Definition userCreatedAt (user : SUser) : Date := new_Date (su_creation_ts user * 1000).

Definition user_row (user : SUser) (user_id : string) : MUser :=
  {| mu_user_id := user_id;
     mu_username := localpart (su_name user);
     mu_created_at := userCreatedAt user;
     mu_locked_at := if Z.eqb (su_deactivated user) 1 then Some (userCreatedAt user) else None;
     mu_can_request_admin := Z.eqb (su_admin user) 1 |}.

Definition password_rows (user : SUser) (user_id : string) (rows : list Execution) : Prop :=
  match truthy_string (su_password_hash user) with
  | Some password_hash =>
      exists id, seeded (userCreatedAt user) id
        /\ rows = [(Knex.Pool,
                    RUserPassword {| mp_user_password_id := id; mp_user_id := user_id;
                                     mp_hashed_password := password_hash;
                                     mp_created_at := userCreatedAt user;
                                     mp_version := 1 |})]
  | None => rows = []
  end.

Definition email_row (user_id : string) (t : SUserThreePid) (e : Execution) : Prop :=
  exists id, seeded (new_Date (tp_added_at t)) id
    /\ e = (Knex.Pool,
            RUserEmail {| me_user_email_id := id; me_user_id := user_id;
                          me_email := Js.toLowerCase (tp_address t);
                          me_created_at := new_Date (tp_added_at t);
                          me_confirmed_at :=
                            option_map new_Date (truthy_num (tp_validated_at t)) |}).

Definition link_row (up : gmap string MUpstreamOauthProvider) (user : SUser)
  (user_id : string) (x : SUserExternalId) (e : Execution) : Prop :=
  exists id provider, up !! ex_auth_provider x = Some provider
    /\ seeded (userCreatedAt user) id
    /\ e = (Knex.Pool,
            RUpstreamOauthLink
              {| ml_upstream_oauth_link_id := id; ml_user_id := user_id;
                 ml_upstream_oauth_provider_id := mo_upstream_oauth_provider_id provider;
                 ml_subject := ex_external_id x;
                 ml_created_at := userCreatedAt user |}).

Definition tokenCreatedAt (user : SUser) (a : SAccessToken) : Date :=
  match truthy_num (at_last_validated a) with
  | Some t => new_Date t
  | None => userCreatedAt user
  end.

(** the refresh token an access token points to, when it can be found *)
Definition refresh_of (src : SynapseDb) (a : SAccessToken) : option SRefreshToken :=
  id ← truthy_num (at_refresh_token_id a);
  List.find (fun r => Z.eqb (rt_id r) id) (syn_refresh_tokens src).

(** the access token points to a refresh token that cannot be found *)
Definition refresh_missing (src : SynapseDb) (a : SAccessToken) : bool :=
  match truthy_num (at_refresh_token_id a) with
  | Some id =>
      match List.find (fun r => Z.eqb (rt_id r) id) (syn_refresh_tokens src) with
      | Some _ => false
      | None => true
      end
  | None => false
  end.

Definition token_rows (src : SynapseDb) (user : SUser) (user_id : string)
  (a : SAccessToken) (rows : list Execution) : Prop :=
  exists sid aid, seeded (tokenCreatedAt user a) sid /\ seeded (tokenCreatedAt user a) aid
    /\ exists tail,
        rows = (Knex.Pool,
                RCompatSession {| ms_compat_session_id := sid; ms_user_id := user_id;
                                  ms_device_id := at_device_id a;
                                  ms_created_at := tokenCreatedAt user a;
                                  ms_is_synapse_admin := Z.eqb (su_admin user) 1 |})
               :: (Knex.Pool,
                   RCompatAccessToken {| ma_compat_access_token_id := aid;
                                         ma_compat_session_id := sid;
                                         ma_access_token := at_token a;
                                         ma_created_at := tokenCreatedAt user a |})
               :: tail
        /\ match refresh_of src a with
           | Some rt =>
               exists rid, seeded (tokenCreatedAt user a) rid
                 /\ tail = [(Knex.Pool,
                             RCompatRefreshToken
                               {| mr_compat_refresh_token_id := rid;
                                  mr_compat_session_id := sid;
                                  mr_compat_access_token_id := aid;
                                  mr_refresh_token := rt_token rt;
                                  mr_created_at := tokenCreatedAt user a |})]
           | None => tail = []
           end.

(** the source rows of a user, as the queries of lines 239-242, 276-279 and
    319-325 return them *)
Definition threepids_of (src : SynapseDb) (user : SUser) : list SUserThreePid :=
  filter (fun t => tp_user_id t = su_name user) (syn_user_threepids src).

Definition external_ids_of (src : SynapseDb) (user : SUser) : list SUserExternalId :=
  filter (fun e => ex_user_id e = su_name user) (syn_user_external_ids src).

Definition access_tokens_of (src : SynapseDb) (user : SUser) : list SAccessToken :=
  filter (fun a => at_user_id a = su_name user ∧ is_Some (at_device_id a))
    (syn_access_tokens src).

Definition is_email (t : SUserThreePid) : bool := String.eqb (tp_medium t) "email".

Definition emails_of (src : SynapseDb) (user : SUser) : list SUserThreePid :=
  filter (fun t => is_email t = true) (threepids_of src user).

Definition non_emails_of (src : SynapseDb) (user : SUser) : list SUserThreePid :=
  filter (fun t => is_email t = false) (threepids_of src user).

Definition resolved_of (up : gmap string MUpstreamOauthProvider) (src : SynapseDb)
  (user : SUser) : list SUserExternalId :=
  filter (fun x => is_Some (up !! ex_auth_provider x)) (external_ids_of src user).

(** the access tokens that are imported: none for a deactivated user *)
Definition imported_tokens (src : SynapseDb) (user : SUser) : list SAccessToken :=
  if Z.eqb (su_deactivated user) 1 then [] else access_tokens_of src user.

Definition orphans_of (src : SynapseDb) (user : SUser) : list SAccessToken :=
  filter (fun a => refresh_missing src a = true) (imported_tokens src user).

(** the warnings a user gives rise to, in order *)
Definition warnings_of (src : SynapseDb) (user : SUser) : list string :=
  map (fun t => msg_non_email (tp_medium t) (su_name user)) (non_emails_of src user)
  ++ map (fun a => msg_no_refresh_token (default 0%Z (at_refresh_token_id a)) (su_name user))
       (orphans_of src user).

(** the rows derived for a user are: the user row, the password row, one row
    for each e-mail three-pid, one for each external id with a mapped
    provider, and the rows of each imported access token *)
Definition derived (env : Env) (up : gmap string MUpstreamOauthProvider) (user : SUser)
  (executions : list Execution) : Prop :=
  exists user_id pw emails links groups,
    seeded (userCreatedAt user) user_id
    /\ executions = (Knex.Pool, RUser (user_row user user_id))
                     :: pw ++ emails ++ links ++ concat groups
    /\ password_rows user user_id pw
    /\ Forall2 (email_row user_id) (emails_of (synapse env) user) emails
    /\ Forall2 (link_row up user user_id) (resolved_of up (synapse env) user) links
    /\ Forall2 (token_rows (synapse env) user user_id)
         (imported_tokens (synapse env) user) groups.

(** the time an identifier in UUID text was seeded with *)
Definition seed_of (id : string) : Z :=
  Id128.Ulid.time_of (Id128.Uuid.fromCanonicalTrusted id).

(** the time that an identifier generated at a date carries: the time value
    of the date, and zero for the invalid date *)
Definition seed_time (time : Date) : Z :=
  match time with
  | At ms => ms
  | InvalidDate => 0%Z
  end.

(** the log ends with the replay of every warning accumulated *)
Definition replayed (st : State) : Prop :=
  exists before, log st = before ++ replay (warnings st).

(** a run may stop on a timestamp that the identifier library refuses or
    on a query that the source store fails; any other end of a run comes with
    the replay *)
Definition replay_at_end (x : Abort) (s : State) : Prop :=
  match x with
  | Throw InvalidEpoch | Throw (Unavailable (SynSelect _)) => True
  | _ => replayed s
  end.

(** the replay as stated: however the run ends, its log ends with the replay
    of every warning accumulated *)
Definition replay_as_stated (env : Env) (rows : list MRow)
  (providers : list MUpstreamOauthProvider) : Prop :=
  replayed (migrate env (initial rows providers)).1.

(** ** A small source store, used to run the tool on concrete inputs *)

Module Fixture.

Definition alice : SUser :=
  {| su_name := "@alice:example.org";
     su_password_hash := Some "$2b$12$abcdefghijklmnopqrstuv";
     su_admin := 0; su_is_guest := 0; su_deactivated := 0;
     su_creation_ts := 1700000000; su_appservice_id := None |}.

Definition alice_email : SUserThreePid :=
  {| tp_user_id := "@alice:example.org"; tp_medium := "email";
     tp_address := "alice@Example.ORG";
     tp_validated_at := Some 1700000001000%Z; tp_added_at := 1700000000500 |}.

Definition alice_token : SAccessToken :=
  {| at_id := 7; at_user_id := "@alice:example.org"; at_device_id := Some "DEVICE1";
     at_token := "syt_YWxpY2U_secret"; at_last_validated := None;
     at_refresh_token_id := None |}.

Definition source : SynapseDb :=
  {| syn_users := [alice];
     syn_user_threepids := [alice_email];
     syn_user_external_ids := [];
     syn_access_tokens := [alice_token];
     syn_refresh_tokens := [] |}.

Definition run (dry : bool) (src : SynapseDb) (mappings : list string)
  (rejects : list MRow -> MRow -> bool) : Env :=
  {| dryRun := dry; upstreamProviderMapping := mappings; sqlite3 := false;
     synapse := src; entropy := fun i => N.of_nat (1000 + i);
     fails := fun _ _ => false;
     rejects := rejects; rollback_fails := false |}.

Definition accept_all (_ : list MRow) (_ : MRow) : bool := false.

(** a target store that rejects every insertion into one table *)
Definition reject_table (table : string) (_ : list MRow) (row : MRow) : bool :=
  String.eqb (table_of row) table.

(** a row already present in the target table [users] *)
Definition bob : MRow :=
  RUser {| mu_user_id := "018BCFE5-6800-0000-0000-00000000FFFF"; mu_username := "bob";
           mu_created_at := At 1700000000000; mu_locked_at := None;
           mu_can_request_admin := false |}.

(** a provider of the target store *)
Definition keycloak : MUpstreamOauthProvider :=
  {| mo_upstream_oauth_provider_id := "01563e3a-b5d3-d676-4c61-efb99302bd5b";
     mo_issuer := "https://sso.example.org/" |}.


(** a guest account *)
Definition guest : SUser :=
  {| su_name := "@12345:example.org"; su_password_hash := None;
     su_admin := 0; su_is_guest := 1; su_deactivated := 0;
     su_creation_ts := 1700000100; su_appservice_id := None |}.

Definition with_guest : SynapseDb :=
  {| syn_users := [alice; guest];
     syn_user_threepids := [alice_email];
     syn_user_external_ids := [];
     syn_access_tokens := [alice_token];
     syn_refresh_tokens := [] |}.

(** a deactivated account with an e-mail address, an upstream identity and a
    device *)
Definition carol : SUser :=
  {| su_name := "@carol:example.org"; su_password_hash := None;
     su_admin := 1; su_is_guest := 0; su_deactivated := 1;
     su_creation_ts := 1600000000; su_appservice_id := None |}.

(** an account with a phone number and an access token whose refresh token
    is gone *)
Definition dave : SUser :=
  {| su_name := "@dave:example.org"; su_password_hash := Some "$2b$12$zyxwvutsrqponmlkjihgfe";
     su_admin := 0; su_is_guest := 0; su_deactivated := 0;
     su_creation_ts := 1650000000; su_appservice_id := None |}.

Definition full : SynapseDb :=
  {| syn_users := [alice; carol; dave];
     syn_user_threepids :=
       [alice_email;
        {| tp_user_id := "@carol:example.org"; tp_medium := "email";
           tp_address := "Carol@Example.org"; tp_validated_at := None;
           tp_added_at := 1600000000123 |};
        {| tp_user_id := "@dave:example.org"; tp_medium := "msisdn";
           tp_address := "491700000000"; tp_validated_at := Some 1650000000999%Z;
           tp_added_at := 1650000000456 |};
        {| tp_user_id := "@dave:example.org"; tp_medium := "email";
           tp_address := "dave@example.org"; tp_validated_at := Some 1650000001000%Z;
           tp_added_at := 1650000000789 |}];
     syn_user_external_ids :=
       [{| ex_auth_provider := "oidc"; ex_external_id := "carol-subject";
           ex_user_id := "@carol:example.org" |}];
     syn_access_tokens :=
       [alice_token;
        {| at_id := 8; at_user_id := "@carol:example.org"; at_device_id := Some "CAROLDEV";
           at_token := "syt_Y2Fyb2w_secret"; at_last_validated := Some 1600000005000%Z;
           at_refresh_token_id := None |};
        {| at_id := 9; at_user_id := "@dave:example.org"; at_device_id := Some "DAVEDEV";
           at_token := "syt_ZGF2ZQ_secret"; at_last_validated := Some 1650000007000%Z;
           at_refresh_token_id := Some 41%Z |}];
     syn_refresh_tokens := [] |}.

(** the provider map once the mapping of [oidc] is loaded *)
Definition providers : gmap string MUpstreamOauthProvider := {[ "oidc" := keycloak ]}.

(** the locals [warningsForUser] and [executions] at line 393 *)
Definition locals (dry : bool) (user : SUser) : nat * list Execution :=
  match (deriveUser (run dry full [] accept_all) providers user (initial [] [])).2 with
  | Ok acc => acc
  | Stop _ => (O, [])
  end.

Definition alice_locals : nat * list Execution := Eval vm_compute in locals false alice.
Definition dave_locals : nat * list Execution := Eval vm_compute in locals true dave.

End Fixture.

(** ** The words of the specification about names and mappings *)

(** the part of [s] that precedes its first colon: all of [s] when it has
    none *)
Fixpoint before_colon (s : string) : string :=
  match s with
  | EmptyString => EmptyString
  | String c r => if Ascii.eqb c ":" then EmptyString else String c (before_colon r)
  end.

(** [s] cut at its first colon: what precedes it and what follows it *)
Fixpoint cut_colon (s : string) : option (string * string) :=
  match s with
  | EmptyString => None
  | String c r =>
      if Ascii.eqb c ":" then Some (EmptyString, r)
      else match cut_colon r with
           | Some (a, b) => Some (String c a, b)
           | None => None
           end
  end.

(** [s] without its first character *)
Definition tail (s : string) : string :=
  match s with
  | EmptyString => EmptyString
  | String _ r => r
  end.

(** a recognized identifier form: raw UUID, canonical UUID or canonical ULID *)
Definition recognized (id : string) : bool :=
  Id128.Uuid.isRaw id || Id128.Uuid.isCanonical id || Id128.Ulid.isCanonical id.

(** what becomes of one mapping *)
Inductive Resolution :=
| InvalidMappingFormat
| UnknownProvider
| Resolved (name : string) (provider : MUpstreamOauthProvider).

(** one mapping, once cut into a name and an identifier *)
Definition resolve_parts (db : Knex.Db) (name id : string) : Resolution :=
  if String.eqb name "" || String.eqb id "" then InvalidMappingFormat
  else if negb (recognized id) then InvalidMappingFormat
  else match parseUuidOrUlid id with
       | None => InvalidMappingFormat
       | Some (uuid, _) =>
           match Knex.find_provider uuid db with
           | None => UnknownProvider
           | Some p => Resolved name p
           end
       end.

(** the resolver as the specification words it: the mapping is cut at its
    first colon and the right side is all that follows *)
Definition resolve_as_stated (db : Knex.Db) (mapping : string) : Resolution :=
  match cut_colon mapping with
  | None => InvalidMappingFormat
  | Some (name, rest) => resolve_parts db name rest
  end.

(** the same with, for the identifier, only what lies between the first
    colon and the next one *)
Definition resolve_first_two (db : Knex.Db) (mapping : string) : Resolution :=
  match cut_colon mapping with
  | None => InvalidMappingFormat
  | Some (name, rest) => resolve_parts db name (before_colon rest)
  end.

(** what [loadProvider] did with one mapping, read off its result *)
Definition resolution (upstreamProviders : gmap string MUpstreamOauthProvider)
  (mapping : string) (r : Result (gmap string MUpstreamOauthProvider)) : option Resolution :=
  match r with
  | Ok m =>
      name ← Js.index (Js.split ":" mapping) 0;
      p ← m !! name;
      Some (Resolved name p)
  | Stop (Throw (Error msg)) =>
      if Js.startsWith "Upstream provider mapping is not in correct format." msg
      then Some InvalidMappingFormat
      else if Js.startsWith "Could not find upstream provider " msg
      then Some UnknownProvider
      else None
  | Stop _ => None
  end.

(** ** The statements of the specification that the tool does not meet, as
       stated *)

(** the resolver: every mapping is resolved as the specification words it *)
Definition mapping_as_stated (env : Env) (up : gmap string MUpstreamOauthProvider)
  (mapping : string) (st : State) : Prop :=
  resolution up mapping (loadProvider env up mapping st).2
  = Some (resolve_as_stated (mas st) mapping).





(** [needle] occurs in [hay] *)
Fixpoint occurs (needle hay : string) : bool :=
  Js.startsWith needle hay
  || match hay with
     | EmptyString => false
     | String _ r => occurs needle r
     end.



(** ** Further notions used in the properties of a run *)

(** a statement that changes the target store or brackets a transaction *)
Definition is_mutation (o : Op) : bool :=
  match o with
  | MasInsert _ _ | MasBegin | MasCommit | MasRollback => true
  | _ => false
  end.

(** however [m] stops, it stops in a way that [E] allows *)
Definition ends {A} (E : Abort -> Prop) (m : M A) : Prop :=
  forall st, match (m st).2 with
             | Stop x => E x
             | Ok _ => True
             end.

(** the ways a run may stop: [process.exit] is reached through [fatal], in
    a real run only; a store may fail a query in either mode, but only a real
    run has an insertion rejected or a transaction statement failed *)
Definition allowed_end (env : Env) (x : Abort) : Prop :=
  match x with
  | Exit code => code = 1%Z /\ dryRun env = false
  | Throw (QueryError _) => dryRun env = false
  | Throw (Unavailable o) => is_mutation o = true -> dryRun env = false
  | Throw _ => True
  end.


(** what is awaited at each turn of the loop over the users: it leaves the
    state alone and fails, if it does, as the stream of the users does *)
Definition passive (next : M unit) : Prop :=
  forall st, next st = (st, Ok tt)
             \/ next st = (st, Stop (Throw (Unavailable (SynSelect "users")))).

(** how the derivation of the rows of a user may stop: on a timestamp that
    [Ulid.generate] refuses, on a query that the source store fails, or, in a
    real run, on the exit of [fatal] *)
Definition derivation_end (env : Env) (x : Abort) (s : State) : Prop :=
  x = Throw InvalidEpoch
  \/ (exists t, x = Throw (Unavailable (SynSelect t))
                /\ fails env (trace s) (SynSelect t) = true)
  \/ (x = Exit 1 /\ dryRun env = false).

(** the insertion statements of a list of closures, in order *)
Definition insertions (ex : list Execution) : list Op :=
  map (fun e => MasInsert e.1 e.2) ex.

(** an error of the target store on a statement that writes: a rejected
    insertion, or a transaction statement that fails *)
Definition target_failure (e : Exn) : bool :=
  match e with
  | QueryError _ => true
  | Unavailable o => is_mutation o
  | _ => false
  end.

(** after the rollback of line 411: no transaction is left open, unless the
    rollback has failed, which the log then tells at the error level *)
Definition rolled_back (env : Env) (s : State) : Prop :=
  if rollback_fails env
  then exists text,
      last (log s) = Some (ERROR, "Failed to rollback transaction: " +:+ text)
  else Knex.pending (mas s) = None.

(** how the insertions [ex] of a user fail in a real run, from [st] to [s]:
    the transaction cannot be opened; or the store rejects an insertion, those
    before it having been made; or the commit fails, all insertions having
    been made *)
Definition commit_failure (env : Env) (ex : list Execution) (st : State)
  (x : Abort) (s : State) : Prop :=
  (x = Throw (Unavailable MasBegin)
   /\ fails env (trace s) MasBegin = true
   /\ mas s = mas st /\ trace s = trace st ++ [MasBegin])
  \/ (exists done e rest,
        ex = done ++ e :: rest
        /\ x = Throw (QueryError (table_of e.2))
        /\ rejects env (Knex.committed (mas st) ++ map snd done) e.2 = true
        /\ Knex.committed (mas s) = Knex.committed (mas st) ++ map snd done
        /\ trace s = trace st ++ MasBegin :: insertions (done ++ [e]) ++ [MasRollback]
        /\ rolled_back env s)
  \/ (x = Throw (Unavailable MasCommit)
      /\ fails env (trace st ++ MasBegin :: insertions ex ++ [MasCommit]) MasCommit = true
      /\ Knex.committed (mas s) = Knex.committed (mas st) ++ map snd ex
      /\ trace s = trace st ++ MasBegin :: insertions ex ++ [MasCommit; MasRollback]
      /\ rolled_back env s).

(** the mapping resolves against the providers of the target store *)
Definition resolves (db : Knex.Db) (mapping : string) : bool :=
  match resolve_first_two db mapping with
  | Resolved _ _ => true
  | _ => false
  end.

(** since [st0] nothing but provider lookups has been issued, and nothing
    but the log and the trace has changed *)
Definition only_lookups (st0 st : State) : Prop :=
  mas st = mas st0 /\ warnings st = warnings st0 /\ fatals st = fatals st0
  /\ exists ops, trace st = trace st0 ++ ops
       /\ Forall (fun o => o = MasSelect "upstream_oauth_providers") ops.

(** the same run in the other mode *)
Definition with_dryRun (dry : bool) (env : Env) : Env :=
  {| dryRun := dry; upstreamProviderMapping := upstreamProviderMapping env;
     sqlite3 := sqlite3 env; synapse := synapse env; entropy := entropy env;
     fails := fails env;
     rejects := rejects env; rollback_fails := rollback_fails env |}.

(** every external id of the user names a provider that has been mapped *)
Definition all_mapped (up : gmap string MUpstreamOauthProvider) (src : SynapseDb)
  (user : SUser) : bool :=
  forallb (fun x => bool_decide (is_Some (up !! ex_auth_provider x)))
    (external_ids_of src user).

(** the dates that [Ulid.generate] accepts: the invalid date is one *)
Definition valid_epoch (time : Date) : bool :=
  match time with
  | At ms => ((0 <=? ms) && (ms <? Id128.MAX_MS))%Z
  | InvalidDate => true
  end.

(** ** References between the rows of the target store *)







(** the debug line of line 376, with the record as [JSON.stringify] gives it *)
Definition refresh_line (rt : SRefreshToken) (r : MCompatRefreshToken)
  : Level * string :=
  (DEBUG, "Refresh token " +:+ Js.of_Z (rt_id rt) +:+ " => "
            +:+ Json.stringify (json_MCompatRefreshToken r)).

(** two computations agree, whatever the states they start from, as long as
    these have the same number of identifiers drawn: they end alike, with the
    same result, and have drawn as many identifiers *)
Definition sim {A} (m1 m2 : M A) : Prop :=
  forall s1 s2, drawn s1 = drawn s2 ->
    (m1 s1).2 = (m2 s2).2 /\ drawn (m1 s1).1 = drawn (m2 s2).1.

(** a computation that returns and draws no identifier *)
Definition silent (m : M unit) : Prop :=
  forall s, (m s).2 = Ok tt /\ drawn (m s).1 = drawn s.

(** the target store accepts every row, and no store fails a statement *)
Definition accepts_all (env : Env) : Prop :=
  (forall rows row, rejects env rows row = false)
  /\ (forall issued o, fails env issued o = false).

(** ** A second source store: refresh tokens, an empty password hash, a token
       without a device and an account created before the epoch *)

Module Sample.

(** an administrator whose password hash is the empty text *)
Definition grace : SUser :=
  {| su_name := "@grace:example.org:8448"; su_password_hash := Some "";
     su_admin := 1; su_is_guest := 0; su_deactivated := 0;
     su_creation_ts := 1710000000; su_appservice_id := None |}.

Definition grace_refresh : SRefreshToken :=
  {| rt_id := 5; rt_user_id := "@grace:example.org:8448";
     rt_token := "syr_Z3JhY2U_refresh" |}.

Definition grace_token : SAccessToken :=
  {| at_id := 21; at_user_id := "@grace:example.org:8448";
     at_device_id := Some "GRACEDEV"; at_token := "syt_Z3JhY2U_secret";
     at_last_validated := Some 0%Z; at_refresh_token_id := Some 5%Z |}.

Definition grace_identity : SUserExternalId :=
  {| ex_auth_provider := "oidc"; ex_external_id := "grace-subject";
     ex_user_id := "@grace:example.org:8448" |}.

Definition grace_email : SUserThreePid :=
  {| tp_user_id := "@grace:example.org:8448"; tp_medium := "email";
     tp_address := "Grace.Hopper@Example.ORG"; tp_validated_at := Some 0%Z;
     tp_added_at := 1710000000250 |}.

(** an account whose creation time is negative *)
Definition frank : SUser :=
  {| su_name := "@frank:example.org"; su_password_hash := None;
     su_admin := 0; su_is_guest := 0; su_deactivated := 0;
     su_creation_ts := -1; su_appservice_id := None |}.

(** the user of an application service *)
Definition bridge : SUser :=
  {| su_name := "@_irc_bot:example.org"; su_password_hash := None;
     su_admin := 0; su_is_guest := 0; su_deactivated := 0;
     su_creation_ts := 1710000500; su_appservice_id := Some "irc" |}.

Definition store : SynapseDb :=
  {| syn_users := [bridge; grace];
     syn_user_threepids := [grace_email];
     syn_user_external_ids := [grace_identity];
     syn_access_tokens :=
       [grace_token;
        {| at_id := 22; at_user_id := "@grace:example.org:8448"; at_device_id := None;
           at_token := "syt_Z3JhY2U_puppet"; at_last_validated := None;
           at_refresh_token_id := None |}];
     syn_refresh_tokens := [grace_refresh] |}.

Definition env (dry : bool) : Env :=
  Fixture.run dry store ["oidc:01ARZ3NDEKTSV4RRFFQ69G5FAV"] Fixture.accept_all.

(** the rows of [Fixture.full] for the users [dave], who has two warnings,
    and [frank] *)
Definition dave_then_frank : SynapseDb :=
  {| syn_users := [Fixture.dave; frank];
     syn_user_threepids := syn_user_threepids Fixture.full;
     syn_user_external_ids := syn_user_external_ids Fixture.full;
     syn_access_tokens := syn_access_tokens Fixture.full;
     syn_refresh_tokens := syn_refresh_tokens Fixture.full |}.

(** the locals [warningsForUser] and [executions] at line 393, for [grace] *)
Definition grace_locals : nat * list Execution :=
  Eval vm_compute in
    match (deriveUser (env true) Fixture.providers grace (initial [] [])).2 with
    | Ok acc => acc
    | Stop _ => (O, [])
    end.

End Sample.

(** * Properties *)

Section WP.

Context {A B : Type}.

Lemma wp_ret (a : A) Q E st : Q a st -> wp (mret a) Q E st.
Proof. done. Qed.

Lemma wp_bind (m : M A) (k : A -> M B) Q E st :
  wp m (fun a st' => wp (k a) Q E st') E st -> wp (m ≫= k) Q E st.
Proof.
  unfold wp, mbind, M_bind. destruct (m st) as [st' [a|x]]; done.
Qed.

Lemma wp_mono (m : M A) (Q Q' : A -> State -> Prop) (E E' : Abort -> State -> Prop) st :
  wp m Q E st ->
  (forall a s, Q a s -> Q' a s) -> (forall x s, E x s -> E' x s) ->
  wp m Q' E' st.
Proof.
  unfold wp. destruct (m st) as [st' [a|x]]; auto.
Qed.

Lemma wp_try_catch (body : M A) handler Q E st :
  wp body Q (fun x st' => match x with
                          | Throw e => wp (handler e) Q E st'
                          | Exit c => E (Exit c) st'
                          end) st ->
  wp (try_catch body handler) Q E st.
Proof.
  unfold wp, try_catch. destruct (body st) as [st' [a|[c|e]]]; done.
Qed.

Lemma wp_eq (m : M A) Q E st st' r :
  m st = (st', r) ->
  wp m Q E st -> match r with Ok a => Q a st' | Stop x => E x st' end.
Proof. unfold wp. by intros ->. Qed.

End WP.

(** the loop rule: [I done acc st] holds once the turns for [done] are over *)
Lemma wp_foldM {A X} (f : A -> X -> M A) (I : list X -> A -> State -> Prop) E l :
  (forall done x rest a st, l = done ++ x :: rest -> I done a st ->
     wp (f a x) (fun a' st' => I (done ++ [x]) a' st') E st) ->
  forall a st, I [] a st -> wp (foldM f l a) (fun a' st' => I l a' st') E st.
Proof.
  intros Hf.
  assert (Hgen : forall rest done a st, l = done ++ rest -> I done a st ->
                   wp (foldM f rest a) (fun a' st' => I l a' st') E st).
  { induction rest as [|x rest IH]; intros done a st Hl HI; simpl.
    - apply wp_ret. by rewrite Hl, app_nil_r.
    - apply wp_bind. eapply wp_mono; [by eapply Hf | | done].
      intros a' s HI'. simpl in HI'. apply (IH (done ++ [x])); [|done].
      by rewrite <- app_assoc. }
  intros a st HI. by apply (Hgen l []).
Qed.

(** a loop whose turns all keep a state property keeps it *)
Lemma wp_foldM_inv {A X} (f : A -> X -> M A) (I : State -> Prop) l :
  (forall x a st, I st -> wp (f a x) (fun _ st' => I st') (fun _ st' => I st') st) ->
  forall a st, I st ->
    wp (foldM f l a) (fun _ st' => I st') (fun _ st' => I st') st.
Proof.
  intros Hf a st HI.
  apply (wp_foldM f (fun _ _ s => I s) (fun _ s => I s) l); eauto.
Qed.

Section Keeps.

Context (R : State -> Prop).

Lemma keeps_wp {A} (m : M A) st :
  keeps R m -> R st -> wp m (fun _ s => R s) (fun _ s => R s) st.
Proof.
  intros Hm H. specialize (Hm st H). unfold wp.
  by destruct (m st) as [st' [a|x]].
Qed.

Lemma wp_keeps {A} (m : M A) :
  (forall st, R st -> wp m (fun _ s => R s) (fun _ s => R s) st) -> keeps R m.
Proof.
  intros Hm st H. specialize (Hm st H). unfold wp in Hm.
  by destruct (m st) as [st' [a|x]].
Qed.

Lemma keeps_ret {A} (a : A) : keeps R (mret a).
Proof. by intros st H. Qed.

Lemma keeps_throw {A} e : keeps R (@throw A e).
Proof. by intros st H. Qed.

Lemma keeps_exit {A} c : keeps R (@exit A c).
Proof. by intros st H. Qed.

Lemma keeps_get_state : keeps R get_state.
Proof. by intros st H. Qed.

Lemma keeps_bind {A B} (m : M A) (k : A -> M B) :
  keeps R m -> (forall a, keeps R (k a)) -> keeps R (m ≫= k).
Proof.
  intros Hm Hk. apply wp_keeps. intros st H. apply wp_bind.
  eapply wp_mono; [by apply keeps_wp | | done].
  intros a s Hs. by apply keeps_wp.
Qed.

Lemma keeps_try_catch {A} (body : M A) handler :
  keeps R body -> (forall e, keeps R (handler e)) -> keeps R (try_catch body handler).
Proof.
  intros Hb Hh. apply wp_keeps. intros st H. apply wp_try_catch.
  eapply wp_mono; [by apply keeps_wp | done |].
  intros [c|e] s Hs; [done | by apply keeps_wp].
Qed.

Lemma keeps_foldM {A X} (f : A -> X -> M A) l a :
  (forall a x, keeps R (f a x)) -> keeps R (foldM f l a).
Proof.
  intros Hf. apply wp_keeps. intros st H.
  apply (wp_foldM_inv f R); [|done].
  intros x a' s Hs. by apply keeps_wp.
Qed.

End Keeps.

(** one step through a computation that keeps a property; what is left are
    the primitive effects, as goals [R st -> R st'] *)
Ltac keeps_step :=
  match goal with
  | |- keeps _ (mbind _ _) => apply keeps_bind; [|intros ?]
  | |- keeps _ (mret _) => apply keeps_ret
  | |- keeps _ (throw _) => apply keeps_throw
  | |- keeps _ (exit _) => apply keeps_exit
  | |- keeps _ get_state => apply keeps_get_state
  | |- keeps _ (try_catch _ _) => apply keeps_try_catch; [|intros ?]
  | |- keeps _ (foldM _ _ _) => apply keeps_foldM; intros ? ?
  | |- keeps _ (if ?b then _ else _) => destruct b eqn:?
  | |- keeps _ (match ?x with _ => _ end) => destruct x eqn:?
  | |- keeps _ (let '(_, _) := ?x in _) => destruct x
  | |- keeps _ replay_warnings => unfold replay_warnings
  | |- keeps _ (fatal _ _) => unfold fatal
  | |- keeps _ (makeUuid _ _) => unfold makeUuid
  | |- keeps _ (query _ _) => unfold query
  | |- keeps _ (await _ _) => unfold await
  | |- keeps _ (emit _ _) => intros ? ?
  | |- keeps _ (warn _) => intros ? ?
  | |- keeps _ (issue _) => intros ? ?
  | |- keeps _ (set_mas _) => intros ? ?
  | |- keeps _ count_fatal => intros ? ?
  | |- keeps _ draw => intros ? ?
  end.

(** ** How a computation may stop *)

Section Ends.

Context (E : Abort -> Prop).

Lemma ends_ret {A} (a : A) : ends E (mret a).
Proof. by intros st. Qed.

Lemma ends_throw {A} e : E (Throw e) -> ends E (@throw A e).
Proof. by intros H st. Qed.

Lemma ends_exit {A} c : E (Exit c) -> ends E (@exit A c).
Proof. by intros H st. Qed.

Lemma ends_bind {A B} (m : M A) (k : A -> M B) :
  ends E m -> (forall a, ends E (k a)) -> ends E (m ≫= k).
Proof.
  intros Hm Hk st. specialize (Hm st). unfold mbind, M_bind.
  destruct (m st) as [s [a|x]]; [apply Hk|done].
Qed.

Lemma ends_try_catch {A} (E' : Abort -> Prop) (body : M A) handler :
  ends E' body -> (forall e, E' (Throw e) -> ends E (handler e)) ->
  (forall c, E' (Exit c) -> E (Exit c)) ->
  ends E (try_catch body handler).
Proof.
  intros Hb Hh Hc st. unfold try_catch. specialize (Hb st).
  destruct (body st) as [s [a|[c|e]]]; simpl in *; [done|by apply Hc|].
  by apply Hh.
Qed.

Lemma ends_foldM {A X} (f : A -> X -> M A) l a :
  (forall a x, ends E (f a x)) -> ends E (foldM f l a).
Proof.
  intros Hf. revert a. induction l as [|x l IH]; intros a; simpl.
  - apply ends_ret.
  - apply ends_bind; [apply Hf|apply IH].
Qed.

End Ends.

Lemma ends_weaken {A} (E E' : Abort -> Prop) (m : M A) :
  (forall x, E x -> E' x) -> ends E m -> ends E' m.
Proof.
  intros HE Hm st. specialize (Hm st). destruct (m st) as [s [a|x]]; simpl in *; auto.
Qed.

Ltac ends_step :=
  match goal with
  | |- ends _ (mbind _ _) => apply ends_bind; [|intros ?]
  | |- ends _ (mret _) => apply ends_ret
  | |- ends _ (throw _) => apply ends_throw
  | |- ends _ (exit _) => apply ends_exit
  | |- ends ?E (try_catch _ _) => apply (ends_try_catch E E); [|intros ? ?|by intros ?]
  | |- ends _ (foldM _ _ _) => apply ends_foldM; intros ? ?
  | |- ends _ (if ?b then _ else _) => destruct b eqn:?
  | |- ends _ (match ?x with _ => _ end) => destruct x eqn:?
  | |- ends _ (let '(_, _) := ?x in _) => destruct x
  | |- ends _ replay_warnings => unfold replay_warnings
  | |- ends _ (fatal _ _) => unfold fatal
  | |- ends _ (makeUuid _ _) => unfold makeUuid
  | |- ends _ (query _ _) => unfold query
  | |- ends _ (await _ _) => unfold await
  | |- ends _ get_state => intros ?
  | |- ends _ (emit _ _) => intros ?
  | |- ends _ (warn _) => intros ?
  | |- ends _ (issue _) => intros ?
  | |- ends _ (set_mas _) => intros ?
  | |- ends _ count_fatal => intros ?
  | |- ends _ draw => intros ?
  end.

(** ** Equations of the monad *)

Lemma bind_ext {A B} (m : M A) (k1 k2 : A -> M B) st :
  (forall a s, m st = (s, Ok a) -> k1 a s = k2 a s) ->
  (m ≫= k1) st = (m ≫= k2) st.
Proof.
  intros Hk. unfold mbind, M_bind. destruct (m st) as [s [a|x]]; [by apply Hk|done].
Qed.

Lemma bind_ok {A B} (m : M A) (k : A -> M B) st s a :
  m st = (s, Ok a) -> (m ≫= k) st = k a s.
Proof. unfold mbind, M_bind. by intros ->. Qed.

Lemma bind_stop {A B} (m : M A) (k : A -> M B) st s x :
  m st = (s, Stop x) -> (m ≫= k) st = (s, Stop x).
Proof. unfold mbind, M_bind. by intros ->. Qed.

Lemma foldM_ext {A X} (f g : A -> X -> M A) l :
  (forall a x s, x ∈ l -> f a x s = g a x s) ->
  forall a s, foldM f l a s = foldM g l a s.
Proof.
  induction l as [|x l IH]; intros Hfg a s; [done|]. simpl.
  unfold mbind, M_bind. rewrite Hfg by left.
  destruct (g a x s) as [s' [a'|y]]; [|done].
  apply IH. intros a0 x0 s0 Hx0. apply Hfg. by right.
Qed.

Lemma bind_assoc {A B C} (m : M A) (f : A -> M B) (g : B -> M C) st :
  ((m ≫= f) ≫= g) st = (m ≫= (fun a => f a ≫= g)) st.
Proof. unfold mbind, M_bind. by destruct (m st) as [s [a|x]]. Qed.

(** ** Statements and the target store *)

Lemma quiet_refl p st : quiet p st st.
Proof. done. Qed.

Lemma quiet_same p st0 st st' :
  mas st' = mas st -> trace st' = trace st -> quiet p st0 st -> quiet p st0 st'.
Proof. unfold quiet, issued. by intros -> ->. Qed.

Lemma quiet_issue p st0 st o :
  p o = false -> quiet p st0 st -> quiet p st0 (issue o st).1.
Proof.
  intros Ho [Hm Htr]. split; [done|]. unfold issued in *. simpl.
  rewrite filter_app, Htr, filter_cons_False, filter_nil, app_nil_r; [done|].
  by rewrite Ho.
Qed.

Ltac quiet_leaf :=
  first [ by apply quiet_issue
        | by (eapply quiet_same; [| |eassumption]) ].

(** Deriving the rows of a user writes nothing. *)
Lemma deriveUser_quiet env up user st0 :
  keeps (quiet is_write st0) (deriveUser env up user).
Proof.
  unfold deriveUser, importThreePid, importExternalId, importAccessToken.
  repeat keeps_step; quiet_leaf.
Qed.

(** In a dry run nothing is written for a user, whatever was derived. *)
Lemma commitUser_dry_quiet env user w ex st0 :
  dryRun env = true -> keeps (quiet is_write st0) (commitUser env user w ex).
Proof.
  intros Hdry. unfold commitUser. rewrite Hdry. simpl.
  repeat keeps_step; quiet_leaf.
Qed.

(** ** The two modes of [fatal] *)

Lemma logged_nil st : logged st [] = st.
Proof. destruct st. unfold logged. simpl. by rewrite app_nil_r. Qed.

Lemma logged_logged st a b : logged (logged st a) b = logged st (a ++ b).
Proof. unfold logged. simpl. by rewrite app_assoc. Qed.

Lemma emit_eq l m st : emit l m st = (logged st [(l, m)], Ok tt).
Proof. done. Qed.

Lemma emit_all_eq ws st :
  foldM (fun _ w => emit WARN w) ws tt st = (logged st (replay ws), Ok tt).
Proof.
  revert st. induction ws as [|w ws IH]; intros st; simpl.
  - by rewrite logged_nil.
  - unfold mbind, M_bind. rewrite emit_eq, IH. by rewrite logged_logged.
Qed.

Lemma replay_warnings_eq st :
  replay_warnings st = (logged st (replay (warnings st)), Ok tt).
Proof. unfold replay_warnings, mbind, M_bind. simpl. apply emit_all_eq. Qed.

Lemma fatal_real env m st :
  dryRun env = false ->
  fatal env m st = (logged st ((FATAL, m) :: replay (warnings st)), Stop (Exit 1)).
Proof.
  intros Hdry. unfold fatal, mbind, M_bind.
  rewrite emit_eq, replay_warnings_eq, Hdry. simpl. by rewrite logged_logged.
Qed.

Lemma fatal_dry env m st :
  dryRun env = true ->
  fatal env m st = count_fatal (logged st ((FATAL, m) :: replay (warnings st))).
Proof.
  intros Hdry. unfold fatal, mbind, M_bind.
  rewrite emit_eq, replay_warnings_eq, Hdry. simpl. by rewrite logged_logged.
Qed.


Lemma loadProvider_quiet env up mapping st0 :
  keeps (quiet is_write_or_extraction st0) (loadProvider env up mapping).
Proof.
  unfold loadProvider. repeat keeps_step; quiet_leaf.
Qed.


Lemma fatals_grow_migrateUser env up user n :
  keeps (fun s => (n <= fatals s)%nat) (migrateUser env up user).
Proof.
  unfold migrateUser, deriveUser, commitUser, importThreePid, importExternalId,
    importAccessToken, run_execution, transaction, commit, rollback.
  repeat keeps_step; simpl; lia.
Qed.

Lemma migrateUser_dry_quiet env up user st0 :
  dryRun env = true -> keeps (quiet is_write st0) (migrateUser env up user).
Proof.
  intros Hdry. unfold migrateUser. apply keeps_bind; [apply deriveUser_quiet|].
  intros acc. by apply commitUser_dry_quiet.
Qed.





Lemma query_eq env o st :
  query env o st
  = ((issue o st).1,
     if fails env (trace st ++ [o]) o then Stop (Throw (Unavailable o)) else Ok tt).
Proof.
  unfold query, await, mbind, M_bind, get_state. simpl.
  by destruct (fails env (trace st ++ [o]) o).
Qed.

Lemma await_eq env o st :
  await env o st
  = (st, if fails env (trace st) o then Stop (Throw (Unavailable o)) else Ok tt).
Proof.
  unfold await, mbind, M_bind, get_state. simpl.
  by destruct (fails env (trace st) o).
Qed.

Lemma wp_query env o (Q : unit -> State -> Prop) E st :
  (fails env (trace st ++ [o]) o = false -> Q tt (issue o st).1) ->
  (fails env (trace st ++ [o]) o = true -> E (Throw (Unavailable o)) (issue o st).1) ->
  wp (query env o) Q E st.
Proof. intros HQ HE. unfold wp. rewrite query_eq. destruct (fails env _ _); auto. Qed.

Lemma wp_await env o (Q : unit -> State -> Prop) E st :
  (fails env (trace st) o = false -> Q tt st) ->
  (fails env (trace st) o = true -> E (Throw (Unavailable o)) st) ->
  wp (await env o) Q E st.
Proof. intros HQ HE. unfold wp. rewrite await_eq. destruct (fails env _ _); auto. Qed.









(** ** Guests *)

Lemma migrateUser_guest_real env up user st :
  dryRun env = false -> su_is_guest user = 1%Z ->
  migrateUser env up user st =
    (logged st ((INFO, "Processing user " +:+ su_name user +:+ " as "
                         +:+ localpart (su_name user))
                  :: (FATAL, msg_guest (su_name user)) :: replay (warnings st)),
     Stop (Exit 1)).
Proof.
  intros Hdry Hguest. unfold migrateUser, deriveUser, mbind, M_bind.
  rewrite emit_eq, Hguest, Z.eqb_refl, fatal_real by done.
  by rewrite logged_logged.
Qed.

Lemma migrateUser_guest_dry env up user st :
  dryRun env = true -> su_is_guest user = 1%Z ->
  (fatals st < fatals (migrateUser env up user st).1)%nat.
Proof.
  intros Hdry Hguest.
  assert (Hwp : wp (migrateUser env up user)
                  (fun _ s => (S (fatals st) <= fatals s)%nat)
                  (fun _ s => (S (fatals st) <= fatals s)%nat) st).
  { unfold migrateUser. apply wp_bind. unfold deriveUser.
    apply wp_bind. unfold wp at 1. rewrite emit_eq.
    apply wp_bind. rewrite Hguest, Z.eqb_refl.
    unfold wp at 1. rewrite fatal_dry by done. simpl.
    match goal with |- wp ?m _ _ ?s2 =>
      eapply wp_mono;
        [apply (keeps_wp (fun s' => (S (fatals st) <= fatals s')%nat) m s2) | |] end.
    - unfold importThreePid, importExternalId, importAccessToken.
      repeat keeps_step; simpl; lia.
    - simpl. lia.
    - intros acc s Hs. apply keeps_wp; [|done].
      unfold commitUser, run_execution, transaction, commit, rollback.
      repeat keeps_step; simpl; lia.
    - done. }
  unfold wp in Hwp. destruct (migrateUser env up user st) as [s [a|x]]; simpl; lia.
Qed.

Lemma summary_fails env n st :
  (1 <= fatals st)%nat -> exists x, (summary env n st).2 = Stop x.
Proof.
  intros Hf. unfold summary, mbind, M_bind. simpl.
  rewrite replay_warnings_eq.
  destruct (0 <? fatals st)%nat eqn:H0; [by eexists|].
  apply Nat.ltb_ge in H0. lia.
Qed.

Lemma stops_wp {A} (m : M A) st :
  wp m (fun _ _ => False) (fun _ _ => True) st -> exists x, (m st).2 = Stop x.
Proof. unfold wp. destruct (m st) as [s [a|x]]; [done|by eexists]. Qed.

Lemma wp_stops {A} (m : M A) st :
  (exists x, (m st).2 = Stop x) -> wp m (fun _ _ => False) (fun _ _ => True) st.
Proof. unfold wp. intros [x Hx]. destruct (m st) as [s [a|y]]; [done|done]. Qed.

Lemma wp_true {A} (m : M A) st : wp m (fun _ _ => True) (fun _ _ => True) st.
Proof. unfold wp. by destruct (m st) as [s [a|y]]. Qed.

(** ** The loop over the users *)

Lemma passive_ret : passive (mret tt).
Proof. intros st. by left. Qed.

Lemma passive_await env : passive (await env (SynSelect "users")).
Proof. intros st. rewrite await_eq. destruct (fails env _ _); auto. Qed.

Lemma wp_passive next (Q : unit -> State -> Prop) E st :
  passive next -> Q tt st -> E (Throw (Unavailable (SynSelect "users"))) st ->
  wp next Q E st.
Proof. intros Hp HQ HE. unfold wp. by destruct (Hp st) as [-> | ->]. Qed.

(** the loop rule for the users: [I done n st] holds once the users [done]
    have been processed *)
Lemma wp_migrateUsers env next up rows (I : list SUser -> nat -> State -> Prop) E st :
  passive next ->
  (forall done x rest n s, rows = done ++ x :: rest -> I done n s ->
     wp (migrateUser env up x) (fun _ s' => I (done ++ [x]) (S n) s') E s) ->
  (forall done n s, I done n s -> E (Throw (Unavailable (SynSelect "users"))) s) ->
  I [] O st ->
  wp (migrateUsers env next up rows) (fun n s => I rows n s) E st.
Proof.
  intros Hp Hturn Hfail H0. unfold migrateUsers. apply wp_bind.
  eapply wp_mono; [apply (wp_foldM _ I E rows); [|exact H0] | |done].
  - intros done x rest n s Hrows HI. apply wp_bind.
    apply wp_passive; [done| |by eapply Hfail].
    apply wp_bind. eapply wp_mono; [by eapply Hturn| |done].
    intros [] s' HI'. by apply wp_ret.
  - intros n s HI. simpl. apply wp_bind.
    apply wp_passive; [done| |by eapply Hfail]. by apply wp_ret.
Qed.

Lemma wp_processUsers env up rows (I : list SUser -> nat -> State -> Prop) E st :
  (forall done x rest n s, rows = done ++ x :: rest -> I done n s ->
     wp (migrateUser env up x) (fun _ s' => I (done ++ [x]) (S n) s') E s) ->
  (forall done n s, I done n s -> E (Throw (Unavailable (SynSelect "users"))) s) ->
  I [] O (issue (SynSelect "users") st).1 ->
  wp (processUsers env up rows) (fun n s => I rows n s) E st.
Proof.
  intros Hturn Hfail H0. unfold processUsers. destruct (sqlite3 env).
  - apply wp_bind. unfold wp at 1. rewrite query_eq.
    destruct (fails env _ _); [by eapply Hfail|].
    by apply wp_migrateUsers; [apply passive_ret| | |].
  - apply wp_bind. unfold wp at 1. cbn [issue].
    by apply wp_migrateUsers; [apply passive_await| | |].
Qed.

Lemma processUsers_guest env up rows st :
  (exists u, u ∈ rows /\ su_is_guest u = 1%Z) ->
  wp (processUsers env up rows) (fun _ s => (1 <= fatals s)%nat) (fun _ _ => True) st.
Proof.
  intros Hg.
  eapply wp_mono;
    [apply (wp_processUsers env up rows
              (fun done _ s =>
                 (exists u, u ∈ done /\ su_is_guest u = 1%Z) -> (1 <= fatals s)%nat)
              (fun _ _ => True)) | |].
  - intros done x rest n s _ HI.
    destruct (decide (su_is_guest x = 1%Z)) as [Hx|Hx].
    + destruct (dryRun env) eqn:Hdry.
      * pose proof (migrateUser_guest_dry env up x s Hdry Hx) as Hlt.
        unfold wp. destruct (migrateUser env up x s) as [s' [a|y]]; [|done].
        simpl in *. intros _. lia.
      * unfold wp at 1. by rewrite migrateUser_guest_real.
    + eapply wp_mono;
        [apply (keeps_wp _ _ _ (fatals_grow_migrateUser env up x (fatals s))); lia| |done].
      intros a s' Hs'. simpl. intros (u & Hu & Hgu).
      apply elem_of_app in Hu as [Hu|Hu].
      * assert (1 <= fatals s)%nat by (apply HI; eauto). simpl in Hs'. lia.
      * apply list_elem_of_singleton in Hu. by subst.
  - done.
  - intros (u & Hu & _). by apply elem_of_nil in Hu.
  - simpl. intros n s HI. by apply HI.
  - done.
Qed.

Lemma migrate_guest env rows providers user :
  user ∈ syn_users (synapse env) -> su_appservice_id user = None ->
  su_is_guest user = 1%Z ->
  exists x, (migrate env (initial rows providers)).2 = Stop x.
Proof.
  intros Hin Happ Hguest. apply stops_wp. unfold migrate.
  apply wp_bind. eapply wp_mono; [apply wp_true| |done]. intros up s1 _.
  apply wp_bind. eapply wp_mono; [apply wp_true| |done]. intros _ s2 _.
  apply wp_bind. unfold wp at 1. simpl.
  apply wp_bind. eapply wp_mono; [apply wp_true| |done]. intros _ s3 _.
  apply wp_bind.
  assert (Hrows : exists u, u ∈ filter (fun u => su_appservice_id u = None)
                                  (syn_users (synapse env)) /\ su_is_guest u = 1%Z).
  { exists user. split; [|done]. by apply list_elem_of_filter. }
  apply wp_mono with (Q := fun _ s => (1 <= fatals s)%nat) (E := fun _ _ => True);
    [by apply processUsers_guest | | done].
  intros n s4 Hf. by apply wp_stops, summary_fails.
Qed.

(** C7: processing a user whose guest flag is set writes nothing to the target
    store and raises a fatal: a real run exits at once with status 1, a dry
    run counts the fatal; either way a run that meets such a user does not
    complete. *)
Theorem guest_exclusion env up user st :
  su_is_guest user = 1%Z ->
  let r := migrateUser env up user st in
  quiet is_write st r.1
  /\ (dryRun env = false -> r.2 = Stop (Exit 1))
  /\ (dryRun env = true -> (fatals st < fatals r.1)%nat)
  /\ (forall rows providers,
        user ∈ syn_users (synapse env) -> su_appservice_id user = None ->
        exists x, (migrate env (initial rows providers)).2 = Stop x).
Proof.
  intros Hguest r. subst r. split; [|split; [|split]].
  - destruct (dryRun env) eqn:Hdry.
    + by apply migrateUser_dry_quiet.
    + by rewrite migrateUser_guest_real.
  - intros Hdry. by rewrite migrateUser_guest_real.
  - intros Hdry. by apply migrateUser_guest_dry.
  - intros rows providers Hin Happ. by eapply migrate_guest.
Qed.

Lemma guest_exclusion_witness :
  let env := Fixture.run false Fixture.with_guest [] Fixture.accept_all in
  let r := migrateUser env ∅ Fixture.guest (initial [] []) in
  quiet is_write (initial [] []) r.1
  /\ (dryRun env = false -> r.2 = Stop (Exit 1))
  /\ (dryRun env = true -> (fatals (initial [] []) < fatals r.1)%nat)
  /\ (forall rows providers,
        Fixture.guest ∈ syn_users (synapse env) ->
        su_appservice_id Fixture.guest = None ->
        exists x, (migrate env (initial rows providers)).2 = Stop x).
Proof.
  apply (guest_exclusion (Fixture.run false Fixture.with_guest [] Fixture.accept_all)
           ∅ Fixture.guest (initial [] [])).
  reflexivity.
Defined.

(** ** The transaction around the insertions of a user *)

(** Had the closures captured the transaction, a rejected insertion would
    leave the committed rows as they were. *)
Lemma commitUser_through_trx env user ex st :
  dryRun env = false -> rollback_fails env = false ->
  Forall (fun e : Execution => e.1 = Knex.Trx) ex ->
  wp (commitUser env user 0 ex)
    (fun _ s => Knex.committed (mas s) = Knex.committed (mas st) ++ map snd ex)
    (fun _ s => Knex.committed (mas s) = Knex.committed (mas st)) st.
Proof.
  intros Hdry Hrb Htrx. unfold commitUser. rewrite Hdry. simpl.
  set (c0 := Knex.committed (mas st)).
  apply wp_bind. unfold wp at 1. simpl.
  apply wp_bind. unfold transaction. apply wp_bind.
  apply wp_query; [intros _|by intros _].
  apply wp_bind. unfold wp at 1. simpl. unfold wp at 1. simpl.
  match goal with |- wp (try_catch _ ?h) ?Q ?E _ =>
    assert (Hh : forall e s, Knex.committed (mas s) = c0 -> wp (h e) Q E s) end.
  { intros e s Hc.
    apply wp_bind. apply wp_try_catch. unfold rollback. rewrite Hrb.
    apply wp_bind. unfold wp at 1. simpl.
    apply wp_bind. unfold wp at 1. simpl. unfold wp at 1. simpl.
    unfold wp. simpl. done. }
  apply wp_try_catch. apply wp_bind.
  set (I := fun (done : list Execution) (_ : unit) (s : State) =>
              Knex.committed (mas s) = c0 /\ Knex.pending (mas s) = Some (map snd done)).
  eapply wp_mono;
    [apply (wp_foldM _ I (fun _ s => Knex.committed (mas s) = c0) ex) | |].
  - intros done [h row] rest [] s Hex [Hc Hp].
    assert (h = Knex.Trx) as ->.
    { rewrite Hex in Htrx. apply Forall_app in Htrx as [_ Htrx].
      by apply Forall_cons in Htrx as [Htrx _]. }
    unfold run_execution.
    apply wp_bind. unfold wp at 1. simpl.
    apply wp_bind. unfold wp at 1. simpl.
    unfold Knex.insert, Knex.visible. simpl. rewrite Hp.
    destruct (rejects env _ row); unfold wp; simpl; [done|].
    split; [done|]. by rewrite map_app.
  - done.
  - simpl. intros [] s [Hc Hp].
    apply wp_bind. unfold commit. apply wp_bind.
    apply wp_query; [intros _|intros _; by apply Hh].
    apply wp_bind. unfold wp at 1. simpl. unfold wp at 1. simpl.
    unfold wp. simpl. by rewrite Hc, Hp.
  - intros [c|e] s Hc; [done|]. by apply Hh.
Qed.

(** C1 at the failing input: the store rejects the third insertion of a user
    without warnings in a real run; the statement is rolled back and the
    error propagates, yet the two rows inserted before it stay in the target
    store. *)
Theorem commit_is_not_atomic :
  let env := Fixture.run false Fixture.source [] (Fixture.reject_table "user_emails") in
  let r := migrate env (initial [] []) in
  r.2 = Stop (Throw (QueryError "user_emails"))
  /\ warnings r.1 = []
  /\ trace r.1 !! 5 = Some MasBegin
  /\ last (trace r.1) = Some MasRollback
  /\ map table_of (Knex.committed (mas r.1)) = ["users"; "user_passwords"]
  /\ Knex.pending (mas r.1) = None.
Proof. vm_compute. done. Qed.

(** ** Names and provider mappings *)

Lemma split_nonempty sep s : Js.split sep s <> [].
Proof.
  destruct s as [|c r]; simpl; [done|].
  destruct (Ascii.eqb c sep); [done|]. by destruct (Js.split sep r).
Qed.

Lemma split_first s : Js.index (Js.split ":" s) 0 = Some (before_colon s).
Proof.
  induction s as [|c r IH]; simpl; [done|].
  destruct (Ascii.eqb c ":"); [done|].
  destruct (Js.split ":" r) as [|p ps] eqn:Hsplit; [by apply split_nonempty in Hsplit|].
  simpl in *. by inversion IH.
Qed.

Lemma split_second s :
  Js.index (Js.split ":" s) 1 =
    match cut_colon s with
    | Some (_, rest) => Some (before_colon rest)
    | None => None
    end.
Proof.
  induction s as [|c r IH]; simpl; [done|].
  destruct (Ascii.eqb c ":").
  - apply split_first.
  - destruct (Js.split ":" r) as [|p ps] eqn:Hsplit; [by apply split_nonempty in Hsplit|].
    simpl in *. rewrite IH. by destruct (cut_colon r) as [[a b]|].
Qed.

Lemma cut_colon_before s name rest :
  cut_colon s = Some (name, rest) -> before_colon s = name.
Proof.
  revert name. induction s as [|c r IH]; simpl; [done|]. intros name.
  destruct (Ascii.eqb c ":"); [by intros [= <- _]|].
  destruct (cut_colon r) as [[a b]|]; [|done].
  intros [= <- <-]. by rewrite (IH a).
Qed.

Lemma before_colon_no_cut s : cut_colon s = None -> before_colon s = s.
Proof.
  induction s as [|c r IH]; simpl; [done|].
  destruct (Ascii.eqb c ":"); [done|].
  destruct (cut_colon r) as [[a b]|]; [done|]. intros _. by rewrite IH.
Qed.

Lemma truthy_string_eqb s :
  truthy_string (Some s) = if String.eqb s "" then None else Some s.
Proof. by destruct s. Qed.

Lemma recognized_parses id : recognized id = true -> exists bytes, parseBytes id = Some bytes.
Proof.
  unfold recognized, parseBytes, Id128.Uuid.fromRaw. intros H.
  destruct (Id128.Ulid.isCanonical id); [by eexists|].
  destruct (Id128.Uuid.isCanonical id); [by eexists|].
  destruct (Id128.Uuid.isRaw id); [by eexists|done].
Qed.

Arguments Js.index : simpl never.
Arguments msg_bad_mapping : simpl never.
Arguments msg_bad_identifier : simpl never.
Arguments msg_unknown_provider : simpl never.

(** C4, as amended: a mapping is cut at every colon and only the first two
    pieces are used, so the identifier is what lies between the first colon
    and the next one.  A missing or empty piece, or an identifier that is
    neither a raw UUID, a canonical UUID nor a canonical ULID, is a format
    error, raised before the target store is consulted.  Otherwise the
    provider row is looked up: a lookup that the store fails propagates its
    error; an identifier without a provider row is an unknown-provider error;
    otherwise the mapping from the name to the provider row is recorded.
    Nothing but the log and the statement trace changes. *)
Theorem provider_mapping env up mapping st :
  let r := loadProvider env up mapping st in
  let lookup := MasSelect "upstream_oauth_providers" in
  mas r.1 = mas st
  /\ warnings r.1 = warnings st
  /\ match resolve_first_two (mas st) mapping with
     | InvalidMappingFormat =>
         resolution up mapping r.2 = Some InvalidMappingFormat
         /\ trace r.1 = trace st
     | res =>
         trace r.1 = trace st ++ [lookup]
         /\ if fails env (trace st ++ [lookup]) lookup
            then r.2 = Stop (Throw (Unavailable lookup))
            else resolution up mapping r.2 = Some res
                 /\ forall name p, res = Resolved name p -> r.2 = Ok (<[name := p]> up)
     end.
Proof.
  intros r lookup. subst r.
  destruct (loadProvider env up mapping st) as [sf res] eqn:Hr. cbn [fst snd].
  unfold loadProvider in Hr. unfold resolve_first_two, resolve_parts.
  rewrite split_first, split_second in Hr.
  destruct (cut_colon mapping) as [[name rest]|] eqn:Hcut.
  - rewrite (cut_colon_before _ _ _ Hcut) in Hr. rewrite !truthy_string_eqb in Hr.
    destruct (String.eqb name "") eqn:Hname; simpl in *; [by injection Hr as <- <-|].
    destruct (String.eqb (before_colon rest) "") eqn:Hid; simpl in *;
      [by injection Hr as <- <-|].
    fold (recognized (before_colon rest)).
    assert (Hneg : negb (Id128.Uuid.isRaw (before_colon rest))
                   && negb (Id128.Uuid.isCanonical (before_colon rest))
                   && negb (Id128.Ulid.isCanonical (before_colon rest))
                   = negb (recognized (before_colon rest))).
    { unfold recognized. by rewrite !negb_orb. }
    rewrite Hneg in Hr.
    destruct (recognized (before_colon rest)) eqn:Hrec; simpl in *;
      [|by injection Hr as <- <-].
    destruct (recognized_parses _ Hrec) as [bytes Hbytes].
    unfold parseUuidOrUlid in *. rewrite Hbytes in *. simpl in *.
    unfold mbind, M_bind in Hr. rewrite emit_eq, query_eq in Hr. fold lookup in Hr.
    simpl in Hr.
    destruct (Knex.find_provider _ (mas st)) as [p|] eqn:Hfind;
      destruct (fails env (trace st ++ [lookup]) lookup);
      injection Hr as <- <-; simpl; try done.
    rewrite split_first, (cut_colon_before _ _ _ Hcut). simpl.
    rewrite lookup_insert_eq. simpl. repeat split; try done.
    by intros ? ? [= <- <-].
  - rewrite (before_colon_no_cut _ Hcut) in Hr.
    destruct (truthy_string (Some mapping)); by injection Hr as <- <-.
Qed.

Lemma provider_mapping_witness :
  let env := Fixture.run false Fixture.source [] Fixture.accept_all in
  let st := initial [] [Fixture.keycloak] in
  let mapping := "oidc:0156-3e3a-b5d3-d676-4c61-efb9-9302-bd5b" in
  let r := loadProvider env ∅ mapping st in
  mas r.1 = mas st
  /\ warnings r.1 = warnings st
  /\ trace r.1 = trace st ++ [MasSelect "upstream_oauth_providers"]
  /\ resolution ∅ mapping r.2 = Some (Resolved "oidc" Fixture.keycloak)
  /\ forall name p, Resolved "oidc" Fixture.keycloak = Resolved name p ->
       r.2 = Ok (<[name := p]> ∅).
Proof.
  apply (provider_mapping (Fixture.run false Fixture.source [] Fixture.accept_all)
           ∅ "oidc:0156-3e3a-b5d3-d676-4c61-efb9-9302-bd5b"
           (initial [] [Fixture.keycloak])).
Defined.

(** C4, as stated, fails on a mapping with a second colon: cut at the first
    colon only, the right side is not a recognized identifier, yet the tool
    records the mapping. *)
Lemma provider_mapping_second_colon :
  ~ mapping_as_stated (Fixture.run false Fixture.source [] Fixture.accept_all)
      ∅ "oidc:01ARZ3NDEKTSV4RRFFQ69G5FAV:x" (initial [] [Fixture.keycloak]).
Proof. unfold mapping_as_stated. vm_compute. discriminate. Qed.

(** ** The rows derived for a user *)

Arguments arrow : simpl never.
Arguments stringifyAndRedact : simpl never.
Arguments msg_password : simpl never.
Arguments msg_non_email : simpl never.
Arguments msg_no_refresh_token : simpl never.
Arguments msg_external_id : simpl never.
Arguments msg_guest : simpl never.
Arguments localpart : simpl never.
Arguments Id128.Ulid.generate : simpl never.
Arguments Id128.Uuid.toCanonical : simpl never.

Section Primitives.

Context {A : Type} (Q : A -> State -> Prop) (E : Abort -> State -> Prop).

Lemma wp_emit l m (Q' : unit -> State -> Prop) st :
  Q' tt (logged st [(l, m)]) -> wp (emit l m) Q' E st.
Proof. done. Qed.

Lemma wp_issue o (Q' : unit -> State -> Prop) st :
  Q' tt (issue o st).1 -> wp (issue o) Q' E st.
Proof. done. Qed.

Lemma wp_warn m (Q' : unit -> State -> Prop) st :
  Q' tt (warn m st).1 -> wp (warn m) Q' E st.
Proof. done. Qed.

Lemma wp_throw e st : E (Throw e) st -> wp (@throw A e) Q E st.
Proof. done. Qed.

Lemma wp_makeUuid env t (Q' : string -> State -> Prop) st :
  (forall id, seeded t id -> Q' id (draw st).1) ->
  E (Throw InvalidEpoch) (draw st).1 ->
  wp (makeUuid env t) Q' E st.
Proof.
  intros HQ HE. unfold makeUuid. apply wp_bind. unfold wp at 1. simpl.
  destruct (Id128.Ulid.generate t _) as [bytes|] eqn:Hgen; [|done].
  apply HQ. by exists (entropy env (drawn st)), bytes.
Qed.

Lemma wp_fatal env m (Q' : unit -> State -> Prop) st :
  (dryRun env = true ->
   Q' tt (count_fatal (logged st ((FATAL, m) :: replay (warnings st)))).1) ->
  (dryRun env = false ->
   E (Exit 1) (logged st ((FATAL, m) :: replay (warnings st)))) ->
  wp (fatal env m) Q' E st.
Proof.
  intros HQ HE. unfold wp. destruct (dryRun env) eqn:Hdry.
  - rewrite fatal_dry by done. by apply HQ.
  - rewrite fatal_real by done. by apply HE.
Qed.

End Primitives.

Lemma generate_valid t random :
  valid_epoch t = true -> exists bytes, Id128.Ulid.generate t random = Some bytes.
Proof.
  unfold valid_epoch, Id128.Ulid.generate. destruct t as [ms|]; [|by eexists].
  intros ->. by eexists.
Qed.

Lemma generate_invalid t random :
  valid_epoch t = false -> Id128.Ulid.generate t random = None.
Proof.
  unfold valid_epoch, Id128.Ulid.generate. destruct t as [ms|]; [|done]. by intros ->.
Qed.

Lemma seeded_valid t id : seeded t id -> valid_epoch t = true.
Proof.
  intros (random & bytes & Hgen & _).
  destruct (valid_epoch t) eqn:Hv; [done|]. by rewrite generate_invalid in Hgen.
Qed.

Lemma wp_makeUuid_again env t id0 (Q : string -> State -> Prop) E st :
  seeded t id0 ->
  (forall id, seeded t id -> Q id (draw st).1) ->
  wp (makeUuid env t) Q E st.
Proof.
  intros Hid0 HQ. apply seeded_valid in Hid0.
  unfold makeUuid. apply wp_bind. unfold wp at 1. simpl.
  destruct (generate_valid t (entropy env (drawn st)) Hid0) as [bytes Hgen].
  rewrite Hgen. apply HQ. by exists (entropy env (drawn st)), bytes.
Qed.

Ltac wp_step :=
  lazymatch goal with
  | |- wp (mbind _ _) _ _ _ => apply wp_bind
  | |- wp (mret _) _ _ _ => apply wp_ret
  | |- wp (emit _ _) _ _ _ => apply wp_emit
  | |- wp (issue _) _ _ _ => apply wp_issue
  | |- wp (warn _) _ _ _ => apply wp_warn
  | |- wp (throw _) _ _ _ => apply wp_throw
  | |- wp (try_catch _ _) _ _ _ => apply wp_try_catch
  end.

Lemma filter_snoc_True {X} (P : X -> Prop) `{forall x, Decision (P x)} l x :
  P x -> filter P (l ++ [x]) = filter P l ++ [x].
Proof. intros. by rewrite filter_app, filter_cons_True, filter_nil. Qed.

Lemma filter_snoc_False {X} (P : X -> Prop) `{forall x, Decision (P x)} l x :
  ~ P x -> filter P (l ++ [x]) = filter P l.
Proof. intros. by rewrite filter_app, filter_cons_False, filter_nil, app_nil_r. Qed.

(** what the derivation of a user may stop on: [E] holds after an
    [InvalidEpoch] of [makeUuid], after a query that the source store fails
    and after the exit of [fatal] *)
Section Derivation.

Variable env : Env.
Variable E : Abort -> State -> Prop.
Hypothesis E_epoch : forall s, E (Throw InvalidEpoch) s.
Hypothesis E_query : forall t s,
  fails env (trace s) (SynSelect t) = true -> E (Throw (Unavailable (SynSelect t))) s.
Hypothesis E_fatal : forall s m,
  dryRun env = false -> E (Exit 1) (logged s ((FATAL, m) :: replay (warnings s))).

Lemma threepids_loop user masUser tps w0 ex0 st :
  wp (foldM (importThreePid env user masUser) tps (w0, ex0))
    (fun acc s =>
       exists emails,
         acc.2 = ex0 ++ emails
         /\ Forall2 (email_row (mu_user_id masUser))
              (filter (fun t => is_email t = true) tps) emails
         /\ acc.1 = (w0 + length (filter (fun t => is_email t = false) tps))%nat
         /\ warnings s = warnings st
                         ++ map (fun t => msg_non_email (tp_medium t) (su_name user))
                              (filter (fun t => is_email t = false) tps))
    E st.
Proof.
  apply (wp_foldM _
    (fun done acc s =>
       exists emails,
         acc.2 = ex0 ++ emails
         /\ Forall2 (email_row (mu_user_id masUser))
              (filter (fun t => is_email t = true) done) emails
         /\ acc.1 = (w0 + length (filter (fun t => is_email t = false) done))%nat
         /\ warnings s = warnings st
                         ++ map (fun t => msg_non_email (tp_medium t) (su_name user))
                              (filter (fun t => is_email t = false) done))).
  - intros done t rest [w ex] s _ (emails & Hex & Hrows & Hw & Hwarn). simpl in *.
    unfold importThreePid. fold (is_email t).
    destruct (is_email t) eqn:Hmail; simpl.
    + wp_step. apply wp_makeUuid; [|apply E_epoch]. intros id Hid.
      repeat wp_step. simpl.
      exists (emails ++ [(Knex.Pool,
                RUserEmail {| me_user_email_id := id; me_user_id := mu_user_id masUser;
                              me_email := Js.toLowerCase (tp_address t);
                              me_created_at := new_Date (tp_added_at t);
                              me_confirmed_at :=
                                option_map new_Date (truthy_num (tp_validated_at t)) |})]).
      rewrite filter_snoc_True, filter_snoc_False by (by rewrite ?Hmail).
      split; [by rewrite Hex, app_assoc|]. split; [|done].
      apply Forall2_app; [done|]. constructor; [|done]. by exists id.
    + repeat wp_step. simpl.
      exists emails.
      rewrite filter_snoc_False, filter_snoc_True by (by rewrite ?Hmail).
      split; [done|]. split; [done|]. split.
      * rewrite length_app. simpl. lia.
      * rewrite Hwarn, map_app. simpl. by rewrite app_assoc.
  - exists []. simpl. rewrite !app_nil_r. split; [done|]. split; [done|].
    split; [lia|done].
Qed.

Lemma external_ids_loop up user uid all xs ex0 st :
  seeded (userCreatedAt user) uid ->
  wp (foldM (importExternalId env up user (user_row user uid) (userCreatedAt user) all)
        xs ex0)
    (fun ex s =>
       exists links,
         ex = ex0 ++ links
         /\ Forall2 (link_row up user uid)
              (filter (fun x => is_Some (up !! ex_auth_provider x)) xs) links
         /\ warnings s = warnings st)
    E st.
Proof.
  intros Huid.
  apply (wp_foldM _
    (fun done ex s =>
       exists links,
         ex = ex0 ++ links
         /\ Forall2 (link_row up user uid)
              (filter (fun x => is_Some (up !! ex_auth_provider x)) done) links
         /\ warnings s = warnings st)).
  - intros done x rest ex s _ (links & Hex & Hrows & Hwarn).
    unfold importExternalId. wp_step.
    destruct (up !! ex_auth_provider x) as [provider|] eqn:Hup.
    + wp_step. apply (wp_makeUuid_again _ _ uid); [done|]. intros id Hid.
      repeat wp_step. simpl.
      eexists (links ++ [_]). rewrite filter_snoc_True by (by rewrite Hup).
      split; [by rewrite Hex, app_assoc|]. split; [|done].
      apply Forall2_app; [done|]. constructor; [|done]. by exists id, provider.
    + wp_step. wp_step. apply wp_fatal; [|apply E_fatal]. intros _.
      wp_step. simpl. exists links.
      rewrite filter_snoc_False by (rewrite Hup; by intros [? ?]). done.
  - exists []. by rewrite app_nil_r.
Qed.

Lemma access_tokens_loop user uid tokens w0 ex0 st :
  wp (foldM (importAccessToken env user (user_row user uid)) tokens (w0, ex0))
    (fun acc s =>
       exists groups,
         acc.2 = ex0 ++ concat groups
         /\ Forall2 (token_rows (synapse env) user uid) tokens groups
         /\ acc.1 = (w0 + length (filter (fun a => refresh_missing (synapse env) a = true)
                                    tokens))%nat
         /\ warnings s =
            warnings st
            ++ map (fun a => msg_no_refresh_token (default 0%Z (at_refresh_token_id a))
                               (su_name user))
                 (filter (fun a => refresh_missing (synapse env) a = true) tokens))
    E st.
Proof.
  apply (wp_foldM _
    (fun done acc s =>
       exists groups,
         acc.2 = ex0 ++ concat groups
         /\ Forall2 (token_rows (synapse env) user uid) done groups
         /\ acc.1 = (w0 + length (filter (fun a => refresh_missing (synapse env) a = true)
                                    done))%nat
         /\ warnings s =
            warnings st
            ++ map (fun a => msg_no_refresh_token (default 0%Z (at_refresh_token_id a))
                               (su_name user))
                 (filter (fun a => refresh_missing (synapse env) a = true) done))).
  - intros done a rest [w ex] s _ (groups & Hex & Hrows & Hw & Hwarn). simpl in *.
    unfold importAccessToken.
    change (mu_created_at (user_row user uid)) with (userCreatedAt user).
    change (mu_user_id (user_row user uid)) with uid.
    fold (tokenCreatedAt user a).
    wp_step. apply wp_makeUuid; [|apply E_epoch]. intros sid Hsid.
    wp_step. wp_step. wp_step. apply wp_makeUuid; [|apply E_epoch]. intros aid Haid.
    wp_step. wp_step.
    assert (Hgroup : forall tail : list Execution,
      match refresh_of (synapse env) a with
      | Some rt =>
          exists rid, seeded (tokenCreatedAt user a) rid
            /\ tail = [(Knex.Pool,
                        RCompatRefreshToken
                          {| mr_compat_refresh_token_id := rid;
                             mr_compat_session_id := sid;
                             mr_compat_access_token_id := aid;
                             mr_refresh_token := rt_token rt;
                             mr_created_at := tokenCreatedAt user a |})]
      | None => tail = []
      end ->
      exists groups',
        ((ex ++ [(Knex.Pool,
                  RCompatSession {| ms_compat_session_id := sid; ms_user_id := uid;
                                    ms_device_id := at_device_id a;
                                    ms_created_at := tokenCreatedAt user a;
                                    ms_is_synapse_admin := Z.eqb (su_admin user) 1 |})])
           ++ [(Knex.Pool,
                RCompatAccessToken {| ma_compat_access_token_id := aid;
                                      ma_compat_session_id := sid;
                                      ma_access_token := at_token a;
                                      ma_created_at := tokenCreatedAt user a |})])
          ++ tail = ex0 ++ concat groups'
        /\ Forall2 (token_rows (synapse env) user uid) (done ++ [a]) groups').
    { intros tail Htail. eexists (groups ++ [_ :: _ :: tail]).
      split.
      - rewrite concat_app. simpl. rewrite app_nil_r, Hex, <- !app_assoc. done.
      - apply Forall2_app; [done|]. constructor; [|done].
        exists sid, aid. split; [done|]. split; [done|]. by exists tail. }
    destruct (truthy_num (at_refresh_token_id a)) as [rid|] eqn:Hrid.
    + wp_step. apply wp_query; [intros _|intros Hf; apply E_query; exact Hf]. cbn [issue fst].
      destruct (List.find _ _) as [rt|] eqn:Hfind.
      * wp_step. apply wp_makeUuid; [|apply E_epoch]. intros rid' Hrid'.
        repeat wp_step. simpl.
        destruct (Hgroup [(Knex.Pool,
                        RCompatRefreshToken
                          {| mr_compat_refresh_token_id := rid';
                             mr_compat_session_id := sid;
                             mr_compat_access_token_id := aid;
                             mr_refresh_token := rt_token rt;
                             mr_created_at := tokenCreatedAt user a |})])
          as (groups' & Hex' & Hrows').
        { unfold refresh_of. rewrite Hrid. simpl. rewrite Hfind. by exists rid'. }
        exists groups'. split; [done|]. split; [done|].
        rewrite filter_snoc_False; [done|].
        unfold refresh_missing. by rewrite Hrid, Hfind.
      * repeat wp_step. simpl.
        destruct (Hgroup []) as (groups' & Hex' & Hrows').
        { unfold refresh_of. rewrite Hrid. simpl. by rewrite Hfind. }
        exists groups'. rewrite app_nil_r in Hex'. split; [done|]. split; [done|].
        rewrite filter_snoc_True by (unfold refresh_missing; by rewrite Hrid, Hfind).
        rewrite length_app, map_app. simpl. split; [lia|].
        rewrite Hwarn, <- app_assoc. do 3 f_equal.
        destruct (at_refresh_token_id a) as [z|]; [|done].
        destruct z; simpl in *; congruence.
    + repeat wp_step. simpl.
      destruct (Hgroup []) as (groups' & Hex' & Hrows').
      { unfold refresh_of. by rewrite Hrid. }
      exists groups'. rewrite app_nil_r in Hex'. split; [done|]. split; [done|].
      rewrite filter_snoc_False; [done|].
      unfold refresh_missing. by rewrite Hrid.
  - exists []. simpl. rewrite !app_nil_r. split; [done|]. split; [done|].
    split; [lia|done].
Qed.

Lemma deriveUser_spec up user st :
  wp (deriveUser env up user)
    (fun acc s =>
       derived env up user acc.2
       /\ acc.1 = length (warnings_of (synapse env) user)
       /\ warnings s = warnings st ++ warnings_of (synapse env) user)
    E st.
Proof.
  unfold deriveUser. fold (userCreatedAt user).
  wp_step. wp_step. wp_step.
  apply wp_mono with (Q := fun _ s => warnings s = warnings st) (E := E); [| |done].
  { destruct (Z.eqb (su_is_guest user) 1); [|by wp_step].
    apply wp_fatal; [done|apply E_fatal]. }
  intros _ s1 Hs1.
  wp_step. apply wp_makeUuid; [|apply E_epoch]. intros uid Huid.
  fold (user_row user uid).
  wp_step. wp_step. wp_step.
  apply wp_mono with
    (Q := fun ex s => exists pw, ex = (Knex.Pool, RUser (user_row user uid)) :: pw
                                 /\ password_rows user uid pw
                                 /\ warnings s = warnings st)
    (E := E); [| |done].
  { unfold password_rows.
    destruct (truthy_string (su_password_hash user)) as [h|].
    - wp_step. apply (wp_makeUuid_again _ _ uid); [done|]. intros id Hid.
      repeat wp_step. eexists [_]. split; [done|]. split; [by exists id|done].
    - wp_step. by exists []. }
  intros ex1 s2 (pw & -> & Hpw & Hs2).
  wp_step. apply wp_query; [intros _|intros Hf; apply E_query; exact Hf]. wp_step.
  fold (threepids_of (synapse env) user).
  eapply wp_mono; [apply threepids_loop| |done].
  intros [w ex2] s3 (emails & Hex2 & Hemails & Hw & Hs3). simpl in *.
  wp_step. apply wp_query; [intros _|intros Hf; apply E_query; exact Hf]. wp_step.
  fold (external_ids_of (synapse env) user).
  eapply wp_mono; [by apply external_ids_loop| |done].
  intros ex3 s4 (links & Hex3 & Hlinks & Hs4). simpl in *.
  unfold derived, warnings_of, orphans_of, imported_tokens, emails_of, non_emails_of,
    resolved_of.
  destruct (Z.eqb (su_deactivated user) 1) eqn:Hdeact.
  - repeat wp_step. simpl. split; [|split].
    + exists uid, pw, emails, links, []. simpl. rewrite app_nil_r.
      split; [done|]. split; [rewrite Hex3, Hex2; simpl; by rewrite <- ?app_assoc|].
      split; [done|]. split; [done|]. split; [done|]. constructor.
    + rewrite app_nil_r, length_map. lia.
    + rewrite app_nil_r, Hs4, Hs3, Hs2. done.
  - wp_step. apply wp_query; [intros _|intros Hf; apply E_query; exact Hf].
    fold (access_tokens_of (synapse env) user).
    eapply wp_mono; [apply access_tokens_loop| |done].
    intros [w' ex4] s5 (groups & Hex4 & Hgroups & Hw' & Hs5). simpl in *.
    split; [|split].
    + exists uid, pw, emails, links, groups.
      split; [done|]. split; [rewrite Hex4, Hex3, Hex2; simpl; by rewrite <- ?app_assoc|].
      done.
    + rewrite length_app, !length_map. lia.
    + rewrite Hs5, Hs4, Hs3, Hs2, <- app_assoc. done.
Qed.

End Derivation.

Lemma deriveUser_rows env up user st st' w ex :
  deriveUser env up user st = (st', Ok (w, ex)) ->
  derived env up user ex
  /\ w = length (warnings_of (synapse env) user)
  /\ warnings st' = warnings st ++ warnings_of (synapse env) user.
Proof.
  intros Hrun.
  exact (wp_eq _ _ _ _ _ _ Hrun
           (deriveUser_spec env (fun _ _ => True) (fun _ => I) (fun _ _ _ => I)
              (fun _ _ _ => I) up user st)).
Qed.

(** ** Identifiers and their two texts *)

Import Id128.

Lemma digits_le_length base k n : length (digits_le base k n) = k.
Proof. revert n. induction k as [|k IH]; intros n; simpl; [done|]. by rewrite IH. Qed.

Lemma to_digits_length base k n : length (to_digits base k n) = k.
Proof. unfold to_digits. by rewrite length_rev, digits_le_length. Qed.

Lemma to_digits_snoc base k n :
  to_digits base (S k) n = to_digits base k (n / base)%N ++ [(n mod base)%N].
Proof. done. Qed.

Lemma of_digits_snoc base ds d :
  of_digits base (ds ++ [d]) = (of_digits base ds * base + d)%N.
Proof. unfold of_digits. by rewrite fold_left_app. Qed.

Lemma of_to_digits base k n :
  (0 < base)%N -> of_digits base (to_digits base k n) = (n mod base ^ N.of_nat k)%N.
Proof.
  intros Hb. revert n. induction k as [|k IH]; intros n.
  - simpl. by rewrite N.mod_1_r.
  - rewrite to_digits_snoc, of_digits_snoc, IH.
    rewrite Nat2N.inj_succ, N.pow_succ_r', N.Div0.mod_mul_r. lia.
Qed.

Lemma to_digits_bound base k n :
  (0 < base)%N -> Forall (fun d => (d < base)%N) (to_digits base k n).
Proof.
  intros Hb. revert n. induction k as [|k IH]; intros n.
  - constructor.
  - rewrite to_digits_snoc. apply Forall_app. split; [apply IH|].
    constructor; [|constructor]. apply N.mod_lt. lia.
Qed.

Lemma to_digits_head base k n :
  (0 < base)%N ->
  to_digits base (S k) n = ((n / base ^ N.of_nat k) mod base)%N :: to_digits base k n.
Proof.
  intros Hb. revert n. induction k as [|k IH]; intros n.
  - unfold to_digits. simpl. by rewrite N.div_1_r.
  - rewrite to_digits_snoc, IH, (to_digits_snoc base k n). simpl.
    rewrite Nat2N.inj_succ, N.pow_succ_r', N.Div0.div_div. done.
Qed.

(** a test that holds of the first [k] numbers holds of every number below
    [k] *)
Lemma below_all (test : N -> bool) (k : nat) :
  forallb (fun i => test (N.of_nat i)) (seq 0 k) = true ->
  forall d, (d < N.of_nat k)%N -> test d = true.
Proof.
  intros Hall d Hd. rewrite forallb_forall in Hall.
  rewrite <- (N2Nat.id d). apply Hall. apply in_seq. lia.
Qed.

Lemma crockford_val_char d :
  (d < 32)%N -> crockford_val (digit_char CROCKFORD d) = d.
Proof.
  intros Hd. apply N.eqb_eq.
  by apply (below_all (fun d => N.eqb (crockford_val (digit_char CROCKFORD d)) d) 32).
Qed.

Lemma crockford_char_alnum d : (d < 32)%N -> is_alnum (digit_char CROCKFORD d) = true.
Proof. by apply (below_all (fun d => is_alnum (digit_char CROCKFORD d)) 32). Qed.

Lemma crockford_char_first d :
  (d < 8)%N -> in_range "0" "7" (digit_char CROCKFORD d) = true.
Proof. by apply (below_all (fun d => in_range "0" "7" (digit_char CROCKFORD d)) 8). Qed.

Lemma hex_val_char d : (d < 16)%N -> hex_val (digit_char HEX d) = d.
Proof.
  intros Hd. apply N.eqb_eq.
  by apply (below_all (fun d => N.eqb (hex_val (digit_char HEX d)) d) 16).
Qed.

Lemma hex_char_is_hex d : (d < 16)%N -> is_hex (digit_char HEX d) = true.
Proof. by apply (below_all (fun d => is_hex (digit_char HEX d)) 16). Qed.

Lemma hex_char_not_dash d : (d < 16)%N -> Uuid.not_dash (digit_char HEX d) = true.
Proof. by apply (below_all (fun d => Uuid.not_dash (digit_char HEX d)) 16). Qed.

Lemma decode_encode (val : ascii -> N) (chr : N -> ascii) base ds :
  (forall d, (d < base)%N -> val (chr d) = d) ->
  Forall (fun d => (d < base)%N) ds -> map val (map chr ds) = ds.
Proof.
  intros Hval Hds. induction Hds as [|d ds Hd _ IH]; simpl; [done|].
  by rewrite Hval, IH.
Qed.

Lemma take_class_app p k a b :
  length a = k -> forallb p a = true -> take_class p k (a ++ b) = Some b.
Proof.
  revert k. induction a as [|c a IH]; intros k Hk Hp; simpl in *.
  - by subst.
  - subst k. apply andb_prop in Hp as [Hc Hp]. simpl. rewrite Hc. by apply IH.
Qed.

Lemma take_class_length p k cs r :
  take_class p k cs = Some r -> length cs = (k + length r)%nat.
Proof.
  revert cs. induction k as [|k IH]; intros cs; simpl.
  - by intros [= ->].
  - destruct cs as [|c cs]; [done|]. destruct (p c); [|done].
    intros H. apply IH in H. simpl. lia.
Qed.

Lemma forallb_map_chars (p : ascii -> bool) (chr : N -> ascii) base ds :
  (forall d, (d < base)%N -> p (chr d) = true) ->
  Forall (fun d => (d < base)%N) ds -> forallb p (map chr ds) = true.
Proof.
  intros Hp Hds. induction Hds as [|d ds Hd _ IH]; simpl; [done|].
  by rewrite Hp, IH.
Qed.

(** *** ULID text *)

Lemma ulid_decode bytes :
  (bytes < 2 ^ 128)%N -> Ulid.fromCanonicalTrusted (Ulid.toCanonical bytes) = bytes.
Proof.
  intros Hb. unfold Ulid.fromCanonicalTrusted, Ulid.toCanonical.
  rewrite list_ascii_of_string_of_list_ascii.
  rewrite (decode_encode _ _ 32); [|apply crockford_val_char|by apply to_digits_bound].
  rewrite of_to_digits by done. apply N.mod_small.
  change (32 ^ N.of_nat 26)%N with (2 ^ 130)%N.
  eapply N.lt_trans; [exact Hb|]. by apply N.pow_lt_mono_r.
Qed.

Lemma take_class_one p c r : p c = true -> take_class p 1 (c :: r) = Some r.
Proof. intros Hc. simpl. by rewrite Hc. Qed.

Lemma take_class_all p k a :
  length a = k -> forallb p a = true -> take_class p k a = Some [].
Proof. intros. rewrite <- (app_nil_r a). by apply take_class_app. Qed.

Lemma ulid_first_digit bytes : (bytes < 2 ^ 128)%N -> (bytes / 32 ^ 25 < 8)%N.
Proof. intros Hb. apply N.Div0.div_lt_upper_bound. exact Hb. Qed.

Lemma ulid_canonical bytes :
  (bytes < 2 ^ 128)%N -> Ulid.isCanonical (Ulid.toCanonical bytes) = true.
Proof.
  intros Hb. unfold Ulid.isCanonical, Ulid.toCanonical, matches.
  rewrite list_ascii_of_string_of_list_ascii.
  rewrite (to_digits_head 32 25) by done.
  cbn [map fold_left].
  rewrite take_class_one.
  - rewrite (take_class_all is_alnum 25); [done| |].
    + by rewrite length_map, to_digits_length.
    + apply (forallb_map_chars _ _ 32); [apply crockford_char_alnum|].
      by apply to_digits_bound.
  - apply crockford_char_first.
    pose proof (ulid_first_digit bytes Hb) as Hlt.
    change (N.of_nat 25) with 25%N.
    rewrite N.mod_small; [done|]. lia.
Qed.

Lemma ulid_length s : Ulid.isCanonical s = true -> length (list_ascii_of_string s) = 26%nat.
Proof.
  unfold Ulid.isCanonical, matches. cbn [fold_left].
  destruct (take_class _ 1 _) as [r|] eqn:H1; [|done].
  destruct (take_class _ 25 r) as [r'|] eqn:H2; [|done].
  destruct r'; [|done]. intros _.
  apply take_class_length in H1, H2. simpl in *. lia.
Qed.

(** *** UUID text *)

Lemma hex_digits_length bytes : length (hex_digits bytes) = 32%nat.
Proof. unfold hex_digits. by rewrite length_map, to_digits_length. Qed.

Lemma hex_digits_hex bytes : forallb is_hex (hex_digits bytes) = true.
Proof.
  apply (forallb_map_chars _ _ 16); [apply hex_char_is_hex|]. by apply to_digits_bound.
Qed.

Lemma forallb_take {X} (p : X -> bool) n l : forallb p l = true -> forallb p (take n l) = true.
Proof.
  revert n. induction l as [|x l IH]; intros [|n]; simpl; try done.
  intros H. apply andb_prop in H as [-> H]. by apply IH.
Qed.

Lemma forallb_drop {X} (p : X -> bool) n l : forallb p l = true -> forallb p (drop n l) = true.
Proof.
  revert n. induction l as [|x l IH]; intros [|n]; simpl; try done.
  intros H. apply andb_prop in H as [_ H]. by apply IH.
Qed.

Lemma is_hex_not_dash c : is_hex c = true -> Ascii.eqb c "-" = false.
Proof. destruct c as [[] [] [] [] [] [] [] []]; by vm_compute. Qed.

(** a text of 32 hexadecimal digits with dashes in the 8-4-4-4-12 layout is
    read as canonical *)
Lemma uuid_canonical bytes : Uuid.isCanonical (Uuid.toCanonical bytes) = true.
Proof.
  unfold Uuid.isCanonical, Uuid.toCanonical, matches. fold (hex_digits bytes).
  rewrite list_ascii_of_string_of_list_ascii.
  pose proof (hex_digits_length bytes) as Hlen.
  pose proof (hex_digits_hex bytes) as Hhex.
  generalize dependent (hex_digits bytes). intros ds Hlen Hhex.
  do 32 (destruct ds as [|? ds]; [by simpl in Hlen|]).
  destruct ds; [|by simpl in Hlen]. clear Hlen.
  cbn [forallb] in Hhex.
  repeat match type of Hhex with
         | _ && _ = true => apply andb_prop in Hhex as [? Hhex]
         end.
  repeat (cbn [take drop app fold_left take_class opt];
          change (Ascii.eqb "-" "-") with true; cbv iota;
          match goal with
          | H : is_hex ?c = true |- context [is_hex ?c] => rewrite H
          | H : is_hex ?c = true |- context [Ascii.eqb ?c "-"] =>
              rewrite (is_hex_not_dash c H)
          end).
  reflexivity.
Qed.

Lemma uuid_length bytes :
  length (list_ascii_of_string (Uuid.toCanonical bytes)) = 36%nat.
Proof.
  unfold Uuid.toCanonical. fold (hex_digits bytes).
  rewrite list_ascii_of_string_of_list_ascii.
  pose proof (hex_digits_length bytes) as Hlen.
  repeat (rewrite ?length_app, ?length_cons, ?length_take, ?length_drop). lia.
Qed.

Lemma uuid_not_ulid bytes : Ulid.isCanonical (Uuid.toCanonical bytes) = false.
Proof.
  destruct (Ulid.isCanonical _) eqn:H; [|done].
  apply ulid_length in H. rewrite uuid_length in H. lia.
Qed.

Lemma filter_all {X} (P : X -> Prop) `{forall x, Decision (P x)} (l : list X) :
  Forall P l -> filter P l = l.
Proof.
  induction 1 as [|x l Hx _ IH]; [done|]. by rewrite filter_cons_True, IH.
Qed.

Lemma take_drop_chain {X} (l : list X) m n :
  take n (drop m l) ++ drop (m + n) l = drop m l.
Proof. rewrite <- drop_drop. apply take_drop. Qed.

Lemma uuid_decode bytes :
  (bytes < 2 ^ 128)%N -> Uuid.fromCanonicalTrusted (Uuid.toCanonical bytes) = bytes.
Proof.
  intros Hb. unfold Uuid.fromCanonicalTrusted, Uuid.toCanonical. fold (hex_digits bytes).
  rewrite list_ascii_of_string_of_list_ascii.
  assert (Hnd : Forall (fun c => Uuid.not_dash c = true) (hex_digits bytes)).
  { unfold hex_digits. apply Forall_map.
    eapply Forall_impl; [by apply (to_digits_bound 16)|].
    intros d Hd. by apply hex_char_not_dash. }
  assert (Hkeep : forall l : list ascii, Forall (fun c => Uuid.not_dash c = true) l ->
                    forall r, filter (fun c => Uuid.not_dash c = true) (l ++ "-"%char :: r)
                              = l ++ filter (fun c => Uuid.not_dash c = true) r).
  { intros l Hl r. rewrite filter_app, filter_cons_False by done. by rewrite filter_all. }
  rewrite !Hkeep by (repeat first [apply Forall_take | apply Forall_drop]; done).
  rewrite filter_all by (by apply Forall_drop).
  rewrite (take_drop_chain _ 16 4), (take_drop_chain _ 12 4), (take_drop_chain _ 8 4).
  rewrite take_drop. unfold hex_digits.
  rewrite (decode_encode _ _ 16); [|apply hex_val_char|by apply to_digits_bound].
  rewrite of_to_digits by done. by apply N.mod_small.
Qed.

(** *** Generation *)

Lemma generate_bound time random bytes :
  Ulid.generate time random = Some bytes ->
  (bytes < 2 ^ 128)%N
  /\ Ulid.time_of bytes = match time with At ms => ms | InvalidDate => 0%Z end.
Proof.
  unfold Ulid.generate, Ulid.time_of, MAX_MS.
  assert (Hr : (random mod 2 ^ 80 < 2 ^ 80)%N) by (by apply N.mod_lt).
  destruct time as [ms|].
  - destruct (_ && _) eqn:Hms; [|done]. intros [= <-].
    apply andb_prop in Hms as [H0 H1]. apply Z.leb_le in H0. apply Z.ltb_lt in H1.
    assert (Ht : (Z.to_N ms < 2 ^ 48)%N) by lia.
    split.
    + change (2 ^ 128)%N with (2 ^ 48 * 2 ^ 80)%N. nia.
    + rewrite N.div_add_l by done. rewrite N.div_small by done. lia.
  - intros [= <-]. split.
    + eapply N.lt_trans; [exact Hr|]. by apply N.pow_lt_mono_r.
    + by rewrite N.div_small.
Qed.

Lemma parse_ulid_text bytes :
  (bytes < 2 ^ 128)%N -> parseBytes (Ulid.toCanonical bytes) = Some bytes.
Proof.
  intros Hb. unfold parseBytes. by rewrite ulid_canonical, ulid_decode.
Qed.

Lemma parse_uuid_text bytes :
  (bytes < 2 ^ 128)%N -> parseBytes (Uuid.toCanonical bytes) = Some bytes.
Proof.
  intros Hb. unfold parseBytes.
  by rewrite uuid_not_ulid, uuid_canonical, uuid_decode.
Qed.

(** C5: at every time that [Ulid.generate] accepts (a date from the epoch to
    less than 2^48 milliseconds after it, or an invalid date, whose time is
    written as 0), [makeUuid] returns the UUID text of a value below [2^128]
    that carries the time (at any other time it throws [InvalidEpoch]); the
    UUID text and the ULID text of that value both parse back to the value
    and to the same canonical pair; and a text that is neither a canonical
    ULID, a canonical UUID nor a raw UUID is rejected. *)
Theorem identifier_duality env time st :
  (if valid_epoch time
   then exists bytes,
       makeUuid env time st = ((draw st).1, Ok (Uuid.toCanonical bytes))
       /\ (bytes < 2 ^ 128)%N
       /\ Ulid.time_of bytes = match time with At ms => ms | InvalidDate => 0%Z end
       /\ parseBytes (Ulid.toCanonical bytes) = Some bytes
       /\ parseBytes (Uuid.toCanonical bytes) = Some bytes
       /\ parseUuidOrUlid (Ulid.toCanonical bytes)
          = Some (Uuid.toCanonical bytes, Ulid.toCanonical bytes)
       /\ parseUuidOrUlid (Uuid.toCanonical bytes)
          = Some (Uuid.toCanonical bytes, Ulid.toCanonical bytes)
   else makeUuid env time st = ((draw st).1, Stop (Throw InvalidEpoch)))
  /\ (forall s, Ulid.isCanonical s = false -> Uuid.isCanonical s = false ->
                Uuid.isRaw s = false -> parseUuidOrUlid s = None).
Proof.
  split.
  - destruct (valid_epoch time) eqn:Hvalid.
    + destruct (generate_valid time (entropy env (drawn st)) Hvalid) as [bytes Hgen].
      destruct (generate_bound _ _ _ Hgen) as [Hb Ht].
      exists bytes. split.
      { unfold makeUuid, mbind, M_bind. cbn [draw]. by rewrite Hgen. }
      split; [done|]. split; [done|].
      split; [by apply parse_ulid_text|]. split; [by apply parse_uuid_text|].
      unfold parseUuidOrUlid. by rewrite parse_ulid_text, parse_uuid_text by done.
    + unfold makeUuid, mbind, M_bind. cbn [draw].
      by rewrite generate_invalid.
  - intros s Hu Hc Hraw. unfold parseUuidOrUlid, parseBytes, Uuid.fromRaw.
    by rewrite Hu, Hc, Hraw.
Qed.

Lemma identifier_duality_witness :
  let env := Fixture.run false Fixture.source [] Fixture.accept_all in
  let st := initial [] [] in
  (exists bytes,
     makeUuid env (At 1700000000000) st = ((draw st).1, Ok (Uuid.toCanonical bytes))
     /\ (bytes < 2 ^ 128)%N
     /\ Ulid.time_of bytes = 1700000000000%Z
     /\ parseBytes (Ulid.toCanonical bytes) = Some bytes
     /\ parseBytes (Uuid.toCanonical bytes) = Some bytes
     /\ parseUuidOrUlid (Ulid.toCanonical bytes)
        = Some (Uuid.toCanonical bytes, Ulid.toCanonical bytes)
     /\ parseUuidOrUlid (Uuid.toCanonical bytes)
        = Some (Uuid.toCanonical bytes, Ulid.toCanonical bytes))
  /\ (forall s, Ulid.isCanonical s = false -> Uuid.isCanonical s = false ->
                Uuid.isRaw s = false -> parseUuidOrUlid s = None).
Proof.
  apply (identifier_duality (Fixture.run false Fixture.source [] Fixture.accept_all)
           (At 1700000000000) (initial [] [])).
Defined.

(** ** What the derived rows carry *)

Lemma seeded_seed time id : seeded time id -> seed_of id = seed_time time.
Proof.
  intros (random & bytes & Hgen & ->). unfold seed_of.
  destruct (generate_bound _ _ _ Hgen) as [Hb Ht]. by rewrite uuid_decode.
Qed.

Lemma Forall2_elem_r {X Y} (R : X -> Y -> Prop) (xs : list X) (ys : list Y) y :
  Forall2 R xs ys -> y ∈ ys -> exists x, x ∈ xs /\ R x y.
Proof.
  induction 1 as [|x y' xs ys Hxy _ IH]; intros Hy.
  - by apply elem_of_nil in Hy.
  - apply elem_of_cons in Hy as [->|Hy].
    + exists x. split; [left|done].
    + destruct (IH Hy) as (x' & Hx' & HR). exists x'. split; [by right|done].
Qed.

Lemma elem_of_concat {X} (x : X) (ls : list (list X)) :
  x ∈ concat ls -> exists l, l ∈ ls /\ x ∈ l.
Proof.
  rewrite list_elem_of_In, in_concat. intros (l & Hl & Hx).
  exists l. by rewrite !list_elem_of_In.
Qed.

Lemma Forall2_elem_l {X Y} (R : X -> Y -> Prop) (xs : list X) (ys : list Y) x :
  Forall2 R xs ys -> x ∈ xs -> exists y, y ∈ ys /\ R x y.
Proof.
  induction 1 as [|x' y xs ys Hxy _ IH]; intros Hx.
  - by apply elem_of_nil in Hx.
  - apply elem_of_cons in Hx as [->|Hx].
    + exists y. split; [left|done].
    + destruct (IH Hx) as (y' & Hy' & HR). exists y'. split; [by right|done].
Qed.

Lemma elem_of_concat_r {X} (x : X) (l : list X) (ls : list (list X)) :
  l ∈ ls -> x ∈ l -> x ∈ concat ls.
Proof.
  rewrite !list_elem_of_In. intros Hl Hx. apply in_concat. by exists l.
Qed.

(** where a derived row comes from *)
Lemma derived_cases env up user ex :
  derived env up user ex ->
  exists uid,
    seeded (userCreatedAt user) uid
    /\ forall e, e ∈ ex ->
         e = (Knex.Pool, RUser (user_row user uid))
         \/ (exists h id, truthy_string (su_password_hash user) = Some h
               /\ seeded (userCreatedAt user) id
               /\ e = (Knex.Pool,
                       RUserPassword {| mp_user_password_id := id; mp_user_id := uid;
                                        mp_hashed_password := h;
                                        mp_created_at := userCreatedAt user;
                                        mp_version := 1 |}))
         \/ (exists t, t ∈ emails_of (synapse env) user /\ email_row uid t e)
         \/ (exists x, x ∈ resolved_of up (synapse env) user /\ link_row up user uid x e)
         \/ (exists a rows, a ∈ imported_tokens (synapse env) user
               /\ token_rows (synapse env) user uid a rows /\ e ∈ rows).
Proof.
  intros (uid & pw & emails & links & groups & Huid & -> & Hpw & Hemails & Hlinks & Hgroups).
  exists uid. split; [done|]. intros e He.
  apply elem_of_cons in He as [->|He]; [by left|]. right.
  apply elem_of_app in He as [He|He].
  { left. unfold password_rows in Hpw.
    destruct (truthy_string (su_password_hash user)) as [h|].
    - destruct Hpw as (id & Hid & ->). apply list_elem_of_singleton in He as ->.
      by exists h, id.
    - subst pw. by apply elem_of_nil in He. }
  right. apply elem_of_app in He as [He|He].
  { left. by eapply Forall2_elem_r. }
  right. apply elem_of_app in He as [He|He].
  { left. by eapply Forall2_elem_r. }
  right. apply elem_of_concat in He as (rows & Hrows & He).
  destruct (Forall2_elem_r _ _ _ _ Hgroups Hrows) as (a & Ha & Hrow).
  by exists a, rows.
Qed.

Lemma token_rows_cases src user uid a rows e :
  token_rows src user uid a rows -> e ∈ rows ->
  exists id,
    seeded (tokenCreatedAt user a) id
    /\ ((exists m, e = (Knex.Pool, RCompatSession m) /\ ms_compat_session_id m = id
                   /\ ms_created_at m = tokenCreatedAt user a
                   /\ ms_device_id m = at_device_id a)
        \/ (exists m, e = (Knex.Pool, RCompatAccessToken m)
                      /\ ma_compat_access_token_id m = id
                      /\ ma_created_at m = tokenCreatedAt user a
                      /\ ma_access_token m = at_token a)
        \/ (exists m, e = (Knex.Pool, RCompatRefreshToken m)
                      /\ mr_compat_refresh_token_id m = id
                      /\ mr_created_at m = tokenCreatedAt user a)).
Proof.
  intros (sid & aid & Hsid & Haid & tail & -> & Htail) He.
  apply elem_of_cons in He as [->|He]; [exists sid; split; [done|]; left; by eexists|].
  apply elem_of_cons in He as [->|He];
    [exists aid; split; [done|]; right; left; by eexists|].
  destruct (refresh_of src a) as [rt|].
  - destruct Htail as (rid & Hrid & ->). apply list_elem_of_singleton in He as ->.
    exists rid. split; [done|]. right; right. by eexists.
  - subst tail. by apply elem_of_nil in He.
Qed.

(** C10: the creation timestamp of a user is multiplied by 1000 before it
    becomes the created-at time of the user row and the seed of the user
    identifier, whereas the added-at and validated-at times of a three-pid and
    the last-validated time of an access token are used as they are: the
    row of the user comes first and carries the scaled time; each e-mail
    three-pid has a row with its added-at and validated-at times as dates and
    an identifier seeded at the added-at time; each imported access token has
    a session row dated and seeded at its last-validated time, or at the
    scaled creation time when it has none; and no user, e-mail or session row
    is derived with other times. *)
Theorem timestamp_units env up user st st' w ex :
  deriveUser env up user st = (st', Ok (w, ex)) ->
  let created := new_Date (su_creation_ts user * 1000) in
  (exists m rest,
     ex = (Knex.Pool, RUser m) :: rest
     /\ mu_created_at m = created
     /\ seed_of (mu_user_id m) = seed_time created)
  /\ (forall t, t ∈ emails_of (synapse env) user ->
        exists m, (Knex.Pool, RUserEmail m) ∈ ex
          /\ me_email m = Js.toLowerCase (tp_address t)
          /\ me_created_at m = new_Date (tp_added_at t)
          /\ seed_of (me_user_email_id m) = seed_time (new_Date (tp_added_at t))
          /\ me_confirmed_at m = option_map new_Date (truthy_num (tp_validated_at t)))
  /\ (forall a, a ∈ imported_tokens (synapse env) user ->
        exists m, (Knex.Pool, RCompatSession m) ∈ ex
          /\ ms_device_id m = at_device_id a
          /\ ms_created_at m = match truthy_num (at_last_validated a) with
                               | Some t => new_Date t
                               | None => created
                               end
          /\ seed_of (ms_compat_session_id m) = seed_time (ms_created_at m))
  /\ (forall m, (Knex.Pool, RUser m) ∈ ex ->
        mu_created_at m = created /\ seed_of (mu_user_id m) = seed_time created)
  /\ (forall m, (Knex.Pool, RUserEmail m) ∈ ex ->
        exists t, t ∈ emails_of (synapse env) user
          /\ me_created_at m = new_Date (tp_added_at t)
          /\ seed_of (me_user_email_id m) = seed_time (new_Date (tp_added_at t))
          /\ me_confirmed_at m = option_map new_Date (truthy_num (tp_validated_at t)))
  /\ (forall m, (Knex.Pool, RCompatSession m) ∈ ex ->
        exists a, a ∈ access_tokens_of (synapse env) user
          /\ ms_created_at m = match truthy_num (at_last_validated a) with
                               | Some t => new_Date t
                               | None => created
                               end
          /\ seed_of (ms_compat_session_id m) = seed_time (ms_created_at m)).
Proof.
  intros Hrun created. destruct (deriveUser_rows _ _ _ _ _ _ _ Hrun) as (Hder & _ & _).
  destruct (derived_cases _ _ _ _ Hder) as (uid & Huid & Hcases).
  destruct Hder as (uid' & pw & emails & links & groups
                    & Huid' & Hex & Hpw & Hemails & Hlinks & Hgroups).
  split; [|split; [|split; [|split; [|split]]]].
  - exists (user_row user uid'), (pw ++ emails ++ links ++ concat groups).
    split; [done|]. split; [done|]. by apply seeded_seed.
  - intros t Ht.
    destruct (Forall2_elem_l _ _ _ _ Hemails Ht) as (e & He & id & Hid & ->).
    eexists. split.
    { rewrite Hex. right. rewrite !elem_of_app. right. left. exact He. }
    simpl. split; [done|]. split; [done|]. split; [by apply seeded_seed|done].
  - intros a Ha.
    destruct (Forall2_elem_l _ _ _ _ Hgroups Ha)
      as (rows & Hrows & sid & aid & Hsid & Haid & tail & -> & _).
    eexists. split.
    { rewrite Hex. right. rewrite !elem_of_app. right. right. right.
      eapply elem_of_concat_r; [exact Hrows|]. left. }
    simpl. split; [done|]. split; [done|]. by apply seeded_seed.
  - intros m Hm.
    destruct (Hcases _ Hm) as [[= ->]|[(h & id & _ & _ & [=])|[(t & _ & id & _ & [=])
      |[(x & _ & id & p & _ & _ & [=])|(a & rows & _ & Hrows & He)]]]].
    + split; [done|]. by apply seeded_seed.
    + destruct (token_rows_cases _ _ _ _ _ _ Hrows He)
        as (id & _ & [(m' & [=] & _)|[(m' & [=] & _)|(m' & [=] & _)]]).
  - intros m Hm.
    destruct (Hcases _ Hm) as [[=]|[(h & id & _ & _ & [=])|[(t & Ht & id & Hid & [= ->])
      |[(x & _ & id & p & _ & _ & [=])|(a & rows & _ & Hrows & He)]]]].
    + exists t. split; [done|]. split; [done|]. split; [by apply seeded_seed|done].
    + destruct (token_rows_cases _ _ _ _ _ _ Hrows He)
        as (id & _ & [(m' & [=] & _)|[(m' & [=] & _)|(m' & [=] & _)]]).
  - intros m Hm.
    destruct (Hcases _ Hm) as [[=]|[(h & id & _ & _ & [=])|[(t & Ht & id & Hid & [=])
      |[(x & _ & id & p & _ & _ & [=])|(a & rows & Ha & Hrows & He)]]]].
    destruct (token_rows_cases _ _ _ _ _ _ Hrows He)
      as (id & Hid & [(m' & [= <-] & Hmid & Hmt & _)|[(m' & [=] & _)|(m' & [=] & _)]]).
    exists a. unfold imported_tokens in Ha.
    destruct (Z.eqb (su_deactivated user) 1); [by apply elem_of_nil in Ha|].
    split; [done|]. split; [done|]. rewrite Hmid, Hmt. by apply seeded_seed.
Qed.

Lemma localpart_eq name : localpart name = tail (before_colon name).
Proof. unfold localpart. rewrite split_first. simpl. by destruct (before_colon name). Qed.

(** C9: the migrated user name is the source name up to its first colon,
    without its first character, whatever that character is: a name without
    a colon loses its first character only, and a prefix of at most one
    character gives the empty name. *)
Theorem migrated_username env up user st st' w ex :
  deriveUser env up user st = (st', Ok (w, ex)) ->
  let name := su_name user in
  (exists m rest, ex = (Knex.Pool, RUser m) :: rest
                  /\ mu_username m = tail (before_colon name))
  /\ (forall c rest, name = String c rest -> c <> ":"%char ->
        tail (before_colon name) = before_colon rest)
  /\ (cut_colon name = None -> tail (before_colon name) = tail name)
  /\ (String.length (before_colon name) <= 1 -> tail (before_colon name) = "").
Proof.
  intros Hrun name. destruct (deriveUser_rows _ _ _ _ _ _ _ Hrun) as (Hder & _ & _).
  destruct Hder as (uid & pw & emails & links & groups & _ & -> & _).
  split; [|split; [|split]].
  - eexists _, _. split; [done|]. simpl. apply localpart_eq.
  - intros c rest -> Hc. simpl.
    destruct (Ascii.eqb c ":") eqn:Heq; [|done]. by apply Ascii.eqb_eq in Heq.
  - intros Hcut. by rewrite before_colon_no_cut.
  - intros Hlen. destruct (before_colon name) as [|c [|c' r]]; simpl in *; [done|done|lia].
Qed.


(** *** Warnings: recording, escalation and replay *)

Lemma replayed_nil s : warnings s = [] -> replayed s.
Proof. intros Hw. exists (log s). rewrite Hw. simpl. by rewrite app_nil_r. Qed.

Lemma replayed_logged s m :
  replayed (logged s (m :: replay (warnings s))).
Proof. exists (log s ++ [m]). simpl. by rewrite <- app_assoc. Qed.

Lemma quiet_warnings_abort x s : warnings s = [] -> replay_at_end x s.
Proof.
  intros Hw. destruct x as [c|[| | | |[]]]; simpl; auto using replayed_nil.
Qed.

Lemma commitUser_escalates env user w ex st :
  (0 < w)%nat ->
  commitUser env user w ex st =
    if dryRun env
    then (logged st [(WARN, msg_user_warnings (su_name user) w)], Ok tt)
    else (logged st ((FATAL, msg_user_warnings (su_name user) w) :: replay (warnings st)),
          Stop (Exit 1)).
Proof.
  intros Hw. unfold commitUser.
  destruct (0 <? w)%nat eqn:Hpos; [|apply Nat.ltb_ge in Hpos; lia].
  destruct (dryRun env) eqn:Hdry; simpl; [done|]. by apply fatal_real.
Qed.

Lemma migrateUser_replay env up user st :
  (dryRun env = false -> warnings st = []) ->
  wp (migrateUser env up user)
    (fun _ s => dryRun env = false -> warnings s = [])
    replay_at_end st.
Proof.
  intros Hpre. unfold migrateUser. wp_step.
  eapply wp_mono; [apply (deriveUser_spec env replay_at_end)| |done].
  - done.
  - done.
  - intros s m _. apply replayed_logged.
  - intros [w ex] s (_ & Hw & Hs). simpl in *.
    destruct (0 <? w)%nat eqn:Hpos.
    + apply Nat.ltb_lt in Hpos. unfold wp. rewrite commitUser_escalates by done.
      destruct (dryRun env) eqn:Hdry; [done|]. apply replayed_logged.
    + apply Nat.ltb_ge in Hpos.
      assert (Hnone : warnings_of (synapse env) user = []).
      { destruct (warnings_of (synapse env) user); [done|]. simpl in Hw. lia. }
      rewrite Hnone, app_nil_r in Hs.
      destruct (dryRun env) eqn:Hdry.
      * unfold commitUser. rewrite Hdry.
        replace (0 <? w)%nat with false by (symmetry; apply Nat.ltb_ge; lia). done.
      * assert (Hs0 : warnings s = []) by (rewrite Hs; by apply Hpre).
        eapply wp_mono;
          [apply (keeps_wp (fun s => warnings s = [])); [|exact Hs0] | |].
        -- unfold commitUser, run_execution, transaction, commit, rollback, fatal,
             replay_warnings.
           repeat keeps_step; done.
        -- done.
        -- intros x s'. apply quiet_warnings_abort.
Qed.

Lemma processUsers_replay env up rows st :
  (dryRun env = false -> warnings st = []) ->
  wp (processUsers env up rows)
    (fun _ s => dryRun env = false -> warnings s = [])
    replay_at_end st.
Proof.
  intros Hpre.
  apply (wp_processUsers env up rows
           (fun _ _ s => dryRun env = false -> warnings s = [])); [| |done].
  - intros done user rest n s _ Hs. by apply migrateUser_replay.
  - done.
Qed.

Lemma migrate_replay env rows providers :
  wp (migrate env) (fun _ s => replayed s) replay_at_end (initial rows providers).
Proof.
  unfold migrate. wp_step.
  eapply wp_mono;
    [apply (keeps_wp (fun s => warnings s = [])); [|done] | |].
  { apply keeps_foldM. intros. unfold loadProvider. repeat keeps_step; done. }
  2:{ intros x s. apply quiet_warnings_abort. }
  intros up s1 Hs1. wp_step.
  apply wp_query; [intros _|intros _; by apply quiet_warnings_abort].
  wp_step. unfold wp at 1. simpl.
  wp_step.
  apply wp_mono with (Q := fun _ s => warnings s = []) (E := replay_at_end);
    [| |done].
  { destruct (0 <? _)%nat; [|by wp_step].
    apply wp_fatal; [done|]. intros _. apply replayed_logged. }
  intros a2 s2 Hs2. wp_step.
  apply wp_mono with (Q := fun _ s => dryRun env = false -> warnings s = [])
                     (E := replay_at_end); [| |done].
  { by apply processUsers_replay. }
  intros n s3 _. unfold summary.
  wp_step. unfold wp at 1. simpl. wp_step. wp_step. wp_step.
  unfold wp at 1. rewrite replay_warnings_eq.
  destruct (0 <? fatals s3)%nat; unfold wp; simpl; by eexists.
Qed.

(** C8, as amended: when the rows of a user are derived, each non-e-mail
    three-pid and each access token whose refresh token cannot be found has
    added one warning for the user while all the sibling rows have been
    derived; a user with warnings makes a real run exit through [fatal] and
    makes a dry run log one warning line and go on; and the log of a run ends
    with the replay of every warning accumulated when the run ends by the
    summary or by a fatal exit, but not when a timestamp that the identifier
    library refuses or a query that the source store fails stops it on the
    way. *)
Theorem warning_policy env up user st st' w ex :
  deriveUser env up user st = (st', Ok (w, ex)) ->
  w = length (warnings_of (synapse env) user)
  /\ warnings st' = warnings st ++ warnings_of (synapse env) user
  /\ derived env up user ex
  /\ ((0 < w)%nat ->
      migrateUser env up user st =
        if dryRun env
        then (logged st' [(WARN, msg_user_warnings (su_name user) w)], Ok tt)
        else (logged st' ((FATAL, msg_user_warnings (su_name user) w)
                            :: replay (warnings st')),
              Stop (Exit 1)))
  /\ (forall rows providers,
        let r := migrate env (initial rows providers) in
        match r.2 with
        | Ok _ => replayed r.1
        | Stop x => replay_at_end x r.1
        end).
Proof.
  intros Hrun. destruct (deriveUser_rows _ _ _ _ _ _ _ Hrun) as (? & ? & ?).
  split; [done|]. split; [done|]. split; [done|]. split.
  - intros Hw. unfold migrateUser. erewrite bind_ok by exact Hrun.
    by apply commitUser_escalates.
  - intros rows providers r. subst r.
    pose proof (migrate_replay env rows providers) as Hwp. unfold wp in Hwp.
    by destruct (migrate env (initial rows providers)) as [s [a|x]].
Qed.

(** C8, as stated, fails in a dry run that meets a user with warnings and
    then a user whose creation time the identifier library refuses: the run
    stops on [InvalidEpoch] and the two warnings accumulated are never
    logged. *)
Lemma warnings_lost_on_exception :
  ~ replay_as_stated (Fixture.run true Sample.dave_then_frank [] Fixture.accept_all) [] [].
Proof.
  unfold replay_as_stated, replayed. intros [before Hlog].
  apply (f_equal (fun l => last l)) in Hlog. rewrite last_app in Hlog.
  vm_compute in Hlog. discriminate Hlog.
Qed.

Lemma timestamp_units_witness :
  let env := Fixture.run true Fixture.full [] Fixture.accept_all in
  let user := Fixture.dave in
  let ex := Fixture.dave_locals.2 in
  let created := new_Date (su_creation_ts user * 1000) in
  (exists m rest,
     ex = (Knex.Pool, RUser m) :: rest
     /\ mu_created_at m = created
     /\ seed_of (mu_user_id m) = seed_time created)
  /\ (forall t, t ∈ emails_of (synapse env) user ->
        exists m, (Knex.Pool, RUserEmail m) ∈ ex
          /\ me_email m = Js.toLowerCase (tp_address t)
          /\ me_created_at m = new_Date (tp_added_at t)
          /\ seed_of (me_user_email_id m) = seed_time (new_Date (tp_added_at t))
          /\ me_confirmed_at m = option_map new_Date (truthy_num (tp_validated_at t)))
  /\ (forall a, a ∈ imported_tokens (synapse env) user ->
        exists m, (Knex.Pool, RCompatSession m) ∈ ex
          /\ ms_device_id m = at_device_id a
          /\ ms_created_at m = match truthy_num (at_last_validated a) with
                               | Some t => new_Date t
                               | None => created
                               end
          /\ seed_of (ms_compat_session_id m) = seed_time (ms_created_at m))
  /\ (forall m, (Knex.Pool, RUser m) ∈ ex ->
        mu_created_at m = created /\ seed_of (mu_user_id m) = seed_time created)
  /\ (forall m, (Knex.Pool, RUserEmail m) ∈ ex ->
        exists t, t ∈ emails_of (synapse env) user
          /\ me_created_at m = new_Date (tp_added_at t)
          /\ seed_of (me_user_email_id m) = seed_time (new_Date (tp_added_at t))
          /\ me_confirmed_at m = option_map new_Date (truthy_num (tp_validated_at t)))
  /\ (forall m, (Knex.Pool, RCompatSession m) ∈ ex ->
        exists a, a ∈ access_tokens_of (synapse env) user
          /\ ms_created_at m = match truthy_num (at_last_validated a) with
                               | Some t => new_Date t
                               | None => created
                               end
          /\ seed_of (ms_compat_session_id m) = seed_time (ms_created_at m)).
Proof.
  apply (timestamp_units (Fixture.run true Fixture.full [] Fixture.accept_all)
           Fixture.providers Fixture.dave (initial [] [])
           (deriveUser (Fixture.run true Fixture.full [] Fixture.accept_all)
              Fixture.providers Fixture.dave (initial [] [])).1
           Fixture.dave_locals.1 Fixture.dave_locals.2).
  vm_compute. reflexivity.
Defined.

Lemma migrated_username_witness :
  let name := su_name Fixture.alice in
  (exists m rest, Fixture.alice_locals.2 = (Knex.Pool, RUser m) :: rest
                  /\ mu_username m = tail (before_colon name))
  /\ (forall c rest, name = String c rest -> c <> ":"%char ->
        tail (before_colon name) = before_colon rest)
  /\ (cut_colon name = None -> tail (before_colon name) = tail name)
  /\ (String.length (before_colon name) <= 1 -> tail (before_colon name) = "").
Proof.
  apply (migrated_username (Fixture.run false Fixture.full [] Fixture.accept_all)
           Fixture.providers Fixture.alice (initial [] [])
           (deriveUser (Fixture.run false Fixture.full [] Fixture.accept_all)
              Fixture.providers Fixture.alice (initial [] [])).1
           Fixture.alice_locals.1 Fixture.alice_locals.2).
  vm_compute. reflexivity.
Defined.


Lemma warning_policy_witness :
  let env := Fixture.run true Fixture.full [] Fixture.accept_all in
  let user := Fixture.dave in
  let st := initial [] [] in
  let st' := (deriveUser env Fixture.providers user st).1 in
  let w := Fixture.dave_locals.1 in
  w = length (warnings_of (synapse env) user)
  /\ warnings st' = warnings st ++ warnings_of (synapse env) user
  /\ derived env Fixture.providers user Fixture.dave_locals.2
  /\ ((0 < w)%nat ->
      migrateUser env Fixture.providers user st =
        if dryRun env
        then (logged st' [(WARN, msg_user_warnings (su_name user) w)], Ok tt)
        else (logged st' ((FATAL, msg_user_warnings (su_name user) w)
                            :: replay (warnings st')),
              Stop (Exit 1)))
  /\ (forall rows providers,
        let r := migrate env (initial rows providers) in
        match r.2 with
        | Ok _ => replayed r.1
        | Stop x => replay_at_end x r.1
        end).
Proof.
  apply (warning_policy (Fixture.run true Fixture.full [] Fixture.accept_all)
           Fixture.providers Fixture.dave (initial [] [])
           (deriveUser (Fixture.run true Fixture.full [] Fixture.accept_all)
              Fixture.providers Fixture.dave (initial [] [])).1
           Fixture.dave_locals.1 Fixture.dave_locals.2).
  vm_compute. reflexivity.
Defined.

(** ** Redaction *)

Import Json.

(** *** Texts *)

Lemma sapp_cons c a b : String c a +:+ b = String c (a +:+ b).
Proof. done. Qed.

Lemma sapp_nil_l b : "" +:+ b = b.
Proof. done. Qed.

Lemma sapp_nil_r a : a +:+ "" = a.
Proof. induction a as [|c a IH]; [done|]. by rewrite sapp_cons, IH. Qed.

Lemma sapp_assoc a b c : (a +:+ b) +:+ c = a +:+ b +:+ c.
Proof. induction a as [|x a IH]; [done|]. by rewrite !sapp_cons, IH. Qed.

Lemma escape_char_guarded c :
  exists b, forall after_bs rest,
    guarded after_bs (escape_char c +:+ rest) = guarded b rest.
Proof.
  destruct c as [[] [] [] [] [] [] [] []];
    first [ by exists false | by exists true ].
Qed.

Lemma escape_guarded s after_bs : guarded after_bs (escape s) = true.
Proof.
  revert after_bs. induction s as [|c s IH]; intros after_bs; [done|].
  simpl. destruct (escape_char_guarded c) as [b Hb]. by rewrite Hb.
Qed.



Lemma escape_char_plain c :
  negb (Ascii.eqb c dquote) && negb (Ascii.eqb c backslash) && (32 <=? N_of_ascii c)%N = true ->
  escape_char c = String c "".
Proof.
  destruct c as [[] [] [] [] [] [] [] []]; try done.
Qed.

Lemma escape_plain s : plain s = true -> escape s = s.
Proof.
  induction s as [|c s IH]; [done|]. simpl. intros H.
  apply andb_prop in H as [Hc Hs]. rewrite escape_char_plain by done.
  by rewrite IH.
Qed.

Lemma plain_guarded s : plain s = true -> guarded false s = true.
Proof. intros H. rewrite <- (escape_plain s H). apply escape_guarded. Qed.

Lemma strip_prefix_cons a p b s :
  strip_prefix (String a p) (String b s) = if Ascii.eqb a b then strip_prefix p s else None.
Proof. done. Qed.

Lemma negb_eqb_false a b : negb (Ascii.eqb a b) = true -> Ascii.eqb b a = false.
Proof. rewrite Ascii.eqb_sym. apply negb_true_iff. Qed.

(** the name and the end of group 1 are not found at the head of a guarded
    text that is closed by a double quote with no value after it *)
Lemma no_name_in_guarded n e tail :
  wordy n = true -> guarded false e = true -> no_value_ahead tail = true ->
  strip_prefix (n +:+ String dquote (String ":" (String dquote "")))
    (e +:+ String dquote tail) = None.
Proof.
  intros Hn. revert e. induction n as [|a n IH]; intros e He Htail.
  - rewrite sapp_nil_l. destruct e as [|c e].
    + rewrite sapp_nil_l, strip_prefix_cons, Ascii.eqb_refl.
      destruct tail as [|c [|d tail]]; [done| |].
      * rewrite strip_prefix_cons. by destruct (Ascii.eqb ":" c).
      * rewrite !strip_prefix_cons. unfold no_value_ahead in Htail.
        rewrite (Ascii.eqb_sym ":" c), (Ascii.eqb_sym dquote d).
        destruct (Ascii.eqb c ":"); [|done]. by destruct (Ascii.eqb d dquote).
    + rewrite sapp_cons, strip_prefix_cons. cbn [guarded] in He.
      rewrite (Ascii.eqb_sym dquote c). by destruct (Ascii.eqb c dquote).
  - cbn [wordy] in Hn. apply andb_prop in Hn as [Ha Hn]. apply andb_prop in Ha as [Hq Hb].
    apply negb_true_iff in Hq, Hb.
    rewrite sapp_cons. destruct e as [|c e].
    + by rewrite sapp_nil_l, strip_prefix_cons, Hq.
    + rewrite sapp_cons, strip_prefix_cons. destruct (Ascii.eqb a c) eqn:Hac; [|done].
      apply Ascii.eqb_eq in Hac as <-. apply IH; [done| |done].
      cbn [guarded] in He. by rewrite Hq, Hb in He.
Qed.

(** with plain keys, group 1 is found at the head of a member only when the
    name is the key *)
Lemma name_is_key n k x y r :
  wordy n = true -> plain k = true ->
  strip_prefix (n +:+ String dquote x) (k +:+ String dquote y) = Some r -> n = k.
Proof.
  revert k. induction n as [|a n IH]; intros k Hn Hk.
  - destruct k as [|c k]; [done|]. rewrite sapp_nil_l, sapp_cons, strip_prefix_cons.
    cbn [plain] in Hk. rewrite (Ascii.eqb_sym dquote c).
    by destruct (Ascii.eqb c dquote).
  - cbn [wordy] in Hn. apply andb_prop in Hn as [Ha Hn]. apply andb_prop in Ha as [Hq Hb].
    apply negb_true_iff in Hq. rewrite sapp_cons. destruct k as [|c k].
    + by rewrite sapp_nil_l, strip_prefix_cons, Hq.
    + rewrite sapp_cons, strip_prefix_cons. destruct (Ascii.eqb a c) eqn:Hac; [|done].
      apply Ascii.eqb_eq in Hac as <-. intros H. f_equal. apply IH; [done| |done].
      cbn [plain] in Hk. by repeat (apply andb_prop in Hk as [Hk ?]).
Qed.



Lemma sensitive_wordy n : n ∈ SENSITIVE -> wordy n = true.
Proof. intros H. repeat (apply elem_of_cons in H as [->|H]; [done|]). by apply elem_of_nil in H. Qed.

Lemma match_here_none s names :
  (forall n, n ∈ names -> match_alt s n = None) -> match_here s names = None.
Proof.
  induction names as [|n names IH]; intros H; simpl; [done|].
  rewrite H by left. apply IH. intros n' Hn'. apply H. by right.
Qed.

Lemma match_alt_not_quote c s n :
  Ascii.eqb c dquote = false -> match_alt (String c s) n = None.
Proof.
  intros Hc. unfold match_alt, group1.
  by rewrite strip_prefix_cons, (Ascii.eqb_sym dquote c), Hc.
Qed.

Arguments skips : simpl never.

Lemma skips_cons c a b :
  (forall n, n ∈ SENSITIVE -> match_alt (String c (a +:+ b)) n = None) ->
  skips a b -> skips (String c a) b.
Proof. intros Hhere Hrest. split; [by apply match_here_none|done]. Qed.

Lemma replace_first_skip a b : skips a b -> replace_first (a +:+ b) = a +:+ replace_first b.
Proof.
  induction a as [|c a IH]; [done|]. intros [Hhere Hrest].
  rewrite sapp_cons in *. cbn [replace_first]. rewrite Hhere. by rewrite IH.
Qed.

Lemma skips_app a a' b : skips a (a' +:+ b) -> skips a' b -> skips (a +:+ a') b.
Proof.
  induction a as [|c a IH]; [done|]. intros [Hhere Hrest] Ha'.
  rewrite sapp_cons. split; [by rewrite <- sapp_cons, sapp_assoc|by apply IH].
Qed.

Lemma skips_quoteless a b : quoteless a = true -> skips a b.
Proof.
  induction a as [|c a IH]; [done|]. cbn [quoteless]. intros H.
  apply andb_prop in H as [Hc Ha]. apply negb_true_iff in Hc.
  split; [|by apply IH]. apply match_here_none. intros n _.
  rewrite sapp_cons. by apply match_alt_not_quote.
Qed.

Lemma closes_cases tail :
  closes tail = true -> exists r, tail = String "," r \/ tail = String "}" r.
Proof.
  destruct tail as [|c r]; [done|]. simpl. intros H. exists r.
  apply orb_prop in H as [H|H]; apply Ascii.eqb_eq in H as ->; auto.
Qed.

Lemma closes_no_name n x tail :
  n ∈ String ":" "" :: SENSITIVE -> closes tail = true ->
  strip_prefix (n +:+ x) tail = None.
Proof.
  intros Hn Htail. destruct (closes_cases _ Htail) as (r & [-> | ->]);
    repeat (apply elem_of_cons in Hn as [->|Hn]; [done|]); by apply elem_of_nil in Hn.
Qed.

Lemma closes_no_value tail : closes tail = true -> no_value_ahead tail = true.
Proof. intros H. by destruct (closes_cases _ H) as (r & [-> | ->]); destruct r. Qed.

Lemma match_alt_quote s n :
  match_alt (String dquote s) n =
    r ← strip_prefix (n +:+ String dquote (String ":" (String dquote ""))) s;
    rest ← until_quote r;
    Some (group1 n +:+ "redacted" +:+ String dquote rest).
Proof. unfold match_alt, group1. by rewrite strip_prefix_cons, Ascii.eqb_refl. Qed.

Lemma skips_guarded e after_bs tail :
  guarded after_bs e = true -> closes tail = true -> skips e (String dquote tail).
Proof.
  intros He Htail. revert after_bs He. induction e as [|c e IH]; intros after_bs He; [done|].
  cbn [guarded] in He. destruct (Ascii.eqb c dquote) eqn:Hc.
  - apply andb_prop in He as [_ He]. apply Ascii.eqb_eq in Hc as ->.
    split; [|by apply (IH false)].
    apply match_here_none. intros n Hn. rewrite sapp_cons, match_alt_quote.
    rewrite no_name_in_guarded; auto using sensitive_wordy, closes_no_value.
  - split; [|by eapply IH]. apply match_here_none. intros n _.
    rewrite sapp_cons. by apply match_alt_not_quote.
Qed.

Lemma skips_closing_quote tail : closes tail = true -> skips (String dquote "") tail.
Proof.
  intros Htail. split; [|done]. apply match_here_none. intros n Hn.
  rewrite sapp_cons, sapp_nil_l, match_alt_quote.
  rewrite closes_no_name; [done| by right |done].
Qed.

Lemma skips_quoted s tail : closes tail = true -> skips (quoted s) tail.
Proof.
  intros Htail. unfold quoted. rewrite <- sapp_cons.
  apply skips_app; [|by apply skips_closing_quote].
  rewrite sapp_cons, sapp_nil_l.
  split; [|apply (skips_guarded _ false); [apply escape_guarded|done]].
  apply match_here_none. intros n Hn. rewrite sapp_cons, match_alt_quote.
  rewrite no_name_in_guarded;
    auto using sensitive_wordy, closes_no_value, escape_guarded.
Qed.

(** *** Values *)

Lemma uint_quoteless u : quoteless (NilEmpty.string_of_uint u) = true.
Proof. induction u; simpl; done. Qed.

Lemma of_Z_quoteless z : quoteless (Js.of_Z z) = true.
Proof.
  unfold Js.of_Z. destruct (Z.to_int z) as [u|u]; simpl.
  - destruct u; simpl; try done; apply uint_quoteless.
  - destruct u; simpl; try done; apply uint_quoteless.
Qed.

Lemma scalar_quoteless v :
  scalar v = true -> is_str v = false -> quoteless (stringify v) = true.
Proof.
  destruct v as [| [] | z | s | l | fs]; try done. intros _ _. apply of_Z_quoteless.
Qed.

Lemma quoteless_app_head sv tail :
  quoteless sv = true -> closes tail = true ->
  no_value_ahead (String ":" (sv +:+ tail)) = true.
Proof.
  intros Hsv Htail. destruct sv as [|c sv].
  - rewrite sapp_nil_l. by destruct (closes_cases _ Htail) as (r & [-> | ->]).
  - rewrite sapp_cons. cbn [quoteless] in Hsv. apply andb_prop in Hsv as [Hc _].
    apply negb_true_iff in Hc. simpl. by rewrite Hc.
Qed.

Lemma skips_value v tail :
  scalar v = true -> closes tail = true -> skips (stringify v) tail.
Proof.
  intros Hv Htail. destruct (is_str v) eqn:Hstr.
  - destruct v; try done. by apply skips_quoted.
  - by apply skips_quoteless, scalar_quoteless.
Qed.

Lemma plain_quoteless k : plain k = true -> quoteless k = true.
Proof.
  induction k as [|c k IH]; [done|]. cbn [plain quoteless]. intros H.
  repeat (apply andb_prop in H as [H ?]). rewrite H. by rewrite IH.
Qed.

Lemma colon_no_name n x y :
  n ∈ SENSITIVE -> strip_prefix (n +:+ x) (String ":" y) = None.
Proof.
  intros Hn. repeat (apply elem_of_cons in Hn as [->|Hn]; [done|]).
  by apply elem_of_nil in Hn.
Qed.

Lemma skips_member kv tail :
  passed kv = true -> closes tail = true ->
  skips (member kv.1 (stringify kv.2)) tail.
Proof.
  destruct kv as [k v]. unfold passed. cbn [fst snd]. intros H Htail.
  apply andb_prop in H as [H Hsens]. apply andb_prop in H as [Hk Hv].
  unfold member, quoted. rewrite (escape_plain k Hk).
  rewrite sapp_cons, sapp_assoc, !sapp_cons, !sapp_nil_l.
  apply skips_cons.
  - intros n Hn.
    rewrite match_alt_quote, !sapp_assoc, !sapp_cons.
    destruct (strip_prefix _ _) as [r|] eqn:Hstrip; [|done]. exfalso.
    destruct (is_str v) eqn:Hstr.
    + apply name_is_key in Hstrip; [|by apply sensitive_wordy|done]. subst n.
      rewrite bool_decide_eq_true_2 in Hsens by done. done.
    + rewrite no_name_in_guarded in Hstrip; [done|by apply sensitive_wordy| |].
      * by apply plain_guarded.
      * apply quoteless_app_head; [by apply scalar_quoteless|done].
  - apply skips_app.
    + apply skips_quoteless. by apply plain_quoteless.
    + apply skips_cons.
      * intros n Hn. rewrite match_alt_quote, sapp_cons.
        by rewrite colon_no_name.
      * apply skips_cons.
        -- intros n _. by apply match_alt_not_quote.
        -- by apply skips_value.
Qed.

(** *** Objects *)

Lemma closing_closes rest : closes (closing rest) = true.
Proof. by destruct rest. Qed.

Lemma join_split xs y zs :
  join "," (xs ++ y :: zs) +:+ "}"
  = Js.concat (map (fun x => x +:+ ",") xs) +:+ y +:+ closing zs.
Proof.
  induction xs as [|x xs IH].
  - simpl. destruct zs as [|z zs]; [done|].
    unfold closing. by rewrite !sapp_assoc.
  - cbn [app map Js.concat]. rewrite !sapp_assoc, <- IH.
    destruct (xs ++ y :: zs) eqn:Happ; [by destruct xs|].
    cbn [join]. by rewrite !sapp_assoc.
Qed.

Lemma skips_members pre rest :
  forallb passed pre = true ->
  skips (Js.concat (map (fun x => x +:+ ",") (members pre))) rest.
Proof.
  induction pre as [|kv pre IH]; [done|]. cbn [forallb]. intros H.
  apply andb_prop in H as [Hkv Hpre]. cbn [members map Js.concat].
  apply skips_app; [|by apply IH]. apply skips_app.
  - by apply skips_member.
  - by apply skips_quoteless.
Qed.



Lemma stringify_object fields :
  stringify (Obj fields) = "{" +:+ join "," (members fields) +:+ "}".
Proof. done. Qed.



(** an object without a text under one of the four names is rendered as it
    is *)
Lemma redact_nothing fields :
  forallb passed fields = true ->
  stringifyAndRedact (Obj fields) = stringify (Obj fields).
Proof.
  intros Hall. unfold stringifyAndRedact. rewrite stringify_object.
  destruct fields as [|kv fields _] using rev_ind; [done|].
  rewrite forallb_app in Hall. apply andb_prop in Hall as [Hpre Hkv].
  cbn [forallb] in Hkv. apply andb_prop in Hkv as [Hkv _].
  unfold members. rewrite map_app. cbn [map]. fold (members fields).
  rewrite join_split.
  rewrite replace_first_skip by (by apply skips_quoteless).
  rewrite replace_first_skip by (by apply skips_members).
  rewrite replace_first_skip by (by apply skips_member).
  done.
Qed.










(** * Further properties of the migration *)

(** ** How a run ends *)

Lemma migrate_ends env : ends (allowed_end env) (migrate env).
Proof.
  unfold migrate, summary, processUsers, migrateUsers, migrateUser, deriveUser, commitUser,
    loadProvider, importThreePid, importExternalId, importAccessToken, run_execution,
    transaction, commit, rollback.
  repeat ends_step; simpl; try done;
    try (split; [done|]); try intros _; by destruct (dryRun env).
Qed.

Lemma dry_run_quiet env st0 :
  dryRun env = true -> keeps (quiet is_mutation st0) (migrate env).
Proof.
  intros Hdry.
  unfold migrate, summary, processUsers, migrateUsers, migrateUser, deriveUser, commitUser,
    loadProvider, importThreePid, importExternalId, importAccessToken.
  rewrite Hdry. simpl.
  repeat keeps_step; quiet_leaf.
Qed.

(** X1: a dry run leaves the target store as it found it and issues no
    insertion and no transaction statement, however it ends. *)
Theorem dry_run_is_read_only env st :
  dryRun env = true ->
  let st' := (migrate env st).1 in
  mas st' = mas st /\ issued is_mutation st' = issued is_mutation st.
Proof.
  intros Hdry st'. by apply (dry_run_quiet env st Hdry st).
Qed.

Lemma dry_run_is_read_only_witness :
  let env := Fixture.run true Fixture.full [] Fixture.accept_all in
  let st := initial [Fixture.bob] [Fixture.keycloak] in
  mas (migrate env st).1 = mas st
  /\ issued is_mutation (migrate env st).1 = issued is_mutation st.
Proof.
  apply (dry_run_is_read_only (Fixture.run true Fixture.full [] Fixture.accept_all)
           (initial [Fixture.bob] [Fixture.keycloak])).
  reflexivity.
Defined.


Lemma summary_ok env n st s a : summary env n st = (s, Ok a) -> fatals s = O.
Proof.
  unfold summary, mbind, M_bind. simpl. rewrite replay_warnings_eq.
  destruct (0 <? fatals st)%nat eqn:Hf; [done|]. intros [= <- _].
  apply Nat.ltb_ge in Hf. simpl. lia.
Qed.

Lemma fatal_keeps_count env m n :
  dryRun env = false -> keeps (fun s => fatals s = n) (fatal env m).
Proof. intros Hdry st H. by rewrite fatal_real. Qed.

Lemma real_run_keeps_count env n :
  dryRun env = false -> keeps (fun s => fatals s = n) (migrate env).
Proof.
  intros Hdry.
  assert (Hfatal : forall m, keeps (fun s => fatals s = n) (fatal env m)).
  { intros m. by apply fatal_keeps_count. }
  unfold migrate, summary, processUsers, migrateUsers, migrateUser, deriveUser, commitUser,
    loadProvider, importThreePid, importExternalId, importAccessToken, run_execution,
    transaction, commit, rollback.
  repeat first [ apply Hfatal | keeps_step ]; done.
Qed.

Lemma migrate_ok_count env st :
  wp (migrate env) (fun _ s => fatals s = O) (fun _ _ => True) st.
Proof.
  unfold migrate.
  repeat (wp_step; eapply wp_mono; [apply wp_true| |done]; intros ? ? _).
  unfold wp. destruct (summary env _ _) as [sf [af|xf]] eqn:Hsum; [|done].
  by eapply summary_ok.
Qed.

(** X2: a run leaves the process through [process.exit] only in a real run
    and with status 1; a query may fail in either mode, but an insertion is
    rejected, or a transaction statement failed, only in a real run; a real
    run never moves the fatal counter, since every fatal exits first; and a
    run returns normally only when no fatal has been counted. *)
Theorem run_endings env st :
  let r := migrate env st in
  (dryRun env = false -> fatals r.1 = fatals st)
  /\ match r.2 with
     | Ok _ => fatals r.1 = O
     | Stop x => allowed_end env x
     end.
Proof.
  intros r. subst r. split.
  - intros Hdry. by apply (real_run_keeps_count env (fatals st) Hdry st).
  - pose proof (migrate_ends env st) as Hend.
    pose proof (migrate_ok_count env st) as Hok. unfold wp in Hok.
    by destruct (migrate env st) as [s [a|x]].
Qed.

Lemma run_endings_witness :
  let env := Fixture.run false Fixture.with_guest [] Fixture.accept_all in
  let r := migrate env (initial [] []) in
  (dryRun env = false -> fatals r.1 = fatals (initial [] []))
  /\ match r.2 with
     | Ok _ => fatals r.1 = O
     | Stop x => allowed_end env x
     end.
Proof.
  apply (run_endings (Fixture.run false Fixture.with_guest [] Fixture.accept_all)
           (initial [] [])).
Defined.

(** ** What a real run does with the rows of a user *)

Lemma wp_and {A} (m : M A) Q1 Q2 E1 E2 st :
  wp m Q1 E1 st -> wp m Q2 E2 st ->
  wp m (fun a s => Q1 a s /\ Q2 a s) (fun x s => E1 x s /\ E2 x s) st.
Proof. unfold wp. by destruct (m st) as [s [a|x]]. Qed.

Lemma issued_all p st st' ops :
  trace st' = trace st ++ ops -> forallb p ops = true ->
  issued p st' = issued p st ++ ops.
Proof.
  intros Htr Hops. unfold issued. rewrite Htr, filter_app. f_equal.
  clear Htr. induction ops as [|o ops IH]; [done|].
  simpl in Hops. apply andb_prop in Hops as [Ho Hops].
  rewrite filter_cons_True by done. by rewrite IH.
Qed.

Lemma insertions_mutate ex : forallb is_mutation (insertions ex) = true.
Proof. by induction ex. Qed.

Lemma insertions_app a b : insertions (a ++ b) = insertions a ++ insertions b.
Proof. unfold insertions. by rewrite map_app. Qed.

(** the loop of line 404, for closures that captured the connection handle *)
Lemma run_executions env ex st :
  Forall (fun e : Execution => e.1 = Knex.Pool) ex ->
  wp (foldM (fun _ e => run_execution env e) ex tt)
    (fun _ s =>
       Knex.committed (mas s) = Knex.committed (mas st) ++ map snd ex
       /\ Knex.pending (mas s) = Knex.pending (mas st)
       /\ trace s = trace st ++ insertions ex
       /\ log s = log st)
    (fun x s =>
       exists done e rest,
         ex = done ++ e :: rest
         /\ x = Throw (QueryError (table_of e.2))
         /\ rejects env (Knex.committed (mas st) ++ map snd done) e.2 = true
         /\ Knex.committed (mas s) = Knex.committed (mas st) ++ map snd done
         /\ Knex.pending (mas s) = Knex.pending (mas st)
         /\ trace s = trace st ++ insertions (done ++ [e])
         /\ log s = log st) st.
Proof.
  intros Hpool.
  match goal with |- wp _ _ ?E0 _ => set (Eabort := E0) end.
  eapply wp_mono;
    [apply (wp_foldM _
              (fun done _ s =>
                 Knex.committed (mas s) = Knex.committed (mas st) ++ map snd done
                 /\ Knex.pending (mas s) = Knex.pending (mas st)
                 /\ trace s = trace st ++ insertions done
                 /\ log s = log st) Eabort) | |].
  - intros done [h row] rest [] s Hex (Hc & Hp & Ht & Hl).
    assert (h = Knex.Pool) as ->.
    { rewrite Hex in Hpool. apply Forall_app in Hpool as [_ Hpool].
      by apply Forall_cons in Hpool as [Hpool _]. }
    unfold run_execution.
    wp_step. wp_step. wp_step. unfold wp at 1. simpl.
    unfold Knex.insert, Knex.visible. simpl. rewrite Hc.
    destruct (rejects env _ row) eqn:Hrej.
    + apply wp_throw. exists done, (Knex.Pool, row), rest. simpl.
      rewrite Ht, insertions_app, <- app_assoc. done.
    + unfold wp. simpl. rewrite Ht, map_app, insertions_app, <- !app_assoc. done.
  - simpl. by rewrite !app_nil_r.
  - done.
  - done.
Qed.

(** lines 409-416 *)
Lemma rollback_and_rethrow env e (Q : unit -> State -> Prop) st :
  wp (try_catch (rollback env)
        (fun e2 => emit ERROR ("Failed to rollback transaction: " +:+ exn_text e2));;
      throw e) Q
    (fun x s => x = Throw e /\ Knex.committed (mas s) = Knex.committed (mas st)
                /\ trace s = trace st ++ [MasRollback] /\ rolled_back env s) st.
Proof.
  unfold rolled_back, rollback. wp_step. wp_step. wp_step. wp_step.
  destruct (rollback_fails env) eqn:Hrb.
  - wp_step. wp_step. wp_step. simpl.
    split; [done|]. split; [done|]. split; [done|]. eexists. by rewrite last_snoc.
  - wp_step. unfold wp at 1. simpl. unfold wp at 1. simpl. by wp_step.
Qed.

(** lines 400-417 *)
Lemma commitUser_real env user ex st :
  dryRun env = false ->
  Forall (fun e : Execution => e.1 = Knex.Pool) ex ->
  wp (commitUser env user 0 ex)
    (fun _ s =>
       Knex.committed (mas s) = Knex.committed (mas st) ++ map snd ex
       /\ Knex.pending (mas s) = None
       /\ trace s = trace st ++ MasBegin :: insertions ex ++ [MasCommit])
    (commit_failure env ex st) st.
Proof.
  intros Hdry Hpool. unfold commitUser. rewrite Hdry. simpl.
  wp_step. wp_step. unfold transaction.
  wp_step. wp_step. apply wp_query; [intros _|intros Hf; by left].
  wp_step. unfold wp at 1. simpl. unfold wp at 1. simpl.
  wp_step. wp_step.
  eapply wp_mono; [by apply run_executions| |].
  - simpl. intros [] s (Hc & Hp & Ht & Hl).
    unfold commit. wp_step. wp_step. apply wp_query; intros Hf.
    + wp_step. unfold wp at 1. simpl.
      unfold wp at 1. simpl. wp_step. simpl.
      rewrite Hc, Hp, Ht. simpl. by rewrite app_nil_r, <- !app_assoc.
    + eapply wp_mono; [apply (rollback_and_rethrow env _ (fun _ _ => False))|done|].
      intros x s' (-> & Hc' & Ht' & Hrb). right. right.
      split; [done|]. simpl in *. rewrite Hc', Ht', Hc, Ht. simpl.
      split; [by rewrite Ht, <- !app_assoc in Hf|].
      split; [done|]. split; [|done]. by rewrite <- !app_assoc.
  - simpl. intros x s (done & e & rest & Hex & -> & Hrej & Hc & Hp & Ht & Hl).
    eapply wp_mono; [apply (rollback_and_rethrow env _ (fun _ _ => False))|done|].
    intros x s' (-> & Hc' & Ht' & Hrb). right. left.
    exists done, e, rest. rewrite Hc', Ht', Hc, Ht. simpl.
    split; [done|]. split; [done|]. split; [done|]. split; [done|].
    split; [|done]. by rewrite <- !app_assoc.
Qed.

Lemma derived_pool env up user ex :
  derived env up user ex -> Forall (fun e : Execution => e.1 = Knex.Pool) ex.
Proof.
  intros Hd. destruct (derived_cases _ _ _ _ Hd) as (uid & _ & Hcases).
  apply Forall_forall. intros e He.
  destruct (Hcases e He) as [->|[(h & id & _ & _ & ->)|[(t & _ & id & _ & ->)|
    [(x & _ & id & p & _ & _ & ->)|(a & rows & _ & Hrows & Hin)]]]]; try done.
  destruct (token_rows_cases _ _ _ _ _ _ Hrows Hin)
    as (id & _ & [(m & -> & _)|[(m & -> & _)|(m & -> & _)]]); done.
Qed.

Lemma deriveUser_mutes env up user st0 :
  keeps (quiet is_mutation st0) (deriveUser env up user).
Proof.
  unfold deriveUser, importThreePid, importExternalId, importAccessToken.
  repeat keeps_step; quiet_leaf.
Qed.

(** deriving the rows of a user: what is derived, and how it may stop *)
Lemma deriveUser_facts env up user st :
  wp (deriveUser env up user)
    (fun acc s =>
       derived env up user acc.2
       /\ acc.1 = length (warnings_of (synapse env) user)
       /\ quiet is_mutation st s)
    (fun x s => derivation_end env x s /\ quiet is_mutation st s) st.
Proof.
  eapply wp_mono;
    [apply wp_and;
       [apply (deriveUser_spec env (derivation_end env))
       |apply (keeps_wp (quiet is_mutation st)); [apply deriveUser_mutes|apply quiet_refl]]
    | |].
  - by left.
  - intros t s Hf. right. left. by exists t.
  - intros s m Hdry. right. by right.
  - intros acc s ((Hd & Hw & _) & Hq). done.
  - intros x s (Hx & Hq). done.
Qed.

(** X3: when a real run returns from a user, that user had no warning, the
    target store has gained the rows derived for the user, in the order of
    derivation, between the opening and the commit of one transaction, and no
    transaction is left open. *)
Theorem migrated_user_is_committed env up user st st' :
  dryRun env = false ->
  migrateUser env up user st = (st', Ok tt) ->
  exists ex,
    derived env up user ex
    /\ warnings_of (synapse env) user = []
    /\ Knex.committed (mas st') = Knex.committed (mas st) ++ map snd ex
    /\ Knex.pending (mas st') = None
    /\ issued is_mutation st'
       = issued is_mutation st ++ MasBegin :: insertions ex ++ [MasCommit].
Proof.
  intros Hdry Hrun. unfold migrateUser, mbind, M_bind in Hrun.
  pose proof (deriveUser_facts env up user st) as Hd. unfold wp in Hd.
  destruct (deriveUser env up user st) as [s1 [[w ex]|x]]; [|done].
  destruct Hd as (Hder & Hw & Hm & Hi). simpl in *.
  destruct w as [|w].
  - pose proof (commitUser_real env user ex s1 Hdry (derived_pool _ _ _ _ Hder)) as Hc.
    unfold wp in Hc. rewrite Hrun in Hc. destruct Hc as (Hc & Hp & Ht).
    exists ex. split; [done|]. split; [by destruct (warnings_of _ _)|].
    split; [by rewrite Hc, Hm|]. split; [done|].
    rewrite <- Hi. apply issued_all; [done|].
    simpl. rewrite forallb_app, insertions_mutate. done.
  - rewrite commitUser_escalates, Hdry in Hrun by lia. done.
Qed.

Lemma migrated_user_is_committed_witness :
  let env := Fixture.run false Fixture.full [] Fixture.accept_all in
  let st' := (migrateUser env Fixture.providers Fixture.alice (initial [] [])).1 in
  exists ex,
    derived env Fixture.providers Fixture.alice ex
    /\ warnings_of (synapse env) Fixture.alice = []
    /\ Knex.committed (mas st') = Knex.committed (mas (initial [] [])) ++ map snd ex
    /\ Knex.pending (mas st') = None
    /\ issued is_mutation st'
       = issued is_mutation (initial [] []) ++ MasBegin :: insertions ex ++ [MasCommit].
Proof.
  apply (migrated_user_is_committed (Fixture.run false Fixture.full [] Fixture.accept_all)
           Fixture.providers Fixture.alice (initial [] [])).
  - reflexivity.
  - vm_compute. reflexivity.
Defined.

(** X4: when the processing of a user ends on an error of the target store
    on a statement that writes, the run is a real one, the user had no
    warning, and the error is one of three.  When the transaction cannot be
    opened, nothing is inserted and nothing is rolled back.  When the store
    rejects an insertion, the insertions before it stay committed, none is
    attempted after it and the rollback is the last statement issued.  When
    the commit fails, all the rows of the user stay committed and the
    rollback follows the commit.  A rollback that fails is logged at the
    error level and otherwise ignored. *)
Theorem rejected_insertion env up user st st' e :
  migrateUser env up user st = (st', Stop (Throw e)) ->
  target_failure e = true ->
  dryRun env = false
  /\ exists ex,
       derived env up user ex
       /\ warnings_of (synapse env) user = []
       /\ match e with
          | Unavailable MasBegin =>
              mas st' = mas st
              /\ issued is_mutation st' = issued is_mutation st ++ [MasBegin]
          | QueryError t =>
              exists done x rest,
                ex = done ++ x :: rest
                /\ t = table_of x.2
                /\ rejects env (Knex.committed (mas st) ++ map snd done) x.2 = true
                /\ Knex.committed (mas st') = Knex.committed (mas st) ++ map snd done
                /\ issued is_mutation st'
                   = issued is_mutation st
                     ++ MasBegin :: insertions (done ++ [x]) ++ [MasRollback]
                /\ rolled_back env st'
          | Unavailable MasCommit =>
              Knex.committed (mas st') = Knex.committed (mas st) ++ map snd ex
              /\ issued is_mutation st'
                 = issued is_mutation st
                   ++ MasBegin :: insertions ex ++ [MasCommit; MasRollback]
              /\ rolled_back env st'
          | _ => False
          end.
Proof.
  intros Hrun Hfail. unfold migrateUser, mbind, M_bind in Hrun.
  pose proof (deriveUser_facts env up user st) as Hd. unfold wp in Hd.
  destruct (deriveUser env up user st) as [s1 [[w ex]|x]].
  2:{ destruct Hd as (Hx & _). injection Hrun as <- ->.
      destruct Hx as [[= ->]|[[t [[= ->] _]]|[[=] _]]]; discriminate Hfail. }
  destruct Hd as (Hder & Hw & Hm & Hi). simpl in *.
  destruct w as [|w].
  2:{ rewrite commitUser_escalates in Hrun by lia. by destruct (dryRun env). }
  destruct (dryRun env) eqn:Hdry.
  { unfold commitUser in Hrun. rewrite Hdry in Hrun. done. }
  split; [done|]. exists ex. split; [done|]. split; [by destruct (warnings_of _ _)|].
  pose proof (commitUser_real env user ex s1 Hdry (derived_pool _ _ _ _ Hder)) as Hc.
  unfold wp in Hc. rewrite Hrun in Hc. rewrite <- Hm, <- Hi.
  destruct Hc as [([= ->] & _ & Hmas & Ht)
                 |[(done & x & rest & -> & [= ->] & Hrej & Hc & Ht & Hrb)
                  |([= ->] & _ & Hc & Ht & Hrb)]].
  - split; [done|]. by apply issued_all.
  - exists done, x, rest.
    split; [done|]. split; [done|]. split; [done|]. split; [done|]. split; [|done].
    apply issued_all; [done|]. simpl. rewrite forallb_app, insertions_mutate. done.
  - split; [done|]. split; [|done].
    apply issued_all; [done|]. simpl. rewrite forallb_app, insertions_mutate. done.
Qed.

Lemma rejected_insertion_witness :
  let env := Fixture.run false Fixture.full [] (Fixture.reject_table "compat_sessions") in
  let st := initial [] [] in
  let st' := (migrateUser env Fixture.providers Fixture.alice st).1 in
  dryRun env = false
  /\ exists ex,
       derived env Fixture.providers Fixture.alice ex
       /\ warnings_of (synapse env) Fixture.alice = []
       /\ exists done x rest,
            ex = done ++ x :: rest
            /\ "compat_sessions" = table_of x.2
            /\ rejects env (Knex.committed (mas st) ++ map snd done) x.2 = true
            /\ Knex.committed (mas st') = Knex.committed (mas st) ++ map snd done
            /\ issued is_mutation st'
               = issued is_mutation st
                 ++ MasBegin :: insertions (done ++ [x]) ++ [MasRollback]
            /\ rolled_back env st'.
Proof.
  apply (rejected_insertion
           (Fixture.run false Fixture.full [] (Fixture.reject_table "compat_sessions"))
           Fixture.providers Fixture.alice (initial [] [])
           (migrateUser
              (Fixture.run false Fixture.full [] (Fixture.reject_table "compat_sessions"))
              Fixture.providers Fixture.alice (initial [] [])).1
           (QueryError "compat_sessions")).
  - vm_compute. reflexivity.
  - reflexivity.
Defined.

(** ** Loading the provider mappings *)

Lemma loadProvider_resolution env up mapping st :
  let r := loadProvider env up mapping st in
  r.2 = Stop (Throw (Unavailable (MasSelect "upstream_oauth_providers")))
  \/ resolution up mapping r.2 = Some (resolve_first_two (mas st) mapping).
Proof.
  intros r. subst r.
  destruct (loadProvider env up mapping st) as [sf res] eqn:Hr. cbn [fst snd].
  unfold loadProvider in Hr. unfold resolve_first_two, resolve_parts.
  rewrite split_first, split_second in Hr.
  destruct (cut_colon mapping) as [[name rest]|] eqn:Hcut.
  - rewrite (cut_colon_before _ _ _ Hcut) in Hr. rewrite !truthy_string_eqb in Hr.
    destruct (String.eqb name "") eqn:Hname; simpl in *;
      [injection Hr as <- <-; by right|].
    destruct (String.eqb (before_colon rest) "") eqn:Hid; simpl in *;
      [injection Hr as <- <-; by right|].
    fold (recognized (before_colon rest)).
    assert (Hneg : negb (Id128.Uuid.isRaw (before_colon rest))
                   && negb (Id128.Uuid.isCanonical (before_colon rest))
                   && negb (Id128.Ulid.isCanonical (before_colon rest))
                   = negb (recognized (before_colon rest))).
    { unfold recognized. by rewrite !negb_orb. }
    rewrite Hneg in Hr.
    destruct (recognized (before_colon rest)) eqn:Hrec; simpl in *;
      [|injection Hr as <- <-; by right].
    destruct (recognized_parses _ Hrec) as [bytes Hbytes].
    unfold parseUuidOrUlid in *. rewrite Hbytes in *. simpl in *.
    unfold mbind, M_bind in Hr. rewrite emit_eq, query_eq in Hr. simpl in Hr.
    destruct (fails env _ _); [injection Hr as <- <-; by left|]. right.
    destruct (Knex.find_provider _ (mas st)) as [p|] eqn:Hfind;
      injection Hr as <- <-; simpl; [|done].
    rewrite split_first, (cut_colon_before _ _ _ Hcut). simpl.
    by rewrite lookup_insert_eq.
  - rewrite (before_colon_no_cut _ Hcut) in Hr. right.
    destruct (truthy_string (Some mapping)); by injection Hr as <- <-.
Qed.

Lemma only_lookups_refl st : only_lookups st st.
Proof.
  split; [done|]. split; [done|]. split; [done|].
  exists []. by rewrite app_nil_r.
Qed.

Lemma loadProvider_only_lookups env up mapping st0 :
  keeps (only_lookups st0) (loadProvider env up mapping).
Proof.
  assert (Hissue : keeps (only_lookups st0) (issue (MasSelect "upstream_oauth_providers"))).
  { intros st (Hm & Hw & Hf & ops & Ht & Hops).
    split; [done|]. split; [done|]. split; [done|]. simpl.
    exists (ops ++ [MasSelect "upstream_oauth_providers"]).
    rewrite Ht, <- app_assoc. split; [done|].
    apply Forall_app. split; [done|]. by constructor. }
  unfold loadProvider, query. repeat first [ apply Hissue | keeps_step ]; done.
Qed.

Lemma resolution_stops up mapping (r : Result (gmap string MUpstreamOauthProvider)) res :
  resolution up mapping r = Some res ->
  match res with
  | Resolved _ _ => exists m, r = Ok m
  | _ => exists msg, r = Stop (Throw (Error msg))
  end.
Proof.
  unfold resolution. destruct r as [m|[c|[msg| | |t|o]]].
  - destruct (Js.index _ 0) as [name|]; [|intros H; discriminate H]. simpl.
    destruct (m !! name) as [p|]; [|intros H; discriminate H]. simpl.
    intros [= <-]. by eexists.
  - intros H; discriminate H.
  - match goal with |- (if ?b then _ else _) = _ -> _ => destruct b end.
    + intros [= <-]. by eexists.
    + match goal with |- (if ?b then _ else _) = _ -> _ => destruct b end.
      * intros [= <-]. by eexists.
      * intros H; discriminate H.
  - intros H; discriminate H.
  - intros H; discriminate H.
  - intros H; discriminate H.
  - intros H; discriminate H.
Qed.

Lemma loadProviders_stop env mappings : forall up st0 st,
  only_lookups st0 st ->
  forallb (resolves (mas st0)) mappings = false ->
  wp (foldM (loadProvider env) mappings up) (fun _ _ => False)
    (fun x s =>
       only_lookups st0 s
       /\ (x = Throw (Unavailable (MasSelect "upstream_oauth_providers"))
           \/ exists pre bad rest,
                mappings = pre ++ bad :: rest
                /\ forallb (resolves (mas st0)) pre = true
                /\ resolves (mas st0) bad = false
                /\ (exists msg, x = Throw (Error msg))
                /\ resolution ∅ bad (Stop x) = Some (resolve_first_two (mas st0) bad))) st.
Proof.
  induction mappings as [|mapping mappings IH]; intros up st0 st Hst Hall; [done|].
  cbn [foldM]. wp_step.
  pose proof (loadProvider_resolution env up mapping st) as Hres.
  pose proof (loadProvider_only_lookups env up mapping st0 st Hst) as Hkeep.
  assert (Hmas : mas st = mas st0) by apply Hst.
  rewrite Hmas in Hres. unfold wp at 1.
  destruct (loadProvider env up mapping st) as [s [up'|x]] eqn:Hrun; cbn [fst snd] in *.
  - destruct Hres as [Hres|Hres]; [done|].
    apply resolution_stops in Hres as Hkind.
    destruct (resolves (mas st0) mapping) eqn:Hok.
    + cbn [forallb] in Hall. rewrite Hok in Hall. cbn [andb] in Hall.
      eapply wp_mono; [by apply (IH up' st0 s)|done|].
      intros y s' (Hs' & [Hy|(pre & bad & rest & -> & Hpre & Hbad & Hmsg & Hy)]);
        (split; [done|]); [by left|right].
      exists (mapping :: pre), bad, rest. cbn [forallb]. by rewrite Hok.
    + unfold resolves in Hok.
      destruct (resolve_first_two (mas st0) mapping); destruct Hkind; done.
  - split; [done|]. destruct Hres as [[= ->]|Hres]; [by left|right].
    apply resolution_stops in Hres as Hkind.
    exists [], mapping, mappings.
    assert (Hbad : resolves (mas st0) mapping = false).
    { unfold resolves. destruct (resolve_first_two (mas st0) mapping); [done|done|].
      by destruct Hkind. }
    split; [done|]. split; [done|]. split; [done|].
    split; [|done].
    unfold resolves in Hbad.
    destruct (resolve_first_two (mas st0) mapping); destruct Hkind as [msg [= ->]];
      try done; by eexists.
Qed.

(** X5: when one of the mappings given does not resolve, the run stops, dry
    or not, having issued nothing but provider lookups: the safety gate is not
    consulted and the source store is not queried.  Unless the target store
    has failed one of these lookups, the run stops on the error of the first
    such mapping (a format error or an unknown-provider error). *)
Theorem unresolved_mapping_stops_the_run env st :
  forallb (resolves (mas st)) (upstreamProviderMapping env) = false ->
  let r := migrate env st in
  only_lookups st r.1
  /\ (r.2 = Stop (Throw (Unavailable (MasSelect "upstream_oauth_providers")))
      \/ exists pre bad rest msg,
           upstreamProviderMapping env = pre ++ bad :: rest
           /\ forallb (resolves (mas st)) pre = true
           /\ resolves (mas st) bad = false
           /\ r.2 = Stop (Throw (Error msg))
           /\ resolution ∅ bad (Stop (Throw (Error msg)))
              = Some (resolve_first_two (mas st) bad)).
Proof.
  intros Hall r.
  pose proof (loadProviders_stop env _ ∅ st st (only_lookups_refl st) Hall) as Hwp.
  unfold wp in Hwp.
  destruct (foldM (loadProvider env) _ _ _) as [s [a|x]] eqn:Hload; [done|].
  assert (Hrun : migrate env st = (s, Stop x)).
  { unfold migrate, mbind at 1, M_bind at 1. by rewrite Hload. }
  subst r. rewrite Hrun. cbn [fst snd].
  destruct Hwp as (Hs & [->|(pre & bad & rest & Hl & Hpre & Hbad & [msg ->] & Hres)]).
  - split; [done|]. by left.
  - split; [done|]. right. by exists pre, bad, rest, msg.
Qed.

Lemma unresolved_mapping_stops_the_run_witness :
  let env := Fixture.run true Fixture.full
               ["oidc:01ARZ3NDEKTSV4RRFFQ69G5FAV"; "saml:not-an-identifier"]
               Fixture.accept_all in
  let st := initial [] [Fixture.keycloak] in
  let r := migrate env st in
  only_lookups st r.1
  /\ (r.2 = Stop (Throw (Unavailable (MasSelect "upstream_oauth_providers")))
      \/ exists pre bad rest msg,
           upstreamProviderMapping env = pre ++ bad :: rest
           /\ forallb (resolves (mas st)) pre = true
           /\ resolves (mas st) bad = false
           /\ r.2 = Stop (Throw (Error msg))
           /\ resolution ∅ bad (Stop (Throw (Error msg)))
              = Some (resolve_first_two (mas st) bad)).
Proof.
  apply (unresolved_mapping_stops_the_run
           (Fixture.run true Fixture.full
              ["oidc:01ARZ3NDEKTSV4RRFFQ69G5FAV"; "saml:not-an-identifier"]
              Fixture.accept_all)
           (initial [] [Fixture.keycloak])).
  vm_compute. reflexivity.
Defined.

(** ** The two modes derive the same rows *)

Lemma makeUuid_valid env t st :
  valid_epoch t = true ->
  makeUuid env t st
  = ((draw st).1,
     Ok (default "" (Id128.Uuid.toCanonical
                       <$> Id128.Ulid.generate t (entropy env (drawn st))))).
Proof.
  intros Ht. unfold makeUuid, mbind, M_bind. cbn [draw].
  destruct (generate_valid t (entropy env (drawn st)) Ht) as [bytes Hgen].
  by rewrite Hgen.
Qed.

Lemma makeUuid_invalid env t st :
  valid_epoch t = false -> makeUuid env t st = ((draw st).1, Stop (Throw InvalidEpoch)).
Proof.
  intros Ht. unfold makeUuid, mbind, M_bind. cbn [draw].
  by rewrite generate_invalid.
Qed.

Lemma makeUuid_returns env t st s id :
  makeUuid env t st = (s, Ok id) -> valid_epoch t = true.
Proof.
  destruct (valid_epoch t) eqn:Ht; [done|]. by rewrite makeUuid_invalid.
Qed.

(** the mode matters to [fatal] only *)
Lemma deriveUser_mode env up user st :
  su_is_guest user <> 1%Z ->
  all_mapped up (synapse env) user = true ->
  deriveUser (with_dryRun true env) up user st
  = deriveUser (with_dryRun false env) up user st.
Proof.
  intros Hguest Hmapped. unfold deriveUser.
  apply Z.eqb_neq in Hguest. rewrite Hguest.
  apply bind_ext. intros _ s1 _. apply bind_ext. intros _ s2 _.
  change (makeUuid (with_dryRun true env)) with (makeUuid env).
  change (makeUuid (with_dryRun false env)) with (makeUuid env).
  apply bind_ext. intros uid s3 Huid. apply makeUuid_returns in Huid.
  apply bind_ext. intros _ s4 _. apply bind_ext. intros ex1 s5 _.
  apply bind_ext. intros _ s6 _. apply bind_ext. intros acc s7 _.
  apply bind_ext. intros _ s8 _.
  match goal with |- (?m1 ≫= ?k) s8 = (?m2 ≫= _) s8 =>
    assert (Hloop : m1 s8 = m2 s8) end.
  { apply foldM_ext. intros ex x s Hx.
    unfold importExternalId, try_catch.
    unfold all_mapped in Hmapped. rewrite forallb_forall in Hmapped.
    apply list_elem_of_In, Hmapped, bool_decide_eq_true in Hx as [p Hp].
    rewrite Hp.
    change (makeUuid (with_dryRun true env)) with (makeUuid env).
    change (makeUuid (with_dryRun false env)) with (makeUuid env).
    unfold mbind, M_bind. by rewrite makeUuid_valid. }
  unfold mbind, M_bind. rewrite Hloop. done.
Qed.

Lemma deriveUser_real_fatals env up user k :
  dryRun env = false -> keeps (fun s => fatals s = k) (deriveUser env up user).
Proof.
  intros Hdry.
  assert (Hfatal : forall m, keeps (fun s => fatals s = k) (fatal env m)).
  { intros m st H. by rewrite fatal_real. }
  unfold deriveUser, importThreePid, importExternalId, importAccessToken.
  repeat first [ apply Hfatal | keeps_step ]; done.
Qed.

(** the derivation reads the mode, the source store, the random bits and the
    failures of the stores, and nothing else of its environment *)
Lemma deriveUser_env env1 env2 up user st :
  dryRun env1 = dryRun env2 -> synapse env1 = synapse env2 ->
  entropy env1 = entropy env2 -> fails env1 = fails env2 ->
  deriveUser env1 up user st = deriveUser env2 up user st.
Proof.
  intros Hd Hs He Hf.
  unfold deriveUser, importThreePid, importExternalId, importAccessToken, makeUuid,
    fatal, query, await.
  by rewrite Hd, Hs, He, Hf.
Qed.

(** X6: the mode of the run has no part in the derivation of the rows of a
    user who is no guest and whose external ids all name a mapped provider.
    Take a dry run and a real run that read the same source store, are
    failed the same queries and draw the same random bits (the random bits
    are drawn afresh at every call, so that two actual runs differ in the
    random part of the identifiers).  Started from the same state, the two
    derivations end alike, with the same rows, warnings, log lines and
    queries, or on the same exception; no fatal is counted. *)
Theorem dry_run_derives_the_same env_dry env_real up user st :
  dryRun env_dry = true -> dryRun env_real = false ->
  synapse env_dry = synapse env_real ->
  entropy env_dry = entropy env_real ->
  fails env_dry = fails env_real ->
  su_is_guest user <> 1%Z ->
  all_mapped up (synapse env_real) user = true ->
  deriveUser env_dry up user st = deriveUser env_real up user st
  /\ fatals (deriveUser env_dry up user st).1 = fatals st.
Proof.
  intros Hdry Hreal Hs He Hf Hguest Hmapped.
  rewrite (deriveUser_env env_dry (with_dryRun true env_real)) by done.
  rewrite (deriveUser_env env_real (with_dryRun false env_real)) by done.
  split; [by apply deriveUser_mode|].
  rewrite deriveUser_mode by done.
  by apply (deriveUser_real_fatals (with_dryRun false env_real) up user (fatals st)
              eq_refl st).
Qed.

Lemma dry_run_derives_the_same_witness :
  let env_dry := Fixture.run true Fixture.full [] Fixture.accept_all in
  let env_real := Fixture.run false Fixture.full [] Fixture.accept_all in
  deriveUser env_dry Fixture.providers Fixture.carol (initial [] [])
  = deriveUser env_real Fixture.providers Fixture.carol (initial [] [])
  /\ fatals (deriveUser env_dry Fixture.providers Fixture.carol (initial [] [])).1
     = fatals (initial [] []).
Proof.
  apply (dry_run_derives_the_same (Fixture.run true Fixture.full [] Fixture.accept_all)
           (Fixture.run false Fixture.full [] Fixture.accept_all)
           Fixture.providers Fixture.carol (initial [] [])).
  - reflexivity.
  - reflexivity.
  - reflexivity.
  - reflexivity.
  - reflexivity.
  - simpl. lia.
  - vm_compute. reflexivity.
Defined.

Lemma deriveUser_invalid env up user st :
  su_is_guest user <> 1%Z ->
  valid_epoch (new_Date (su_creation_ts user * 1000)) = false ->
  deriveUser env up user st
  = ((draw (logged st [(INFO, "Processing user " +:+ su_name user +:+ " as "
                               +:+ localpart (su_name user))])).1,
     Stop (Throw InvalidEpoch)).
Proof.
  intros Hguest Ht. unfold deriveUser.
  apply Z.eqb_neq in Hguest. rewrite Hguest.
  erewrite bind_ok by apply emit_eq.
  erewrite bind_ok by reflexivity.
  apply bind_stop. by apply makeUuid_invalid.
Qed.

(** X7: a user whose creation time, in milliseconds, is a date that
    [Ulid.generate] refuses (before the epoch, or 2^48 milliseconds and more
    after it, within the range of dates) stops the run on [InvalidEpoch] right
    after the line that announces the user: nothing is derived, queried or
    written for that user, in either mode. *)
Theorem creation_time_out_of_range env up user st :
  su_is_guest user <> 1%Z ->
  valid_epoch (new_Date (su_creation_ts user * 1000)) = false ->
  migrateUser env up user st
  = ((draw (logged st [(INFO, "Processing user " +:+ su_name user +:+ " as "
                               +:+ localpart (su_name user))])).1,
     Stop (Throw InvalidEpoch)).
Proof.
  intros Hguest Ht. unfold migrateUser. apply bind_stop. by apply deriveUser_invalid.
Qed.

Lemma creation_time_out_of_range_witness :
  migrateUser (Sample.env true) ∅ Sample.frank (initial [] [])
  = ((draw (logged (initial [] [])
              [(INFO, "Processing user " +:+ su_name Sample.frank +:+ " as "
                        +:+ localpart (su_name Sample.frank))])).1,
     Stop (Throw InvalidEpoch)).
Proof.
  apply (creation_time_out_of_range (Sample.env true) ∅ Sample.frank (initial [] [])).
  - simpl. lia.
  - reflexivity.
Defined.

(** ** The order of the insertions of a user *)





(** the row of the user comes first and is the only one of its table *)
Lemma derived_user_first env up user ex :
  derived env up user ex ->
  exists u rest, map snd ex = RUser u :: rest
    /\ Forall (fun r => is_user_row r = false) rest.
Proof.
  intros Hd.
  destruct Hd as (uid & pw & emails & links & groups & _ & -> & Hpw & Hem & Hli & Hgr).
  exists (user_row user uid), (map snd (pw ++ emails ++ links ++ concat groups)).
  split; [done|].
  apply Forall_forall. intros r Hr. apply list_elem_of_fmap in Hr as ([h row] & -> & Hin).
  simpl. unfold password_rows in Hpw.
  apply elem_of_app in Hin as [Hin|Hin].
  { destruct (truthy_string _); [|subst pw; by apply elem_of_nil in Hin].
    destruct Hpw as (id & _ & ->). by apply list_elem_of_singleton in Hin as [= -> ->]. }
  apply elem_of_app in Hin as [Hin|Hin].
  { destruct (Forall2_elem_r _ _ _ _ Hem Hin) as (t & _ & id & _ & [= -> ->]). done. }
  apply elem_of_app in Hin as [Hin|Hin].
  { destruct (Forall2_elem_r _ _ _ _ Hli Hin) as (t & _ & id & p & _ & _ & [= -> ->]). done. }
  apply elem_of_concat in Hin as (rows & Hrows & Hin).
  destruct (Forall2_elem_r _ _ _ _ Hgr Hrows) as (a & _ & Hrow).
  destruct (token_rows_cases _ _ _ _ _ _ Hrow Hin)
    as (id & _ & [(m & [= -> ->] & _)|[(m & [= -> ->] & _)|(m & [= -> ->] & _)]]); done.
Qed.



(** ** Every source row is migrated or reported *)

(** X9: nothing of a user is dropped without a trace.  Each e-mail
    three-pid yields a [user_emails] row and each other three-pid a warning;
    each external id of a mapped provider yields a link row; and, unless the
    user is deactivated, each access token with a device yields a session row
    and an access-token row, and the refresh token it points to yields a
    refresh-token row when it is found and a warning when it is not. *)
Theorem nothing_is_dropped_silently env up user st st' w ex :
  deriveUser env up user st = (st', Ok (w, ex)) ->
  (forall t, t ∈ syn_user_threepids (synapse env) -> tp_user_id t = su_name user ->
     if String.eqb (tp_medium t) "email"
     then exists m, (Knex.Pool, RUserEmail m) ∈ ex
            /\ me_email m = Js.toLowerCase (tp_address t)
            /\ me_created_at m = new_Date (tp_added_at t)
     else msg_non_email (tp_medium t) (su_name user) ∈ warnings st')
  /\ (forall x p, x ∈ syn_user_external_ids (synapse env) -> ex_user_id x = su_name user ->
        up !! ex_auth_provider x = Some p ->
        exists m, (Knex.Pool, RUpstreamOauthLink m) ∈ ex
          /\ ml_subject m = ex_external_id x
          /\ ml_upstream_oauth_provider_id m = mo_upstream_oauth_provider_id p)
  /\ (forall a, a ∈ syn_access_tokens (synapse env) -> at_user_id a = su_name user ->
        is_Some (at_device_id a) -> su_deactivated user <> 1%Z ->
        exists s t,
          (Knex.Pool, RCompatSession s) ∈ ex /\ ms_device_id s = at_device_id a
          /\ (Knex.Pool, RCompatAccessToken t) ∈ ex
          /\ ma_compat_session_id t = ms_compat_session_id s
          /\ ma_access_token t = at_token a
          /\ match truthy_num (at_refresh_token_id a) with
             | None => True
             | Some id =>
                 match List.find (fun r => Z.eqb (rt_id r) id)
                         (syn_refresh_tokens (synapse env)) with
                 | Some rt =>
                     exists r, (Knex.Pool, RCompatRefreshToken r) ∈ ex
                       /\ mr_refresh_token r = rt_token rt
                       /\ mr_compat_session_id r = ms_compat_session_id s
                       /\ mr_compat_access_token_id r = ma_compat_access_token_id t
                 | None => msg_no_refresh_token id (su_name user) ∈ warnings st'
                 end
             end).
Proof.
  intros Hrun. destruct (deriveUser_rows _ _ _ _ _ _ _ Hrun) as (Hd & _ & Hw).
  destruct Hd as (uid & pw & emails & links & groups & _ & -> & Hpw & Hem & Hli & Hgr).
  split; [|split].
  - intros t Ht Hname.
    assert (Hin : t ∈ threepids_of (synapse env) user) by (by apply list_elem_of_filter).
    destruct (String.eqb (tp_medium t) "email") eqn:Hmed.
    + assert (Hin' : t ∈ emails_of (synapse env) user) by (by apply list_elem_of_filter).
      destruct (Forall2_elem_l _ _ _ _ Hem Hin') as (e & He & id & _ & ->).
      eexists. split; [right; rewrite !elem_of_app; right; by left|done].
    + rewrite Hw, elem_of_app. right. unfold warnings_of. rewrite elem_of_app. left.
      apply list_elem_of_fmap. exists t. split; [done|]. by apply list_elem_of_filter.
  - intros x p Hx Hname Hp.
    assert (Hin : x ∈ resolved_of up (synapse env) user).
    { apply list_elem_of_filter. split; [by eexists|]. by apply list_elem_of_filter. }
    destruct (Forall2_elem_l _ _ _ _ Hli Hin) as (e & He & id & p' & Hp' & _ & ->).
    rewrite Hp in Hp'. injection Hp' as <-.
    eexists. split; [right; rewrite !elem_of_app; right; right; by left|done].
  - intros a Ha Hname Hdev Hact.
    assert (Hin : a ∈ imported_tokens (synapse env) user).
    { unfold imported_tokens. apply Z.eqb_neq in Hact. rewrite Hact.
      by apply list_elem_of_filter. }
    destruct (Forall2_elem_l _ _ _ _ Hgr Hin) as (g & Hg & sid & aid & _ & _ & tail & -> & Htail).
    assert (Hsub : forall e, e ∈ (Knex.Pool, RCompatSession
                        {| ms_compat_session_id := sid; ms_user_id := uid;
                           ms_device_id := at_device_id a;
                           ms_created_at := tokenCreatedAt user a;
                           ms_is_synapse_admin := Z.eqb (su_admin user) 1 |})
                      :: (Knex.Pool, RCompatAccessToken
                            {| ma_compat_access_token_id := aid;
                               ma_compat_session_id := sid;
                               ma_access_token := at_token a;
                               ma_created_at := tokenCreatedAt user a |}) :: tail ->
                  e ∈ (Knex.Pool, RUser (user_row user uid))
                        :: pw ++ emails ++ links ++ concat groups).
    { intros e He. right. rewrite !elem_of_app. do 3 right.
      by eapply elem_of_concat_r. }
    eexists _, _. split; [apply Hsub; left|]. split; [done|].
    split; [apply Hsub; right; left|]. split; [done|]. split; [done|].
    unfold refresh_of in Htail.
    destruct (truthy_num (at_refresh_token_id a)) as [id|] eqn:Hid; [|done].
    simpl in Htail.
    destruct (List.find _ _) as [rt|] eqn:Hfind.
    + destruct Htail as (rid & _ & ->).
      eexists. split; [apply Hsub; right; right; left|done].
    + rewrite Hw, elem_of_app. right. unfold warnings_of. rewrite elem_of_app. right.
      apply list_elem_of_fmap. exists a. split.
      * destruct (at_refresh_token_id a) as [z|]; [|done].
        destruct z; simpl in Hid; try done; by injection Hid as <-.
      * apply list_elem_of_filter. split; [|done].
        unfold refresh_missing. by rewrite Hid, Hfind.
Qed.

(** ** Every derived row has a source *)

(** X10: nothing is invented.  The password row carries the password hash
    of the user as it is, and there is one only when the hash is a non-empty
    text; each e-mail row comes from an e-mail three-pid of the user, each
    link row from an external id of the user whose provider is mapped, each
    session and access-token row from an access token of the user that has a
    device, and each refresh-token row from the refresh token that such an
    access token points to. *)
Theorem every_row_has_a_source env up user st st' w ex :
  deriveUser env up user st = (st', Ok (w, ex)) ->
  forall row, (Knex.Pool, row) ∈ ex ->
    match row with
    | RUser m => m = user_row user (mu_user_id m)
    | RUserPassword m =>
        su_password_hash user = Some (mp_hashed_password m)
        /\ mp_hashed_password m <> "" /\ mp_version m = 1%Z
    | RUserEmail m =>
        exists t, t ∈ syn_user_threepids (synapse env)
          /\ tp_user_id t = su_name user /\ tp_medium t = "email"
          /\ me_email m = Js.toLowerCase (tp_address t)
    | RUpstreamOauthLink m =>
        exists x p, x ∈ syn_user_external_ids (synapse env)
          /\ ex_user_id x = su_name user /\ up !! ex_auth_provider x = Some p
          /\ ml_subject m = ex_external_id x
          /\ ml_upstream_oauth_provider_id m = mo_upstream_oauth_provider_id p
    | RCompatSession m =>
        su_deactivated user <> 1%Z
        /\ exists a, a ∈ syn_access_tokens (synapse env)
             /\ at_user_id a = su_name user
             /\ is_Some (at_device_id a) /\ ms_device_id m = at_device_id a
    | RCompatAccessToken m =>
        su_deactivated user <> 1%Z
        /\ exists a, a ∈ syn_access_tokens (synapse env)
             /\ at_user_id a = su_name user
             /\ is_Some (at_device_id a) /\ ma_access_token m = at_token a
    | RCompatRefreshToken m =>
        su_deactivated user <> 1%Z
        /\ exists a rt, a ∈ syn_access_tokens (synapse env)
             /\ at_user_id a = su_name user /\ is_Some (at_device_id a)
             /\ rt ∈ syn_refresh_tokens (synapse env)
             /\ at_refresh_token_id a = Some (rt_id rt)
             /\ mr_refresh_token m = rt_token rt
    end.
Proof.
  intros Hrun row Hrow. destruct (deriveUser_rows _ _ _ _ _ _ _ Hrun) as (Hd & _ & _).
  destruct Hd as (uid & pw & emails & links & groups & _ & -> & Hpw & Hem & Hli & Hgr).
  apply elem_of_cons in Hrow as [[= ->]|Hrow]; [done|].
  apply elem_of_app in Hrow as [Hrow|Hrow].
  { unfold password_rows in Hpw.
    destruct (truthy_string (su_password_hash user)) as [h|] eqn:Hh;
      [|subst pw; by apply elem_of_nil in Hrow].
    destruct Hpw as (id & _ & ->). apply list_elem_of_singleton in Hrow as [= ->]. simpl.
    destruct (su_password_hash user) as [[|c r]|]; simpl in Hh; try done.
    by injection Hh as <-. }
  apply elem_of_app in Hrow as [Hrow|Hrow].
  { destruct (Forall2_elem_r _ _ _ _ Hem Hrow) as (t & Ht & id & _ & [= ->]).
    apply list_elem_of_filter in Ht as [Hmed Ht].
    apply list_elem_of_filter in Ht as [Hname Ht].
    exists t. split; [done|]. split; [done|]. split; [|done].
    unfold is_email in Hmed. by apply String.eqb_eq. }
  apply elem_of_app in Hrow as [Hrow|Hrow].
  { destruct (Forall2_elem_r _ _ _ _ Hli Hrow) as (x & Hx & id & p & Hp & _ & [= ->]).
    apply list_elem_of_filter in Hx as [_ Hx].
    apply list_elem_of_filter in Hx as [Hname Hx].
    by exists x, p. }
  apply elem_of_concat in Hrow as (rows & Hrows & Hrow).
  destruct (Forall2_elem_r _ _ _ _ Hgr Hrows) as (a & Ha & Hg).
  unfold imported_tokens in Ha.
  destruct (Z.eqb (su_deactivated user) 1) eqn:Hdeact; [by apply elem_of_nil in Ha|].
  apply Z.eqb_neq in Hdeact.
  apply list_elem_of_filter in Ha as [[Hname Hdev] Ha].
  destruct Hg as (sid & aid & _ & _ & tail & -> & Htail).
  apply elem_of_cons in Hrow as [[= ->]|Hrow]; [split; [done|]; by exists a|].
  apply elem_of_cons in Hrow as [[= ->]|Hrow]; [split; [done|]; by exists a|].
  unfold refresh_of in Htail.
  destruct (truthy_num (at_refresh_token_id a)) as [id|] eqn:Hid; simpl in Htail;
    [|subst tail; by apply elem_of_nil in Hrow].
  destruct (List.find _ _) as [rt|] eqn:Hfind; [|subst tail; by apply elem_of_nil in Hrow].
  destruct Htail as (rid & _ & ->). apply list_elem_of_singleton in Hrow as [= ->].
  split; [done|]. apply find_some in Hfind as [Hin Hrt]. apply Z.eqb_eq in Hrt.
  exists a, rt. rewrite <- list_elem_of_In in Hin.
  repeat (split; [done|]). split; [|done].
  destruct (at_refresh_token_id a) as [[| |]|]; simpl in Hid; try done;
    injection Hid as <-; by rewrite Hrt.
Qed.

(** ** The normal form of an identifier *)

Lemma of_digits_cons base d ds :
  of_digits base (d :: ds) = (d * base ^ N.of_nat (length ds) + of_digits base ds)%N.
Proof.
  induction ds as [|x ds IH] using rev_ind.
  - unfold of_digits. simpl. lia.
  - rewrite app_comm_cons, !of_digits_snoc, IH, length_app. simpl.
    rewrite Nat.add_1_r, Nat2N.inj_succ, N.pow_succ_r'. lia.
Qed.

Lemma of_digits_bound base ds :
  Forall (fun d => (d < base)%N) ds -> (of_digits base ds < base ^ N.of_nat (length ds))%N.
Proof.
  induction ds as [|x ds IH] using rev_ind; intros Hds.
  - unfold of_digits. simpl. lia.
  - apply Forall_app in Hds as [Hds Hx]. apply Forall_cons in Hx as [Hx _].
    specialize (IH Hds). rewrite of_digits_snoc, length_app. simpl.
    rewrite Nat.add_1_r, Nat2N.inj_succ, N.pow_succ_r'. nia.
Qed.

Lemma crockford_val_bound c : (crockford_val c < 32)%N.
Proof. destruct c as [[] [] [] [] [] [] [] []]; by vm_compute. Qed.

Lemma crockford_val_first c : in_range "0" "7" c = true -> (crockford_val c < 8)%N.
Proof. destruct c as [[] [] [] [] [] [] [] []]; by vm_compute. Qed.

Lemma hex_val_bound c : (hex_val c < 16)%N.
Proof. destruct c as [[] [] [] [] [] [] [] []]; by vm_compute. Qed.

Lemma take_class_split p k cs r :
  take_class p k cs = Some r -> exists a, cs = a ++ r /\ length a = k.
Proof.
  revert cs. induction k as [|k IH]; intros cs; simpl.
  - intros [= ->]. by exists [].
  - destruct cs as [|c cs]; [done|]. destruct (p c); [|done].
    intros H. destruct (IH _ H) as (a & -> & Ha). exists (c :: a). simpl. by rewrite Ha.
Qed.

Lemma opt_split c cs r :
  opt c cs = Some r -> exists d, cs = d ++ r /\ (d = [] \/ d = [c]).
Proof.
  destruct cs as [|x cs]; simpl; [intros [= <-]; exists []; auto|].
  destruct (Ascii.eqb x c) eqn:Hx; intros [= <-]; [|exists []; auto].
  apply Ascii.eqb_eq in Hx as ->. exists [c]. auto.
Qed.

Lemma dash_filtered (d : list ascii) :
  d = [] \/ d = ["-"%char] ->
  length (filter (fun c => Uuid.not_dash c = true) d) = O.
Proof. by intros [-> | ->]. Qed.

Lemma ulid_bound s :
  Ulid.isCanonical s = true -> (Ulid.fromCanonicalTrusted s < 2 ^ 128)%N.
Proof.
  intros Hs. pose proof (ulid_length s Hs) as Hlen.
  unfold Ulid.isCanonical, matches in Hs. cbn [fold_left] in Hs.
  unfold Ulid.fromCanonicalTrusted.
  destruct (list_ascii_of_string s) as [|c cs]; [done|].
  simpl in Hs. destruct (in_range "0" "7" c) eqn:Hc; [|done]. clear Hs.
  rewrite map_cons, of_digits_cons, length_map.
  simpl in Hlen. injection Hlen as Hlen. rewrite Hlen.
  pose proof (crockford_val_first c Hc) as H0.
  assert (H1 : (of_digits 32 (map crockford_val cs) < 32 ^ N.of_nat 25)%N).
  { rewrite <- Hlen, <- (length_map crockford_val).
    apply of_digits_bound, Forall_map, Forall_forall. intros. apply crockford_val_bound. }
  change (2 ^ 128)%N with (8 * 32 ^ N.of_nat 25)%N. nia.
Qed.

Lemma hex_bound cs :
  (length cs <= 32)%nat -> (of_digits 16 (map hex_val cs) < 2 ^ 128)%N.
Proof.
  intros Hlen.
  assert (H : (of_digits 16 (map hex_val cs) < 16 ^ N.of_nat (length (map hex_val cs)))%N).
  { apply of_digits_bound, Forall_map, Forall_forall. intros. apply hex_val_bound. }
  rewrite length_map in H. eapply N.lt_le_trans; [exact H|].
  change (2 ^ 128)%N with (16 ^ 32)%N. apply N.pow_le_mono_r; lia.
Qed.

Lemma uuid_bound s :
  Uuid.isCanonical s = true -> (Uuid.fromCanonicalTrusted s < 2 ^ 128)%N.
Proof.
  unfold Uuid.isCanonical, matches, Uuid.fromCanonicalTrusted. cbn [fold_left].
  intros Hs. apply hex_bound.
  repeat match type of Hs with
         | context [take_class ?p ?k ?cs] =>
             let a := fresh "a" in let r := fresh "r" in let E := fresh "E" in
             destruct (take_class p k cs) as [r|] eqn:E; [|done];
             apply take_class_split in E as (a & -> & ?)
         | context [opt ?c ?cs] =>
             let d := fresh "d" in let r := fresh "r" in let E := fresh "E" in
             destruct (opt c cs) as [r|] eqn:E; [|done];
             apply opt_split in E as (d & -> & ?)
         end.
  destruct r; [|done]. rewrite app_nil_r.
  assert (Hle : forall l : list ascii,
            (length (filter (fun c => Uuid.not_dash c = true) l) <= length l)%nat).
  { intros l. apply length_filter. }
  rewrite !filter_app, !length_app.
  repeat match goal with
         | H : _ = [] \/ _ = [_] |- _ => apply dash_filtered in H
         end.
  repeat match goal with
         | H : length ?a = 4%nat |- _ =>
             let H' := fresh in pose proof (Hle a) as H'; rewrite H in H'; clear H
         end.
  lia.
Qed.

Lemma raw_bound s bytes : Uuid.fromRaw s = Some bytes -> (bytes < 2 ^ 128)%N.
Proof.
  unfold Uuid.fromRaw, Uuid.isRaw, matches. cbn [fold_left].
  destruct (take_class is_hex 32 _) as [r|] eqn:E; [|done].
  destruct r; [|done]. intros [= <-].
  apply take_class_length in E. apply hex_bound. simpl in E. lia.
Qed.

Lemma parseBytes_bound s bytes : parseBytes s = Some bytes -> (bytes < 2 ^ 128)%N.
Proof.
  unfold parseBytes.
  destruct (Ulid.isCanonical s) eqn:Hu; [intros [= <-]; by apply ulid_bound|].
  destruct (Uuid.isCanonical s) eqn:Hc; [intros [= <-]; by apply uuid_bound|].
  apply raw_bound.
Qed.

(** X11: whatever text [parseUuidOrUlid] accepts (a canonical ULID, a UUID
    with or without some of its dashes, upper or lower case), the pair it
    returns is a normal form: the first text is a canonical UUID text, the
    second a canonical ULID text, both denote the bytes of the text given, and
    parsing either of them returns the same pair. *)
Theorem parsed_pair_is_a_normal_form s uuid ulid :
  parseUuidOrUlid s = Some (uuid, ulid) ->
  Uuid.isCanonical uuid = true
  /\ Ulid.isCanonical ulid = true
  /\ parseUuidOrUlid uuid = Some (uuid, ulid)
  /\ parseUuidOrUlid ulid = Some (uuid, ulid)
  /\ parseBytes uuid = parseBytes s
  /\ parseBytes ulid = parseBytes s.
Proof.
  unfold parseUuidOrUlid. destruct (parseBytes s) as [bytes|] eqn:Hs; [|done].
  simpl. intros [= <- <-]. pose proof (parseBytes_bound _ _ Hs) as Hb.
  rewrite parse_uuid_text, parse_ulid_text by done. simpl.
  by rewrite uuid_canonical, ulid_canonical.
Qed.

Lemma parsed_pair_is_a_normal_form_witness :
  let uuid := "01563E3A-B5D3-D676-4C61-EFB99302BD5B" in
  let ulid := "01ARZ3NDEKTSV4RRFFQ69G5FAV" in
  Uuid.isCanonical uuid = true
  /\ Ulid.isCanonical ulid = true
  /\ parseUuidOrUlid uuid = Some (uuid, ulid)
  /\ parseUuidOrUlid ulid = Some (uuid, ulid)
  /\ parseBytes uuid = parseBytes "0156-3e3a-b5d3-d676-4c61-efb9-9302-bd5b"
  /\ parseBytes ulid = parseBytes "0156-3e3a-b5d3-d676-4c61-efb9-9302-bd5b".
Proof.
  apply (parsed_pair_is_a_normal_form "0156-3e3a-b5d3-d676-4c61-efb9-9302-bd5b").
  vm_compute. reflexivity.
Defined.

(** ** The user name *)

Lemma before_colon_app l rest :
  Js.split ":" l = [l] -> before_colon (l +:+ String ":" rest) = l.
Proof.
  induction l as [|c l IH]; simpl; [done|].
  destruct (Ascii.eqb c ":") eqn:Hc; [done|].
  destruct (Js.split ":" l) as [|p ps] eqn:Hsplit; [by apply split_nonempty in Hsplit|].
  intros [= -> ->]. by rewrite IH.
Qed.

(** X12: for a user name made of a sigil, a local part without a colon, a
    colon and a server name, the migrated user name is the local part,
    whatever the server name holds (a port, say); a name without any colon
    loses its first character only. *)
Theorem localpart_of_a_matrix_id sigil l server :
  sigil <> ":"%char -> Js.split ":" l = [l] ->
  localpart (String sigil (l +:+ String ":" server)) = l
  /\ localpart (String sigil l) = l.
Proof.
  intros Hsigil Hl. rewrite !localpart_eq. simpl.
  apply Ascii.eqb_neq in Hsigil. rewrite Hsigil. simpl.
  split; [by apply before_colon_app|].
  clear Hsigil. induction l as [|c l IH]; simpl in *; [done|].
  destruct (Ascii.eqb c ":") eqn:Hc; [done|].
  destruct (Js.split ":" l) as [|p ps] eqn:Hsplit; [by apply split_nonempty in Hsplit|].
  injection Hl as -> ->. by rewrite IH.
Qed.

Lemma localpart_of_a_matrix_id_witness :
  localpart "@alice:example.org:8448" = "alice" /\ localpart "@alice" = "alice".
Proof.
  apply (localpart_of_a_matrix_id "@" "alice" "example.org:8448").
  - intros H. discriminate H.
  - reflexivity.
Defined.

(** ** What the redaction leaves alone *)

Ltac spared :=
  unfold date, nullable;
  repeat match goal with
         | |- context [match ?x with Some _ => _ | None => _ end] => destruct x
         | |- context [match ?x with At _ => _ | InvalidDate => _ end] => destruct x
         end;
  apply redact_nothing; reflexivity.

Lemma spared_MUser m : stringifyAndRedact (json_MUser m) = stringify (json_MUser m).
Proof. unfold json_MUser. spared. Qed.

Lemma spared_SUserThreePid t :
  stringifyAndRedact (json_SUserThreePid t) = stringify (json_SUserThreePid t).
Proof. unfold json_SUserThreePid. spared. Qed.

Lemma spared_MUserEmail m :
  stringifyAndRedact (json_MUserEmail m) = stringify (json_MUserEmail m).
Proof. unfold json_MUserEmail. spared. Qed.

Lemma spared_MUpstreamOauthLink m :
  stringifyAndRedact (json_MUpstreamOauthLink m) = stringify (json_MUpstreamOauthLink m).
Proof. unfold json_MUpstreamOauthLink. spared. Qed.

Lemma spared_MCompatSession m :
  stringifyAndRedact (json_MCompatSession m) = stringify (json_MCompatSession m).
Proof. unfold json_MCompatSession. spared. Qed.

Lemma spared_MCompatRefreshToken m :
  stringifyAndRedact (json_MCompatRefreshToken m) = stringify (json_MCompatRefreshToken m).
Proof. unfold json_MCompatRefreshToken. spared. Qed.

Lemma spared_SUser u :
  su_password_hash u = None ->
  stringifyAndRedact (json_SUser u) = stringify (json_SUser u).
Proof. intros Hh. unfold json_SUser. rewrite Hh. spared. Qed.

(** X13: the redaction changes nothing in the text of a record that has no
    text under one of the four names, whatever its fields hold (quotes and
    backslashes included): the target user, e-mail, link and session records,
    the source three-pid record, and the source user record without a
    password hash. *)
Theorem redaction_spares_the_other_records :
  (forall m, stringifyAndRedact (json_MUser m) = stringify (json_MUser m))
  /\ (forall t, stringifyAndRedact (json_SUserThreePid t) = stringify (json_SUserThreePid t))
  /\ (forall m, stringifyAndRedact (json_MUserEmail m) = stringify (json_MUserEmail m))
  /\ (forall m, stringifyAndRedact (json_MUpstreamOauthLink m)
                = stringify (json_MUpstreamOauthLink m))
  /\ (forall m, stringifyAndRedact (json_MCompatSession m)
                = stringify (json_MCompatSession m))
  /\ (forall u, su_password_hash u = None ->
                stringifyAndRedact (json_SUser u) = stringify (json_SUser u)).
Proof.
  split; [exact spared_MUser|]. split; [exact spared_SUserThreePid|].
  split; [exact spared_MUserEmail|]. split; [exact spared_MUpstreamOauthLink|].
  split; [exact spared_MCompatSession|]. exact spared_SUser.
Qed.

Lemma redaction_spares_the_other_records_witness :
  stringifyAndRedact (json_SUser Fixture.carol) = stringify (json_SUser Fixture.carol).
Proof.
  destruct redaction_spares_the_other_records as (_ & _ & _ & _ & _ & Huser).
  apply (Huser Fixture.carol). reflexivity.
Defined.

(** ** The refresh token in the log *)

Lemma startsWith_app n b : Js.startsWith n (n +:+ b) = true.
Proof. induction n as [|c n IH]; [reflexivity|]. simpl. by rewrite Ascii.eqb_refl, IH. Qed.

Lemma occurs_here n hay : Js.startsWith n hay = true -> occurs n hay = true.
Proof. intros H. destruct hay; simpl; by rewrite H. Qed.

Lemma occurs_skip a n hay : occurs n hay = true -> occurs n (a +:+ hay) = true.
Proof.
  intros H. induction a as [|c a IH]; [by rewrite sapp_nil_l|].
  rewrite sapp_cons. cbn [occurs]. by rewrite IH, orb_true_r.
Qed.

Lemma occurs_head n b : occurs n (n +:+ b) = true.
Proof. apply occurs_here, startsWith_app. Qed.

Lemma wp_foldM_app {A X} (f : A -> X -> M A) l1 l2 a Q E st :
  wp (foldM f l1 a) (fun a' s => wp (foldM f l2 a') Q E s) E st ->
  wp (foldM f (l1 ++ l2) a) Q E st.
Proof.
  revert a st. induction l1 as [|x l1 IH]; intros a st; simpl; [done|].
  intros H. apply wp_bind. unfold wp in H at 1. unfold mbind, M_bind in H.
  unfold wp at 1. destruct (f a x st) as [s [a'|y]]; [by apply IH|done].
Qed.

Lemma refresh_line_logged env up user st a rt :
  a ∈ imported_tokens (synapse env) user -> refresh_of (synapse env) a = Some rt ->
  wp (deriveUser env up user)
    (fun _ s => exists r, mr_refresh_token r = rt_token rt /\ refresh_line rt r ∈ log s)
    (fun _ _ => True) st.
Proof.
  intros Ha Hrt. unfold imported_tokens in Ha.
  destruct (Z.eqb (su_deactivated user) 1) eqn:Hd; [by apply elem_of_nil in Ha|].
  unfold deriveUser. rewrite Hd.
  repeat (wp_step; eapply wp_mono; [apply wp_true| |done]; intros ? ? _).
  fold (access_tokens_of (synapse env) user).
  apply list_elem_of_split in Ha as (l1 & l2 & ->).
  apply wp_foldM_app. eapply wp_mono; [apply wp_true| |done]. intros [w0 ex0] sa _.
  cbn [foldM]. wp_step. unfold importAccessToken.
  wp_step. apply wp_makeUuid; [|done]. intros sid _.
  wp_step. wp_step. wp_step. apply wp_makeUuid; [|done]. intros aid _.
  wp_step. wp_step.
  unfold refresh_of in Hrt.
  destruct (truthy_num (at_refresh_token_id a)) as [id|]; [|done]. simpl in Hrt.
  rewrite Hrt.
  wp_step. apply wp_query; [intros _|done].
  wp_step. apply wp_makeUuid; [|done]. intros rid _.
  wp_step. wp_step. wp_step.
  match goal with |- wp ?rest _ _ ?s2 =>
    eapply wp_mono;
      [apply (keeps_wp (fun s' => exists r, mr_refresh_token r = rt_token rt
                                   /\ refresh_line rt r ∈ log s') rest s2) | |] end.
  - unfold importAccessToken.
    repeat keeps_step; cbv beta in *;
      match goal with
      | H : ex _ |- _ =>
          destruct H as (? & ? & ?); eexists; split; [eassumption|];
          simpl; rewrite ?elem_of_app; auto
      end.
  - eexists {| mr_compat_refresh_token_id := rid; mr_compat_session_id := sid;
                mr_compat_access_token_id := aid; mr_refresh_token := rt_token rt;
                mr_created_at := _ |}.
    split; [done|]. cbn [log logged draw fst snd issue]. rewrite !elem_of_app. right.
    unfold refresh_line. rewrite <- spared_MCompatRefreshToken. apply list_elem_of_singleton.
    reflexivity.
  - done.
  - done.
Qed.

(** X14: the text of a refresh token is not among the four names the
    redaction looks for ([refresh_token] is not [token]), so the record of a
    migrated refresh token is rendered as it is, and the debug line logged for
    it holds the refresh token in clear. *)
Theorem refresh_token_is_logged_in_clear env up user st st' acc a rt :
  deriveUser env up user st = (st', Ok acc) ->
  a ∈ imported_tokens (synapse env) user ->
  refresh_of (synapse env) a = Some rt ->
  exists r,
    mr_refresh_token r = rt_token rt
    /\ stringifyAndRedact (json_MCompatRefreshToken r) = stringify (json_MCompatRefreshToken r)
    /\ refresh_line rt r ∈ log st'
    /\ occurs (quoted (rt_token rt)) (refresh_line rt r).2 = true.
Proof.
  intros Hrun Ha Hrt.
  pose proof (wp_eq _ _ _ _ _ _ Hrun (refresh_line_logged env up user st a rt Ha Hrt))
    as (r & Hr & Hline).
  exists r. split; [done|]. split; [apply spared_MCompatRefreshToken|]. split; [done|].
  unfold refresh_line, json_MCompatRefreshToken. cbn [snd stringify map fst snd].
  rewrite Hr. unfold member at 4. cbn [stringify join]. rewrite !sapp_assoc.
  repeat first [apply occurs_head | apply occurs_skip].
Qed.

(** ** The report of a completed run *)

Lemma commitUser_keeps_warnings env user w ex ws :
  keeps (fun s => warnings s = ws) (commitUser env user w ex).
Proof.
  unfold commitUser, run_execution, transaction, commit, rollback.
  repeat keeps_step; done.
Qed.

Lemma processUsers_warnings env up rows st :
  wp (processUsers env up rows)
    (fun n s =>
       n = length rows
       /\ warnings s = warnings st ++ concat (map (warnings_of (synapse env)) rows))
    (fun _ _ => True) st.
Proof.
  apply (wp_processUsers env up rows
           (fun done n s =>
              n = length done
              /\ warnings s
                 = warnings st ++ concat (map (warnings_of (synapse env)) done))
           (fun _ _ => True)).
  - intros done user rest n s _ (Hn & Hs). unfold migrateUser. wp_step.
    eapply wp_mono; [apply (deriveUser_spec env (fun _ _ => True))| |done];
      [done|done|done|].
    intros [w ex] s1 (_ & _ & Hs1). simpl.
    eapply wp_mono;
      [apply (keeps_wp _ _ _ (commitUser_keeps_warnings env user w ex (warnings s1)));
       done| |done].
    intros [] s2 Hs2. simpl. split.
    + rewrite length_app. simpl. lia.
    + rewrite Hs2, Hs1, Hs, map_app, concat_app. simpl.
      by rewrite app_nil_r, <- app_assoc.
  - done.
  - simpl. by rewrite app_nil_r.
Qed.

Lemma migrate_report env rows providers :
  wp (migrate env)
    (fun _ s =>
       let users := filter (fun u => su_appservice_id u = None) (syn_users (synapse env)) in
       warnings s = concat (map (warnings_of (synapse env)) users)
       /\ fatals s = O
       /\ (exists before,
             log s = before
                     ++ (INFO, msg_summary (dryRun env) (length users) 0
                                 (length (warnings s)))
                     :: replay (warnings s))
       /\ (dryRun env = false -> warnings s = []))
    (fun _ _ => True) (initial rows providers).
Proof.
  unfold migrate. wp_step.
  eapply wp_mono;
    [apply (keeps_wp (fun s => warnings s = [])); [|done] | |done].
  { apply keeps_foldM. intros. unfold loadProvider. repeat keeps_step; done. }
  intros up s1 Hs1. wp_step.
  apply wp_query; [intros _|done].
  wp_step. unfold wp at 1. simpl.
  wp_step.
  apply wp_mono with (Q := fun _ s => warnings s = []) (E := fun _ _ => True);
    [| |done].
  { destruct (0 <? _)%nat; [|by wp_step]. apply wp_fatal; done. }
  intros a2 s2 Hs2. wp_step.
  apply wp_mono with
    (Q := fun n s =>
            n = length (filter (fun u => su_appservice_id u = None)
                          (syn_users (synapse env)))
            /\ warnings s
               = concat (map (warnings_of (synapse env))
                           (filter (fun u => su_appservice_id u = None)
                              (syn_users (synapse env))))
            /\ (dryRun env = false -> warnings s = []))
    (E := fun _ _ => True); [| |done].
  { eapply wp_mono;
      [apply wp_and;
         [apply processUsers_warnings
         |apply processUsers_replay; by intros _]
      | |done].
    simpl. intros n s ((Hn & Hs) & Hreal). by rewrite Hs2 in Hs. }
  intros n s3 (-> & Hs3 & Hreal). unfold summary.
  wp_step. unfold wp at 1. simpl. wp_step. wp_step. wp_step.
  unfold wp at 1. rewrite replay_warnings_eq.
  destruct (0 <? fatals s3)%nat eqn:Hf; unfold wp; simpl; [done|].
  apply Nat.ltb_ge in Hf. assert (fatals s3 = O) as -> by lia.
  split; [done|]. split; [done|]. split; [|done].
  exists (log s3). by rewrite <- app_assoc.
Qed.

(** X15: when a run completes, every user of the source store that no
    application service owns has been processed, in order; the warnings
    reported are exactly the warnings of these users, user by user; no fatal
    was counted; and the log ends with the summary line, which gives these
    numbers, followed by the warnings.  A real run completes only without
    any warning. *)
Theorem completed_run_report env rows providers st' :
  migrate env (initial rows providers) = (st', Ok tt) ->
  let users := filter (fun u => su_appservice_id u = None) (syn_users (synapse env)) in
  warnings st' = concat (map (warnings_of (synapse env)) users)
  /\ fatals st' = O
  /\ (exists before,
        log st' = before
                  ++ (INFO, msg_summary (dryRun env) (length users) 0
                              (length (warnings st')))
                  :: replay (warnings st'))
  /\ (dryRun env = false -> warnings st' = []).
Proof.
  intros Hrun users.
  exact (wp_eq _ _ _ _ _ _ Hrun (migrate_report env rows providers)).
Qed.

Lemma completed_run_report_witness :
  let env := Fixture.run true Fixture.full ["oidc:01ARZ3NDEKTSV4RRFFQ69G5FAV"]
               Fixture.accept_all in
  let st' := (migrate env (initial [] [Fixture.keycloak])).1 in
  let users := filter (fun u => su_appservice_id u = None) (syn_users (synapse env)) in
  warnings st' = concat (map (warnings_of (synapse env)) users)
  /\ fatals st' = O
  /\ (exists before,
        log st' = before
                  ++ (INFO, msg_summary (dryRun env) (length users) 0
                              (length (warnings st')))
                  :: replay (warnings st'))
  /\ (dryRun env = false -> warnings st' = []).
Proof.
  apply (completed_run_report
           (Fixture.run true Fixture.full ["oidc:01ARZ3NDEKTSV4RRFFQ69G5FAV"]
              Fixture.accept_all) [] [Fixture.keycloak]).
  vm_compute. reflexivity.
Defined.

(** ** An external id of a provider that is not mapped *)

Lemma deriveUser_counts env up user n :
  keeps (fun s => (n <= fatals s)%nat) (deriveUser env up user).
Proof.
  unfold deriveUser, importThreePid, importExternalId, importAccessToken.
  repeat keeps_step; simpl; lia.
Qed.

Lemma commitUser_counts env user w ex n :
  keeps (fun s => (n <= fatals s)%nat) (commitUser env user w ex).
Proof.
  unfold commitUser, run_execution, transaction, commit, rollback.
  repeat keeps_step; simpl; lia.
Qed.

Lemma commitUser_dry_mutes env user w ex st0 :
  dryRun env = true -> keeps (quiet is_mutation st0) (commitUser env user w ex).
Proof.
  intros Hdry. unfold commitUser. rewrite Hdry. simpl.
  repeat keeps_step; quiet_leaf.
Qed.

Lemma unmapped_counts env up user st x :
  x ∈ external_ids_of (synapse env) user -> up !! ex_auth_provider x = None ->
  wp (deriveUser env up user)
    (fun _ s => dryRun env = true /\ (fatals st < fatals s)%nat)
    (fun _ _ => True) st.
Proof.
  intros Hx Hnone. unfold deriveUser.
  do 8 (wp_step;
        eapply wp_mono;
          [apply (keeps_wp (fun s => (fatals st <= fatals s)%nat));
             [unfold importThreePid; repeat keeps_step; simpl; lia|first [done|lia]]
          | |done];
        intros ? ? ?; cbv beta in * ).
  wp_step. fold (external_ids_of (synapse env) user).
  apply list_elem_of_split in Hx as (l1 & l2 & Hsplit). rewrite Hsplit at 2.
  apply wp_foldM_app.
  eapply wp_mono;
    [apply (keeps_wp (fun s => (fatals st <= fatals s)%nat));
       [unfold importExternalId; repeat keeps_step; simpl; lia|done]
    | |done].
  intros ex1 sa Hsa. cbv beta in Hsa. cbn [foldM]. wp_step.
  unfold importExternalId at 1. rewrite Hnone. wp_step. wp_step. wp_step.
  apply wp_fatal; [|done]. intros Hdry. wp_step.
  match goal with |- wp ?rest _ _ ?s2 =>
    eapply wp_mono;
      [apply (keeps_wp (fun s => dryRun env = true /\ (fatals st < fatals s)%nat) rest s2)
      | |done] end.
  - unfold importExternalId. repeat keeps_step; (split; [tauto|]); simpl in *; lia.
  - split; [done|]. unfold count_fatal, logged. simpl. lia.
  - intros ex2 sb Hsb. cbv beta in Hsb.
    match goal with |- wp ?rest _ _ ?s2 =>
      eapply wp_mono;
        [apply (keeps_wp (fun s => dryRun env = true /\ (fatals st < fatals s)%nat) rest s2)
        | |done] end.
    + unfold importAccessToken. repeat keeps_step; (split; [tauto|]); simpl in *; lia.
    + done.
    + done.
Qed.

(** X16: a user with an external id whose provider has not been mapped is
    not migrated: nothing is written for that user; a real run stops there
    (through [fatal], unless a refused timestamp or a query that the source
    store has failed stopped it before), and a dry run that goes on has
    counted a fatal. *)
Theorem unmapped_provider_is_fatal env up user st x :
  x ∈ syn_user_external_ids (synapse env) -> ex_user_id x = su_name user ->
  up !! ex_auth_provider x = None ->
  let r := migrateUser env up user st in
  quiet is_mutation st r.1
  /\ (dryRun env = false ->
      r.2 = Stop (Exit 1) \/ r.2 = Stop (Throw InvalidEpoch)
      \/ exists t, fails env (trace r.1) (SynSelect t) = true
                   /\ r.2 = Stop (Throw (Unavailable (SynSelect t))))
  /\ (dryRun env = true -> r.2 = Ok tt -> (fatals st < fatals r.1)%nat).
Proof.
  intros Hx Hname Hnone r. subst r.
  assert (Hin : x ∈ external_ids_of (synapse env) user) by (by apply list_elem_of_filter).
  pose proof (unmapped_counts env up user st x Hin Hnone) as Hcount.
  pose proof (deriveUser_facts env up user st) as Hfacts.
  unfold migrateUser, mbind, M_bind. unfold wp in Hcount, Hfacts.
  destruct (deriveUser env up user st) as [s1 [[w ex]|y]].
  - destruct Hcount as [Hdry Hlt]. destruct Hfacts as (_ & _ & Hq). simpl.
    pose proof (commitUser_dry_mutes env user w ex st Hdry s1 Hq) as Hq2.
    pose proof (commitUser_counts env user w ex (fatals s1) s1 (le_n _)) as Hc2.
    cbv beta in Hc2. split; [done|]. split; [congruence|]. intros _ _. lia.
  - destruct Hfacts as (Hy & Hq). simpl. split; [done|]. split; [|done].
    intros _. destruct Hy as [->|[(t & -> & Hf)|[-> _]]]; eauto.
Qed.

Lemma unmapped_provider_is_fatal_witness :
  let env := Fixture.run false Fixture.full [] Fixture.accept_all in
  let x := {| ex_auth_provider := "oidc"; ex_external_id := "carol-subject";
              ex_user_id := "@carol:example.org" |} in
  let r := migrateUser env ∅ Fixture.carol (initial [] []) in
  quiet is_mutation (initial [] []) r.1
  /\ (dryRun env = false ->
      r.2 = Stop (Exit 1) \/ r.2 = Stop (Throw InvalidEpoch)
      \/ exists t, fails env (trace r.1) (SynSelect t) = true
                   /\ r.2 = Stop (Throw (Unavailable (SynSelect t))))
  /\ (dryRun env = true -> r.2 = Ok tt -> (fatals (initial [] []) < fatals r.1)%nat).
Proof.
  apply (unmapped_provider_is_fatal (Fixture.run false Fixture.full [] Fixture.accept_all)
           ∅ Fixture.carol (initial [] [])
           {| ex_auth_provider := "oidc"; ex_external_id := "carol-subject";
              ex_user_id := "@carol:example.org" |}).
  - simpl. left.
  - reflexivity.
  - reflexivity.
Defined.

(** ** What a completed real run leaves in the target store *)

Lemma migrateUser_real env up user st :
  dryRun env = false ->
  wp (migrateUser env up user)
    (fun _ s =>
       exists ex,
         derived env up user ex
         /\ Knex.committed (mas s) = Knex.committed (mas st) ++ map snd ex
         /\ Knex.pending (mas s) = None)
    (fun _ _ => True) st.
Proof.
  intros Hdry. unfold migrateUser. wp_step.
  eapply wp_mono; [apply deriveUser_facts| |done].
  intros [w ex] s1 (Hder & Hw & Hm & Hi). simpl in *.
  destruct w as [|w].
  - eapply wp_mono;
      [apply (commitUser_real env user ex s1 Hdry (derived_pool _ _ _ _ Hder))| |done].
    intros [] s2 (Hc & Hp & Ht). exists ex. by rewrite Hc, Hm.
  - unfold wp. rewrite commitUser_escalates, Hdry by lia. done.
Qed.

Lemma processUsers_real env up rows st :
  dryRun env = false -> Knex.pending (mas st) = None ->
  wp (processUsers env up rows)
    (fun _ s =>
       exists exs,
         Forall2 (derived env up) rows exs
         /\ Knex.committed (mas s)
            = Knex.committed (mas st) ++ concat (map (map snd) exs)
         /\ Knex.pending (mas s) = None)
    (fun _ _ => True) st.
Proof.
  intros Hdry Hpending.
  apply (wp_processUsers env up rows
           (fun done _ s =>
              exists exs,
                Forall2 (derived env up) done exs
                /\ Knex.committed (mas s)
                   = Knex.committed (mas st) ++ concat (map (map snd) exs)
                /\ Knex.pending (mas s) = None)
           (fun _ _ => True)).
  - intros done user rest n s _ (exs & Hexs & Hc & Hp).
    eapply wp_mono; [by apply migrateUser_real| |done].
    intros [] s2 (ex & Hex & Hc2 & Hp2).
    exists (exs ++ [ex]). split; [apply Forall2_app; [done|by constructor]|].
    split; [|done].
    rewrite Hc2, Hc, map_app, concat_app. simpl. by rewrite app_nil_r, <- app_assoc.
  - done.
  - exists []. split; [constructor|]. simpl. by rewrite app_nil_r.
Qed.

Lemma filter_none {X} (p : X -> bool) l :
  Forall (fun x => p x = false) l -> filter (fun x => p x = true) l = [].
Proof.
  induction 1 as [|x l Hx _ IH]; [done|].
  rewrite filter_cons_False; [done|]. by rewrite Hx.
Qed.

Lemma derived_users_count env up users exs :
  Forall2 (derived env up) users exs ->
  length (filter (fun r => is_user_row r = true) (concat (map (map snd) exs)))
  = length users.
Proof.
  induction 1 as [|u ex users exs Hd _ IH]; [done|].
  destruct (derived_user_first _ _ _ _ Hd) as (m & rest & Hex & Hrest).
  simpl. rewrite Hex, filter_app, length_app, IH.
  rewrite filter_cons_True by done. by rewrite (filter_none is_user_row rest).
Qed.

(** X17: when a real run completes, the target table of users was empty
    before it, and the target store holds, after the rows it held, the rows
    derived for each user of the source store that no application service
    owns, user by user and in the order of derivation; no transaction is left
    open, and the table of users has gained one row for each of these users. *)
Theorem completed_real_run env rows providers st' :
  dryRun env = false ->
  migrate env (initial rows providers) = (st', Ok tt) ->
  let users := filter (fun u => su_appservice_id u = None) (syn_users (synapse env)) in
  filter (fun r => is_user_row r = true) rows = []
  /\ exists up exs,
       (foldM (loadProvider env) (upstreamProviderMapping env) ∅ (initial rows providers)).2
       = Ok up
       /\ Forall2 (derived env up) users exs
       /\ Knex.committed (mas st') = rows ++ concat (map (map snd) exs)
       /\ Knex.pending (mas st') = None
       /\ Knex.count_users (mas st') = length users.
Proof.
  intros Hdry Hrun users. unfold migrate in Hrun.
  pose proof (keeps_foldM (quiet is_write_or_extraction (initial rows providers))
                (loadProvider env) (upstreamProviderMapping env) ∅
                (fun a x => loadProvider_quiet env a x _) _ (quiet_refl _ _)) as [Hmas _].
  destruct (foldM (loadProvider env) _ _ _) as [s1 [up|x]] eqn:Hload;
    [|by erewrite bind_stop in Hrun by exact Hload].
  erewrite bind_ok in Hrun by exact Hload. simpl in Hmas.
  pose proof (query_eq env (MasSelect "users") s1) as Hq.
  destruct (fails env (trace s1 ++ _) _);
    [by erewrite bind_stop in Hrun by exact Hq|].
  erewrite bind_ok in Hrun by exact Hq.
  erewrite bind_ok in Hrun by reflexivity.
  cbn [issue fst mas] in Hrun. rewrite Hmas in Hrun.
  unfold Knex.count_users in Hrun at 1. cbn [Knex.committed] in Hrun.
  destruct (0 <? _)%nat eqn:Hcount.
  { erewrite bind_stop in Hrun by (by apply fatal_real). done. }
  apply Nat.ltb_ge in Hcount.
  assert (Hempty : filter (fun r => is_user_row r = true) rows = []).
  { destruct (filter _ rows); [done|]. simpl in Hcount. lia. }
  split; [done|].
  erewrite bind_ok in Hrun by reflexivity.
  fold users in Hrun.
  match type of Hrun with (_ ≫= _) ?s = _ => set (s2 := s) in Hrun end.
  assert (Hs2 : Knex.pending (mas s2) = None /\ Knex.committed (mas s2) = rows).
  { subst s2. simpl. done. }
  destruct Hs2 as [Hp2 Hc2].
  assert (Husers : wp (processUsers env up users)
            (fun _ s => exists exs,
                 Forall2 (derived env up) users exs
                 /\ Knex.committed (mas s) = rows ++ concat (map (map snd) exs)
                 /\ Knex.pending (mas s) = None)
            (fun _ _ => True) s2).
  { eapply wp_mono; [by apply processUsers_real| |done].
    intros n s (exs & H1 & H2 & H3). exists exs. by rewrite <- Hc2. }
  unfold wp in Husers.
  destruct (processUsers env up users s2) as [s3 [n|x]] eqn:Hloop;
    [|by erewrite bind_stop in Hrun by exact Hloop].
  erewrite bind_ok in Hrun by exact Hloop.
  destruct Husers as (exs & Hexs & Hc3 & Hp3).
  assert (Hsum : mas st' = mas s3).
  { pose proof (keeps_wp (fun s => mas s = mas s3) (summary env n) s3) as Hk.
    unfold wp in Hk. rewrite Hrun in Hk. apply Hk; [|done].
    unfold summary. repeat keeps_step; done. }
  exists up, exs. rewrite Hsum. split; [done|]. split; [done|]. split; [done|].
  split; [done|].
  unfold Knex.count_users. rewrite Hc3, filter_app, Hempty. simpl.
  by eapply derived_users_count.
Qed.

Lemma completed_real_run_witness :
  let env := Fixture.run false Fixture.source [] Fixture.accept_all in
  let st' := (migrate env (initial [] [])).1 in
  let users := filter (fun u => su_appservice_id u = None) (syn_users (synapse env)) in
  filter (fun r => is_user_row r = true) [] = []
  /\ exists up exs,
       (foldM (loadProvider env) (upstreamProviderMapping env) ∅ (initial [] [])).2 = Ok up
       /\ Forall2 (derived env up) users exs
       /\ Knex.committed (mas st') = [] ++ concat (map (map snd) exs)
       /\ Knex.pending (mas st') = None
       /\ Knex.count_users (mas st') = length users.
Proof.
  apply (completed_real_run (Fixture.run false Fixture.source [] Fixture.accept_all) [] []).
  - reflexivity.
  - vm_compute. reflexivity.
Defined.

(** ** A dry run predicts the real run *)

Lemma sim_ret {A} (a : A) : sim (mret a) (mret a).
Proof. by intros s1 s2 H. Qed.

Lemma sim_throw {A} e : sim (@throw A e) (@throw A e).
Proof. by intros s1 s2 H. Qed.

Lemma sim_exit {A} c : sim (@exit A c) (@exit A c).
Proof. by intros s1 s2 H. Qed.

Lemma sim_bind {A B} (m1 m2 : M A) (k1 k2 : A -> M B) :
  sim m1 m2 -> (forall a, sim (k1 a) (k2 a)) -> sim (m1 ≫= k1) (m2 ≫= k2).
Proof.
  intros Hm Hk s1 s2 H. destruct (Hm s1 s2 H) as [Hr Hd].
  unfold mbind, M_bind.
  destruct (m1 s1) as [s1' [a|x]], (m2 s2) as [s2' [b|y]]; simpl in *;
    try discriminate.
  - injection Hr as ->. by apply Hk.
  - by injection Hr as ->.
Qed.

Lemma sim_try_catch {A} (b1 b2 : M A) h1 h2 :
  sim b1 b2 -> (forall e, sim (h1 e) (h2 e)) -> sim (try_catch b1 h1) (try_catch b2 h2).
Proof.
  intros Hb Hh s1 s2 H. destruct (Hb s1 s2 H) as [Hr Hd].
  unfold try_catch.
  destruct (b1 s1) as [s1' [a|[c|e]]], (b2 s2) as [s2' [b|[c'|e']]]; simpl in *;
    try discriminate; try done.
  injection Hr as ->. by apply Hh.
Qed.

Lemma sim_foldM {A X} (f g : A -> X -> M A) l :
  (forall a x, x ∈ l -> sim (f a x) (g a x)) -> forall a, sim (foldM f l a) (foldM g l a).
Proof.
  induction l as [|x l IH]; intros Hfg a; simpl; [apply sim_ret|].
  apply sim_bind; [apply Hfg; left|]. intros a'. apply IH.
  intros a0 x0 Hx0. apply Hfg. by right.
Qed.

Lemma sim_silent (m1 m2 : M unit) : silent m1 -> silent m2 -> sim m1 m2.
Proof.
  intros H1 H2 s1 s2 H. destruct (H1 s1) as [-> ->], (H2 s2) as [-> ->]. done.
Qed.

Lemma sim_ext {A} (m1 m1' m2 m2' : M A) :
  (forall s, m1 s = m1' s) -> (forall s, m2 s = m2' s) -> sim m1' m2' -> sim m1 m2.
Proof. intros H1 H2 Hs s1 s2 H. rewrite H1, H2. by apply Hs. Qed.

Lemma silent_emit l m : silent (emit l m).
Proof. by intros s. Qed.

Lemma silent_issue o : silent (issue o).
Proof. by intros s. Qed.

Lemma silent_warn m : silent (warn m).
Proof. by intros s. Qed.

Lemma sim_draw : sim draw draw.
Proof. intros s1 s2 H. simpl. by rewrite H. Qed.

Lemma sim_makeUuid env t : sim (makeUuid env t) (makeUuid env t).
Proof.
  unfold makeUuid. apply sim_bind; [apply sim_draw|]. intros i.
  destruct (Id128.Ulid.generate t _); [apply sim_ret|apply sim_throw].
Qed.

Lemma query_ok env o st :
  (forall issued o', fails env issued o' = false) ->
  query env o st = ((issue o st).1, Ok tt).
Proof. intros Hf. by rewrite query_eq, Hf. Qed.

Lemma await_ok env o st :
  (forall issued o', fails env issued o' = false) -> await env o st = (st, Ok tt).
Proof. intros Hf. by rewrite await_eq, Hf. Qed.

Lemma silent_query env o :
  (forall issued o', fails env issued o' = false) -> silent (query env o).
Proof. intros Hf s. by rewrite query_ok. Qed.

Ltac sim_step :=
  match goal with
  | |- sim (mbind _ _) (mbind _ _) => apply sim_bind; [|intros ?]
  | |- sim (mret _) (mret _) => apply sim_ret
  | |- sim (throw _) (throw _) => apply sim_throw
  | |- sim (makeUuid _ _) (makeUuid _ _) => apply sim_makeUuid
  | |- sim (query _ _) (query _ _) => apply sim_silent; apply silent_query; assumption
  | |- sim (emit _ _) (emit _ _) => apply sim_silent; apply silent_emit
  | |- sim (issue _) (issue _) => apply sim_silent; apply silent_issue
  | |- sim (warn _) (warn _) => apply sim_silent; apply silent_warn
  | |- sim (foldM _ ?l _) (foldM _ ?l _) => apply sim_foldM; intros ? ? ?
  | |- sim (if ?b then _ else _) (if ?b then _ else _) => destruct b eqn:?
  | |- sim (match ?x with _ => _ end) (match ?x with _ => _ end) => destruct x eqn:?
  | |- sim (let '(_, _) := ?x in _) (let '(_, _) := ?x in _) => destruct x
  end.

(** the loop over the external ids, when each names a mapped provider and
    the creation time of the user is a valid epoch: [fatal] is not reached *)
Lemma importExternalId_agree env up user masUser t all x :
  valid_epoch t = true -> is_Some (up !! ex_auth_provider x) ->
  forall ex,
    sim (importExternalId (with_dryRun true env) up user masUser t all ex x)
        (importExternalId (with_dryRun false env) up user masUser t all ex x).
Proof.
  intros Ht [p Hp] ex s1 s2 H.
  unfold importExternalId, try_catch. rewrite Hp.
  change (makeUuid (with_dryRun true env)) with (makeUuid env).
  change (makeUuid (with_dryRun false env)) with (makeUuid env).
  unfold mbind, M_bind. rewrite !makeUuid_valid by done. simpl. by rewrite H.
Qed.

Lemma deriveUser_agree env up user :
  (forall issued o, fails env issued o = false) ->
  su_is_guest user <> 1%Z -> all_mapped up (synapse env) user = true ->
  sim (deriveUser (with_dryRun true env) up user)
      (deriveUser (with_dryRun false env) up user).
Proof.
  intros Hf Hguest Hmapped.
  destruct (valid_epoch (new_Date (su_creation_ts user * 1000))) eqn:Ht.
  2:{ intros s1 s2 H. rewrite !deriveUser_invalid by done. simpl. by rewrite H. }
  unfold deriveUser. apply Z.eqb_neq in Hguest as Hg. rewrite Hg.
  change (makeUuid (with_dryRun true env)) with (makeUuid env).
  change (makeUuid (with_dryRun false env)) with (makeUuid env).
  change (query (with_dryRun true env)) with (query env).
  change (query (with_dryRun false env)) with (query env).
  change (importThreePid (with_dryRun true env)) with (importThreePid env).
  change (importThreePid (with_dryRun false env)) with (importThreePid env).
  change (importAccessToken (with_dryRun true env)) with (importAccessToken env).
  change (importAccessToken (with_dryRun false env)) with (importAccessToken env).
  cbn [synapse with_dryRun].
  unfold importThreePid, importAccessToken. repeat sim_step.
  all: apply importExternalId_agree; [done|].
  all: unfold all_mapped in Hmapped; rewrite forallb_forall in Hmapped.
  all: match goal with H : _ ∈ _ |- _ =>
         by apply list_elem_of_In, Hmapped, bool_decide_eq_true in H end.
Qed.

Lemma forallb_false {X} (p : X -> bool) l :
  forallb p l = false -> exists x, x ∈ l /\ p x = false.
Proof.
  induction l as [|x l IH]; simpl; [done|].
  destruct (p x) eqn:Hx; simpl.
  - intros H. destruct (IH H) as (y & Hy & Hpy). exists y. split; [by right|done].
  - intros _. exists x. split; [left|done].
Qed.

Lemma commitUser_draws_nothing env user w ex d :
  keeps (fun s => drawn s = d) (commitUser env user w ex).
Proof.
  unfold commitUser, run_execution, transaction, commit, rollback.
  repeat keeps_step; done.
Qed.

(** a store that accepts every row and fails no statement commits the rows
    of a user *)
Lemma commitUser_accepted env user ex st :
  dryRun env = false -> accepts_all env ->
  Forall (fun e : Execution => e.1 = Knex.Pool) ex ->
  exists s, commitUser env user 0 ex st = (s, Ok tt) /\ drawn s = drawn st.
Proof.
  intros Hdry [Hrej Hf] Hpool.
  pose proof (commitUser_real env user ex st Hdry Hpool) as Hc.
  pose proof (commitUser_draws_nothing env user 0 ex (drawn st) st eq_refl) as Hdraw.
  unfold wp in Hc.
  destruct (commitUser env user 0 ex st) as [s [[]|y]]; [by exists s|].
  destruct Hc as [(_ & Hbegin & _)
                 |[(done & e & rest & _ & _ & Hrow & _)|(_ & Hcommit & _)]].
  - by rewrite Hf in Hbegin.
  - by rewrite Hrej in Hrow.
  - by rewrite Hf in Hcommit.
Qed.

Lemma migrateUser_predicts env up user sd sr sd' :
  accepts_all env -> drawn sd = drawn sr ->
  migrateUser (with_dryRun true env) up user sd = (sd', Ok tt) ->
  fatals sd' = fatals sd -> warnings_of (synapse env) user = [] ->
  exists sr',
    migrateUser (with_dryRun false env) up user sr = (sr', Ok tt)
    /\ drawn sd' = drawn sr'.
Proof.
  intros Hacc Hdrawn Hrun Hfatals Hwarn.
  assert (Hguest : su_is_guest user <> 1%Z).
  { intros Hg.
    pose proof (migrateUser_guest_dry (with_dryRun true env) up user sd eq_refl Hg) as Hlt.
    rewrite Hrun in Hlt. simpl in Hlt. lia. }
  unfold migrateUser in Hrun.
  destruct (deriveUser (with_dryRun true env) up user sd) as [sd1 [[w ex]|x]] eqn:Hd;
    [|by erewrite bind_stop in Hrun by exact Hd].
  erewrite bind_ok in Hrun by exact Hd. simpl in Hrun.
  destruct (deriveUser_rows _ _ _ _ _ _ _ Hd) as (_ & Hw & _).
  cbn [synapse with_dryRun] in Hw. rewrite Hwarn in Hw. simpl in Hw. subst w.
  unfold commitUser in Hrun. simpl in Hrun. injection Hrun as <-.
  assert (Hmapped : all_mapped up (synapse env) user = true).
  { destruct (all_mapped up (synapse env) user) eqn:Hm; [done|]. exfalso.
    apply forallb_false in Hm as (x & Hx & Hnone).
    apply bool_decide_eq_false in Hnone.
    assert (Hnone' : up !! ex_auth_provider x = None).
    { destruct (up !! ex_auth_provider x) eqn:Hp; [|done]. destruct Hnone. by eexists. }
    pose proof (unmapped_counts (with_dryRun true env) up user sd x Hx Hnone') as Hc.
    unfold wp in Hc. rewrite Hd in Hc. lia. }
  destruct (deriveUser_agree env up user (proj2 Hacc) Hguest Hmapped sd sr Hdrawn)
    as [Hres Hdr].
  rewrite Hd in Hres, Hdr. simpl in Hres, Hdr.
  destruct (deriveUser (with_dryRun false env) up user sr) as [sr1 r] eqn:Hreal.
  simpl in Hres, Hdr. subst r.
  destruct (deriveUser_rows _ _ _ _ _ _ _ Hreal) as (Hder & _ & _).
  destruct (commitUser_accepted (with_dryRun false env) user ex sr1 eq_refl Hacc
              (derived_pool _ _ _ _ Hder)) as (sr2 & Hcommit & Hdraw).
  exists sr2. unfold migrateUser. erewrite bind_ok by exact Hreal. simpl.
  split; [done|]. congruence.
Qed.

Lemma migrateUsers_plain env next up rows st :
  (forall s, next s = (s, Ok tt)) ->
  migrateUsers env next up rows st
  = foldM (fun synapseUsers user =>
             migrateUser env up user;; mret (S synapseUsers)) rows O st.
Proof.
  intros Hnext. unfold migrateUsers.
  assert (Hloop : forall s,
            foldM (fun synapseUsers user =>
                     next;; migrateUser env up user;; mret (S synapseUsers)) rows O s
            = foldM (fun synapseUsers user =>
                       migrateUser env up user;; mret (S synapseUsers)) rows O s).
  { intros s. apply foldM_ext. intros a x s' _. by erewrite bind_ok by apply Hnext. }
  destruct (foldM (fun synapseUsers user =>
                     migrateUser env up user;; mret (S synapseUsers)) rows O st)
    as [s' [n|x]] eqn:Hplain.
  - erewrite bind_ok by (rewrite Hloop; exact Hplain).
    by erewrite bind_ok by apply Hnext.
  - by erewrite bind_stop by (rewrite Hloop; exact Hplain).
Qed.

(** when the stores fail no statement, the users are processed one after the
    other, whichever the source store is *)
Lemma processUsers_plain env up rows st :
  (forall issued o, fails env issued o = false) ->
  processUsers env up rows st
  = foldM (fun synapseUsers user =>
             migrateUser env up user;; mret (S synapseUsers)) rows O
      (issue (SynSelect "users") st).1.
Proof.
  intros Hf. unfold processUsers. destruct (sqlite3 env).
  - erewrite bind_ok by (by apply query_ok). by apply migrateUsers_plain.
  - erewrite bind_ok by reflexivity. apply migrateUsers_plain.
    intros s. by apply await_ok.
Qed.

Lemma processUsers_count env up rows k :
  keeps (fun s => (k <= fatals s)%nat) (processUsers env up rows).
Proof.
  unfold processUsers, migrateUsers.
  repeat first [ apply fatals_grow_migrateUser | keeps_step ]; done.
Qed.

Lemma migrateUsers_count env up rows n k :
  keeps (fun s => (k <= fatals s)%nat)
    (foldM (fun synapseUsers user =>
              migrateUser env up user;; mret (S synapseUsers)) rows n).
Proof.
  apply keeps_foldM. intros a u. apply keeps_bind; [|intros ?; apply keeps_ret].
  apply fatals_grow_migrateUser.
Qed.

Lemma migrateUsers_predict env up rows : forall n sd sr sd' n',
  accepts_all env -> drawn sd = drawn sr ->
  foldM (fun synapseUsers user =>
           migrateUser (with_dryRun true env) up user;; mret (S synapseUsers)) rows n sd
  = (sd', Ok n') ->
  fatals sd' = fatals sd ->
  (forall u, u ∈ rows -> warnings_of (synapse env) u = []) ->
  exists sr',
    foldM (fun synapseUsers user =>
             migrateUser (with_dryRun false env) up user;; mret (S synapseUsers)) rows n sr
    = (sr', Ok n')
    /\ drawn sd' = drawn sr'.
Proof.
  induction rows as [|u rows IH]; intros n sd sr sd' n' Hacc Hdrawn Hrun Hfatals Hwarn.
  - simpl in *. injection Hrun as <- <-. by exists sr.
  - cbn [foldM] in *.
    destruct (migrateUser (with_dryRun true env) up u sd) as [sd1 [[]|x]] eqn:Hu.
    2:{ erewrite bind_stop in Hrun; [done|]. by erewrite bind_stop by exact Hu. }
    erewrite bind_ok in Hrun by (by erewrite bind_ok by exact Hu).
    pose proof (fatals_grow_migrateUser (with_dryRun true env) up u (fatals sd) sd
                  (le_n _)) as H1.
    rewrite Hu in H1. simpl in H1.
    pose proof (migrateUsers_count (with_dryRun true env) up rows (S n) (fatals sd1) sd1
                  (le_n _)) as H2.
    rewrite Hrun in H2. simpl in H2.
    destruct (migrateUser_predicts env up u sd sr sd1 Hacc Hdrawn Hu) as (sr1 & Hr1 & Hd1);
      [lia|apply Hwarn; left|].
    destruct (IH (S n) sd1 sr1 sd' n' Hacc Hd1 Hrun) as (sr' & Hr' & Hd');
      [lia|intros u' Hu'; apply Hwarn; by right|].
    exists sr'. split; [|done].
    erewrite bind_ok by (by erewrite bind_ok by exact Hr1). done.
Qed.

Lemma migrateUsers_real_fatals env up rows n k :
  dryRun env = false ->
  keeps (fun s => fatals s = k)
    (foldM (fun synapseUsers user =>
              migrateUser env up user;; mret (S synapseUsers)) rows n).
Proof.
  intros Hdry.
  assert (Hfatal : forall m, keeps (fun s => fatals s = k) (fatal env m)).
  { intros m. by apply fatal_keeps_count. }
  unfold migrateUser, deriveUser, commitUser,
    importThreePid, importExternalId, importAccessToken, run_execution, transaction,
    commit, rollback.
  repeat first [ apply Hfatal | keeps_step ]; done.
Qed.

Lemma concat_nil_inv {X} (ls : list (list X)) l : concat ls = [] -> l ∈ ls -> l = [].
Proof.
  induction ls as [|l' ls IH]; intros Hnil Hl; [by apply elem_of_nil in Hl|].
  simpl in Hnil. apply app_eq_nil in Hnil as [Hl' Hls].
  apply elem_of_cons in Hl as [->|Hl]; [done|by apply IH].
Qed.

Lemma migrate_predicts env rows providers s_dry :
  accepts_all env ->
  migrate (with_dryRun true env) (initial rows providers) = (s_dry, Ok tt) ->
  warnings s_dry = [] ->
  exists s_real,
    migrate (with_dryRun false env) (initial rows providers) = (s_real, Ok tt).
Proof.
  intros Hacc Hrun Hwarn. pose proof (proj2 Hacc) as Hf.
  pose proof (migrate_ok_count (with_dryRun true env) (initial rows providers)) as Hzero.
  unfold wp in Hzero. rewrite Hrun in Hzero.
  unfold migrate in *. cbn [upstreamProviderMapping with_dryRun sqlite3 synapse] in *.
  change (loadProvider (with_dryRun true env)) with (loadProvider env) in *.
  change (loadProvider (with_dryRun false env)) with (loadProvider env) in *.
  set (users := filter (fun u => su_appservice_id u = None) (syn_users (synapse env))) in *.
  pose proof (keeps_foldM (only_lookups (initial rows providers))
                (loadProvider env) (upstreamProviderMapping env) ∅
                (fun a x => loadProvider_only_lookups env a x _) _ (only_lookups_refl _))
    as (Hmas & Hw1 & Hf1 & _).
  destruct (foldM (loadProvider env) _ _ _) as [s1 [up|x]] eqn:Hload;
    [|by erewrite bind_stop in Hrun by exact Hload].
  erewrite bind_ok in Hrun by exact Hload. erewrite bind_ok by exact Hload.
  simpl in Hmas, Hw1, Hf1.
  erewrite bind_ok in Hrun by (by apply query_ok).
  erewrite bind_ok by (by apply query_ok).
  erewrite bind_ok in Hrun by reflexivity. erewrite bind_ok by reflexivity.
  cbn [issue fst mas] in *.
  destruct (0 <? Knex.count_users (mas s1))%nat eqn:Hcount.
  { exfalso.
    erewrite bind_ok in Hrun by (rewrite fatal_dry by done; reflexivity).
    match type of Hrun with (?m ≫= ?k) ?s = _ =>
      pose proof (keeps_wp (fun s' => (1 <= fatals s')%nat) (m ≫= k) s) as Hk end.
    unfold wp in Hk. rewrite Hrun in Hk.
    assert (Hone : (1 <= fatals s_dry)%nat).
    { apply Hk.
      - apply keeps_bind; [apply processUsers_count|].
        intros n. unfold summary. repeat keeps_step; done.
      - simpl. lia. }
    lia. }
  erewrite bind_ok in Hrun by reflexivity. erewrite bind_ok by reflexivity.
  match type of Hrun with (_ ≫= _) ?s = _ => set (s2 := s) in * end.
  assert (Hs2 : fatals s2 = O /\ warnings s2 = []).
  { subst s2. simpl. by rewrite Hf1, Hw1. }
  destruct Hs2 as [Hf2 Hw2].
  destruct (processUsers (with_dryRun true env) up users s2) as [sd3 [n|x]] eqn:Hloop;
    [|by erewrite bind_stop in Hrun by exact Hloop].
  erewrite bind_ok in Hrun by exact Hloop.
  assert (Hsum : fatals sd3 = O /\ warnings sd3 = []).
  { pose proof (keeps_wp (fun s => fatals s = fatals sd3 /\ warnings s = warnings sd3)
                  (summary (with_dryRun true env) n) sd3) as Hk.
    unfold wp in Hk. rewrite Hrun in Hk. destruct Hk as [Hk1 Hk2]; [|done|].
    - unfold summary. repeat keeps_step; done.
    - split; congruence. }
  destruct Hsum as [Hf3 Hw3].
  pose proof (processUsers_warnings (with_dryRun true env) up users s2) as Hws.
  unfold wp in Hws. rewrite Hloop in Hws. destruct Hws as [_ Hws].
  cbn [synapse with_dryRun] in Hws.
  rewrite Hw3, Hw2 in Hws. simpl in Hws. symmetry in Hws.
  rewrite (processUsers_plain (with_dryRun true env)) in Hloop by exact Hf.
  destruct (migrateUsers_predict env up users 0 _ (issue (SynSelect "users") s2).1
              sd3 n Hacc eq_refl Hloop)
    as (sr3 & Hreal & _); [simpl; lia| |].
  { intros u Hu. apply (concat_nil_inv _ _ Hws). apply list_elem_of_fmap. by exists u. }
  erewrite bind_ok
    by (rewrite (processUsers_plain (with_dryRun false env)) by exact Hf; exact Hreal).
  pose proof (migrateUsers_real_fatals (with_dryRun false env) up users O O eq_refl
                (issue (SynSelect "users") s2).1 Hf2) as Hfr.
  rewrite Hreal in Hfr. cbn [fst] in Hfr.
  unfold summary, mbind, M_bind. simpl. rewrite replay_warnings_eq, Hfr. simpl.
  by eexists.
Qed.

Lemma migrateUser_postdicts env up user sd sr sr' :
  (forall issued o, fails env issued o = false) ->
  drawn sd = drawn sr ->
  migrateUser (with_dryRun false env) up user sr = (sr', Ok tt) ->
  exists sd',
    migrateUser (with_dryRun true env) up user sd = (sd', Ok tt)
    /\ drawn sd' = drawn sr' /\ fatals sd' = fatals sd /\ warnings sd' = warnings sd.
Proof.
  intros Hfail Hdrawn Hrun.
  assert (Hguest : su_is_guest user <> 1%Z).
  { intros Hg. by rewrite (migrateUser_guest_real (with_dryRun false env)) in Hrun. }
  unfold migrateUser in Hrun.
  destruct (deriveUser (with_dryRun false env) up user sr) as [sr1 [[w ex]|x]] eqn:Hd;
    [|by erewrite bind_stop in Hrun by exact Hd].
  erewrite bind_ok in Hrun by exact Hd. simpl in Hrun.
  destruct w as [|w]; [|by rewrite commitUser_escalates in Hrun by lia].
  assert (Hmapped : all_mapped up (synapse env) user = true).
  { destruct (all_mapped up (synapse env) user) eqn:Hm; [done|]. exfalso.
    apply forallb_false in Hm as (x & Hx & Hnone).
    apply bool_decide_eq_false in Hnone.
    assert (Hnone' : up !! ex_auth_provider x = None).
    { destruct (up !! ex_auth_provider x) eqn:Hp; [|done]. destruct Hnone. by eexists. }
    pose proof (unmapped_counts (with_dryRun false env) up user sr x Hx Hnone') as Hc.
    unfold wp in Hc. rewrite Hd in Hc. by destruct Hc. }
  destruct (deriveUser_agree env up user Hfail Hguest Hmapped sd sr Hdrawn) as [Hres Hdr].
  rewrite Hd in Hres, Hdr. simpl in Hres, Hdr.
  destruct (deriveUser (with_dryRun true env) up user sd) as [sd1 r] eqn:Hdry.
  simpl in Hres, Hdr. subst r.
  pose proof (deriveUser_rows _ _ _ _ _ _ _ Hdry) as (_ & Hw & Hws).
  cbn [synapse with_dryRun] in Hw, Hws.
  assert (Hnone : warnings_of (synapse env) user = [])
    by (by destruct (warnings_of (synapse env) user)).
  rewrite Hnone, app_nil_r in Hws.
  pose proof (deriveUser_real_fatals (with_dryRun false env) up user (fatals sd) eq_refl
                sd eq_refl) as Hf.
  rewrite <- deriveUser_mode, Hdry in Hf by done. simpl in Hf.
  pose proof (commitUser_draws_nothing (with_dryRun false env) user 0 ex (drawn sr1) sr1
                eq_refl) as Hdraw.
  rewrite Hrun in Hdraw. simpl in Hdraw.
  exists sd1. unfold migrateUser. erewrite bind_ok by exact Hdry.
  split; [done|]. split; [congruence|done].
Qed.

Lemma migrateUsers_postdict env up rows : forall n sd sr sr' n',
  (forall issued o, fails env issued o = false) ->
  drawn sd = drawn sr ->
  foldM (fun synapseUsers user =>
           migrateUser (with_dryRun false env) up user;; mret (S synapseUsers)) rows n sr
  = (sr', Ok n') ->
  exists sd',
    foldM (fun synapseUsers user =>
             migrateUser (with_dryRun true env) up user;; mret (S synapseUsers)) rows n sd
    = (sd', Ok n')
    /\ fatals sd' = fatals sd /\ warnings sd' = warnings sd.
Proof.
  induction rows as [|u rows IH]; intros n sd sr sr' n' Hfail Hdrawn Hrun.
  - simpl in *. injection Hrun as <- <-. by exists sd.
  - cbn [foldM] in *.
    destruct (migrateUser (with_dryRun false env) up u sr) as [sr1 [[]|x]] eqn:Hu.
    2:{ erewrite bind_stop in Hrun; [done|]. by erewrite bind_stop by exact Hu. }
    erewrite bind_ok in Hrun by (by erewrite bind_ok by exact Hu).
    destruct (migrateUser_postdicts env up u sd sr sr1 Hfail Hdrawn Hu)
      as (sd1 & Hd1 & Hdr1 & Hf1 & Hw1).
    destruct (IH (S n) sd1 sr1 sr' n' Hfail Hdr1 Hrun) as (sd' & Hd' & Hf' & Hw').
    exists sd'. split; [|split; congruence].
    erewrite bind_ok by (by erewrite bind_ok by exact Hd1). done.
Qed.

Lemma migrate_postdicts env rows providers s_real :
  accepts_all env ->
  migrate (with_dryRun false env) (initial rows providers) = (s_real, Ok tt) ->
  exists s_dry,
    migrate (with_dryRun true env) (initial rows providers) = (s_dry, Ok tt)
    /\ warnings s_dry = [].
Proof.
  intros Hacc Hrun. pose proof (proj2 Hacc) as Hf.
  unfold migrate in Hrun. cbn [upstreamProviderMapping with_dryRun sqlite3 synapse] in Hrun.
  change (loadProvider (with_dryRun false env)) with (loadProvider env) in Hrun.
  set (users := filter (fun u => su_appservice_id u = None) (syn_users (synapse env))) in *.
  pose proof (keeps_foldM (only_lookups (initial rows providers))
                (loadProvider env) (upstreamProviderMapping env) ∅
                (fun a x => loadProvider_only_lookups env a x _) _ (only_lookups_refl _))
    as (Hmas & Hw1 & Hf1 & _).
  destruct (foldM (loadProvider env) _ _ _) as [s1 [up|x]] eqn:Hload;
    [|by erewrite bind_stop in Hrun by exact Hload].
  erewrite bind_ok in Hrun by exact Hload.
  simpl in Hmas, Hw1, Hf1.
  erewrite bind_ok in Hrun by (by apply query_ok).
  erewrite bind_ok in Hrun by reflexivity.
  cbn [issue fst mas] in Hrun.
  destruct (0 <? Knex.count_users (mas s1))%nat eqn:Hcount.
  { by erewrite bind_stop in Hrun by (by apply fatal_real). }
  erewrite bind_ok in Hrun by reflexivity.
  match type of Hrun with (_ ≫= _) ?s = _ => set (s2 := s) in * end.
  assert (Hs2 : fatals s2 = O /\ warnings s2 = []).
  { subst s2. simpl. by rewrite Hf1, Hw1. }
  destruct Hs2 as [Hf2 Hw2].
  destruct (processUsers (with_dryRun false env) up users s2) as [sr3 [n|x]] eqn:Hloop;
    [|by erewrite bind_stop in Hrun by exact Hloop].
  rewrite (processUsers_plain (with_dryRun false env)) in Hloop by exact Hf.
  destruct (migrateUsers_postdict env up users 0 (issue (SynSelect "users") s2).1 _
              sr3 n Hf eq_refl Hloop)
    as (sd3 & Hdry & Hf3 & Hw3).
  cbn [issue fst fatals warnings] in Hf3, Hw3. rewrite Hf2 in Hf3. rewrite Hw2 in Hw3.
  exists (summary (with_dryRun true env) n sd3).1. split.
  - unfold migrate. cbn [upstreamProviderMapping with_dryRun sqlite3 synapse].
    change (loadProvider (with_dryRun true env)) with (loadProvider env).
    erewrite bind_ok by exact Hload.
    erewrite bind_ok by (by apply query_ok).
    erewrite bind_ok by reflexivity.
    cbn [issue fst mas]. rewrite Hcount.
    erewrite bind_ok by reflexivity.
    erewrite bind_ok
      by (rewrite (processUsers_plain (with_dryRun true env)) by exact Hf; exact Hdry).
    unfold summary, mbind, M_bind. simpl. rewrite replay_warnings_eq, Hf3. simpl.
    reflexivity.
  - unfold summary, mbind, M_bind. simpl. rewrite replay_warnings_eq, Hf3. simpl.
    by rewrite Hw3.
Qed.

(** X18: a dry run predicts the real run.  Provided that the target store
    accepts the rows it is given and that neither store fails a statement,
    the real run completes if and only if the dry run with the same
    arguments, on the same stores and with the same random draws, completes
    without a single warning. *)
Theorem dry_run_predicts_the_real_run env rows providers :
  accepts_all env ->
  (exists s_dry,
     migrate (with_dryRun true env) (initial rows providers) = (s_dry, Ok tt)
     /\ warnings s_dry = [])
  <-> (exists s_real,
         migrate (with_dryRun false env) (initial rows providers) = (s_real, Ok tt)).
Proof.
  intros Hacc. split.
  - intros (s_dry & Hrun & Hwarn). by eapply migrate_predicts.
  - intros (s_real & Hrun). by eapply migrate_postdicts.
Qed.

Lemma dry_run_predicts_the_real_run_witness :
  let env := Fixture.run false Fixture.source [] Fixture.accept_all in
  (exists s_dry,
     migrate (with_dryRun true env) (initial [] []) = (s_dry, Ok tt)
     /\ warnings s_dry = [])
  <-> (exists s_real,
         migrate (with_dryRun false env) (initial [] []) = (s_real, Ok tt)).
Proof.
  apply (dry_run_predicts_the_real_run
           (Fixture.run false Fixture.source [] Fixture.accept_all) [] []).
  split; [intros rows row|intros issued o]; reflexivity.
Defined.

Lemma nothing_is_dropped_silently_witness :
  let env := Sample.env true in
  let user := Sample.grace in
  let st' := (deriveUser env Fixture.providers user (initial [] [])).1 in
  let ex := Sample.grace_locals.2 in
  (forall t, t ∈ syn_user_threepids (synapse env) -> tp_user_id t = su_name user ->
     if String.eqb (tp_medium t) "email"
     then exists m, (Knex.Pool, RUserEmail m) ∈ ex
            /\ me_email m = Js.toLowerCase (tp_address t)
            /\ me_created_at m = new_Date (tp_added_at t)
     else msg_non_email (tp_medium t) (su_name user) ∈ warnings st')
  /\ (forall x p, x ∈ syn_user_external_ids (synapse env) -> ex_user_id x = su_name user ->
        Fixture.providers !! ex_auth_provider x = Some p ->
        exists m, (Knex.Pool, RUpstreamOauthLink m) ∈ ex
          /\ ml_subject m = ex_external_id x
          /\ ml_upstream_oauth_provider_id m = mo_upstream_oauth_provider_id p)
  /\ (forall a, a ∈ syn_access_tokens (synapse env) -> at_user_id a = su_name user ->
        is_Some (at_device_id a) -> su_deactivated user <> 1%Z ->
        exists s t,
          (Knex.Pool, RCompatSession s) ∈ ex /\ ms_device_id s = at_device_id a
          /\ (Knex.Pool, RCompatAccessToken t) ∈ ex
          /\ ma_compat_session_id t = ms_compat_session_id s
          /\ ma_access_token t = at_token a
          /\ match truthy_num (at_refresh_token_id a) with
             | None => True
             | Some id =>
                 match List.find (fun r => Z.eqb (rt_id r) id)
                         (syn_refresh_tokens (synapse env)) with
                 | Some rt =>
                     exists r, (Knex.Pool, RCompatRefreshToken r) ∈ ex
                       /\ mr_refresh_token r = rt_token rt
                       /\ mr_compat_session_id r = ms_compat_session_id s
                       /\ mr_compat_access_token_id r = ma_compat_access_token_id t
                 | None => msg_no_refresh_token id (su_name user) ∈ warnings st'
                 end
             end).
Proof.
  apply (nothing_is_dropped_silently (Sample.env true) Fixture.providers Sample.grace
           (initial [] [])
           (deriveUser (Sample.env true) Fixture.providers Sample.grace (initial [] [])).1
           Sample.grace_locals.1).
  vm_compute. reflexivity.
Defined.

Lemma every_row_has_a_source_witness :
  let row := RCompatRefreshToken
               {| mr_compat_refresh_token_id := "018E23F1-4C00-0000-0000-0000000003ED";
                  mr_compat_session_id := "018E23F1-4C00-0000-0000-0000000003EB";
                  mr_compat_access_token_id := "018E23F1-4C00-0000-0000-0000000003EC";
                  mr_refresh_token := "syr_Z3JhY2U_refresh";
                  mr_created_at := At 1710000000000 |} in
  su_deactivated Sample.grace <> 1%Z
  /\ exists a rt, a ∈ syn_access_tokens (synapse (Sample.env true))
       /\ at_user_id a = su_name Sample.grace /\ is_Some (at_device_id a)
       /\ rt ∈ syn_refresh_tokens (synapse (Sample.env true))
       /\ at_refresh_token_id a = Some (rt_id rt)
       /\ "syr_Z3JhY2U_refresh" = rt_token rt.
Proof.
  refine (every_row_has_a_source (Sample.env true) Fixture.providers Sample.grace
            (initial [] [])
            (deriveUser (Sample.env true) Fixture.providers Sample.grace (initial [] [])).1
            Sample.grace_locals.1 Sample.grace_locals.2 _
            (RCompatRefreshToken
               {| mr_compat_refresh_token_id := "018E23F1-4C00-0000-0000-0000000003ED";
                  mr_compat_session_id := "018E23F1-4C00-0000-0000-0000000003EB";
                  mr_compat_access_token_id := "018E23F1-4C00-0000-0000-0000000003EC";
                  mr_refresh_token := "syr_Z3JhY2U_refresh";
                  mr_created_at := At 1710000000000 |}) _).
  - vm_compute. reflexivity.
  - vm_compute. do 5 right. left.
Defined.

Lemma refresh_token_is_logged_in_clear_witness :
  let st' := (deriveUser (Sample.env true) Fixture.providers Sample.grace (initial [] [])).1 in
  exists r,
    mr_refresh_token r = rt_token Sample.grace_refresh
    /\ stringifyAndRedact (json_MCompatRefreshToken r) = stringify (json_MCompatRefreshToken r)
    /\ refresh_line Sample.grace_refresh r ∈ log st'
    /\ occurs (quoted (rt_token Sample.grace_refresh))
         (refresh_line Sample.grace_refresh r).2 = true.
Proof.
  apply (refresh_token_is_logged_in_clear (Sample.env true) Fixture.providers Sample.grace
           (initial [] [])
           (deriveUser (Sample.env true) Fixture.providers Sample.grace (initial [] [])).1
           Sample.grace_locals Sample.grace_token Sample.grace_refresh).
  - vm_compute. reflexivity.
  - vm_compute. left.
  - reflexivity.
Defined.
